(** * comsci-lzw: a shallow embedding of [comsci_lzw.js]

    The development follows the source file function by function:
    [_stringToUtf8], [_utf8ToString], [_buildDictionary], [lzwCompress],
    [lzwDecompress], [convertEncodingArrayUnitLength] and the two facade
    functions [getByteArrayFromEncodingArray] and
    [getEncodingArrayFromByteArray].

    Conventions.
    - A JavaScript string whose characters are byte valued (the result of
      [_stringToUtf8], the argument of [_utf8ToString]) is a [list ascii].
      [lzwCompress] below starts from that byte string and [lzwDecompress]
      returns the byte string [output.join('')] that the source hands to
      [_utf8ToString]. The two conversions are modelled by themselves, on
      strings as sequences of UTF-16 code units, and [lzwCompress_text] and
      [lzwDecompress_text] are the two functions with their conversion.
    - A JavaScript number that is an integer (in the range where a double
      holds integers exactly) is a [Z]; the 32 bit operators [>>=] and [<<=]
      have their wrap-around written out.
    - The dictionary is a plain object [{}]: a finite map of own properties
      keyed by property name, in front of [Object.prototype].
    - A loop of the source is a fold over the list it walks, or a [Fixpoint]
      on fuel where no list bounds it; the lemmas [bin_loop_Loops] and
      [slice_loop_chunks] show that the fuel given is enough. *)

From Stdlib Require Import ZArith Ascii String List Lia.
From stdpp Require Import base tactics option list numbers strings pretty gmap.

Local Open Scope Z_scope.

(** ** JavaScript values *)

Abbreviation phrase := (list ascii).

Definition str (s : string) : phrase := list_ascii_of_string s.

(** What an encoding array can hold: a one-character string, a number, and
    the two values that [dict[s]] yields besides those: [undefined] and a
    member inherited from [Object.prototype] (named by its property). *)
Inductive symbol :=
  | Undef
  | Lit (c : ascii)
  | Num (n : Z)
  | Obj (name : phrase).

Global Instance symbol_eq_dec : EqDecision symbol.
Proof. solve_decision. Defined.

(** The value of a local variable of [lzwDecompress]: an array element or a
    string of any length. *)
Inductive jsval :=
  | Sym (v : symbol)
  | Str (s : phrase).

Inductive error := BadlyCompressed | TypeError | RangeError.

(** How a call ends: it returns, it throws, or it is caught in a loop whose
    test never turns false (the loop pushes on an array at every turn, so a
    real engine ends it by running out of memory). *)
Inductive outcome (A : Type) :=
  | Returns (a : A)
  | Throws (e : error)
  | Loops.
Arguments Returns {A} a.
Arguments Throws {A} e.
Arguments Loops {A}.

Global Instance outcome_ret : MRet outcome := λ A a, Returns a.
Global Instance outcome_bind : MBind outcome := λ A B f m,
  match m with
  | Returns a => f a
  | Throws e => Throws e
  | Loops => Loops
  end.

(** The property names of [Object.prototype]; every one of them holds a
    function or (for [__proto__]) the prototype object itself. *)
Definition proto_names : list phrase :=
  map str
    ["constructor"; "hasOwnProperty"; "isPrototypeOf"; "propertyIsEnumerable";
     "toLocaleString"; "toString"; "valueOf"; "__proto__";
     "__defineGetter__"; "__defineSetter__";
     "__lookupGetter__"; "__lookupSetter__"]%string.

(** [String(v)], which is also the property key [v] is used as. A built-in
    function prints as V8 prints it. *)
Definition ToString (v : symbol) : phrase :=
  match v with
  | Undef => str "undefined"
  | Lit c => [c]
  | Num n => str (pretty n)
  | Obj name =>
      if decide (name = str "__proto__") then str "[object Object]"
      else str "function "
           ++ (if decide (name = str "constructor") then str "Object" else name)
           ++ str "() { [native code] }"
  end.

Definition ToString_val (v : jsval) : phrase :=
  match v with Sym v => ToString v | Str s => s end.

(** [Boolean(v)] *)
Definition truthy (v : symbol) : bool :=
  match v with
  | Undef => false
  | Lit _ => true
  | Num n => negb (n =? 0)
  | Obj _ => true
  end.

(** [Number(c)] for a one-character string: a digit is its value, white
    space is 0, anything else is NaN ([None]). *)
Definition ToNumber_char (c : ascii) : option Z :=
  let n := Z.of_N (N_of_ascii c) in
  if (48 <=? n) && (n <=? 57) then Some (n - 48)
  else if ((9 <=? n) && (n <=? 13)) || (n =? 32) || (n =? 160) then Some 0
  else None.

(** [v == n] for a number [n] *)
Definition loose_eq (v : symbol) (n : Z) : bool :=
  match v with
  | Undef => false
  | Lit c => match ToNumber_char c with Some m => m =? n | None => false end
  | Num m => m =? n
  | Obj _ => false
  end.

(** The text of [v[0]] inside a template literal; reading a property of
    [undefined] throws. *)
Definition index0 (v : jsval) : outcome phrase :=
  match v with
  | Sym Undef => Throws TypeError
  | Sym (Lit c) => Returns [c]
  | Sym (Num _) | Sym (Obj _) => Returns (str "undefined")
  | Str (c :: _) => Returns [c]
  | Str [] => Returns (str "undefined")
  end.

(** A property name of [Object.prototype] has two characters at least and
    starts with a letter or an underscore, other than "f" and "u": not as a
    number prints, and not as [undefined], an object or a function prints. *)
Definition name_head (name : phrase) : bool :=
  match name with
  | c :: _ :: _ =>
      let n := N_of_ascii c in
      negb ((n =? 45) || ((48 <=? n) && (n <=? 57))
            || (n =? 91) || (n =? 102) || (n =? 117))%N
  | _ => false
  end.

(** ** The dictionary *)

Definition DICT_SIZE : Z := 512.
Definition BITS_PER_ENCODING : Z := Z.log2_up DICT_SIZE.

Definition byte_chars : list ascii := map ascii_of_nat (seq 0 256).

(** [_buildDictionary]: [dict[ch] = ch] for the 256 one-character strings.
    The entry is read as a symbol by the compressor and as a phrase by the
    decompressor; [inj] says which. *)
Definition _buildDictionary {V} (inj : ascii → V) : gmap phrase V * Z :=
  (list_to_map (map (λ ch, ([ch], inj ch)) byte_chars), 256).

(** [dict[k]] where the values are symbols: an own property, else a member
    of [Object.prototype], else [undefined]. *)
Definition get (dict : gmap phrase symbol) (k : phrase) : symbol :=
  match dict !! k with
  | Some v => v
  | None => if decide (k ∈ proto_names) then Obj k else Undef
  end.

(** [dict[k] = v] for a primitive [v]: the setter of [__proto__] ignores
    it, any other name becomes an own property. *)
Definition assign {V} (dict : gmap phrase V) (k : phrase) (v : V) : gmap phrase V :=
  if decide (k = str "__proto__") then dict else <[k := v]> dict.

(** ** lzwCompress

    Nothing in the function throws: it is a total function of the byte
    string. The state of the loop is the four variables [output], [dict],
    [dictLen] and [s]. *)

Record cstate := CState {
  c_output : list symbol;
  c_dict : gmap phrase symbol;
  c_dictLen : Z;
  c_s : phrase
}.

Definition c_init : cstate :=
  let '(dict, dictLen) := _buildDictionary Lit in
  CState [] dict dictLen [].

(** The [else] branch up to the reset test. *)
Definition c_emit (st : cstate) (ch : ascii) : cstate :=
  CState (c_output st ++ [get (c_dict st) (c_s st)])
         (assign (c_dict st) (c_s st ++ [ch]) (Num (c_dictLen st)))
         (c_dictLen st + 1)
         [ch].

(** [if (dictLen >= DICT_SIZE) [dict, dictLen] = _buildDictionary()] *)
Definition c_reset (st : cstate) : cstate :=
  if DICT_SIZE <=? c_dictLen st then
    let '(dict, dictLen) := _buildDictionary Lit in
    CState (c_output st) dict dictLen (c_s st)
  else st.

(** One iteration of the loop over the input bytes. *)
Definition c_step (st : cstate) (ch : ascii) : cstate :=
  if truthy (get (c_dict st) (c_s st ++ [ch])) then
    CState (c_output st) (c_dict st) (c_dictLen st) (c_s st ++ [ch])
  else c_reset (c_emit st ch).

Definition c_run (st : cstate) (input : phrase) : cstate :=
  fold_left c_step input st.

(** [if (s) output.push(dict[s])] *)
Definition c_flush (st : cstate) : list symbol :=
  match c_s st with
  | [] => c_output st
  | _ => c_output st ++ [get (c_dict st) (c_s st)]
  end.

Definition lzwCompress (inputData : phrase) : list symbol * gmap phrase symbol :=
  let st := c_run c_init inputData in
  (c_flush st, c_dict st).

(** ** lzwDecompress

    The state of the loop is [output], [dict], [dictLen] and [prevcode]. *)

Record dstate := DState {
  d_output : list jsval;
  d_dict : gmap phrase phrase;
  d_dictLen : Z;
  d_prevcode : jsval
}.

Definition d_init (encodingArray : list symbol) : dstate :=
  let '(dict, dictLen) := _buildDictionary (λ ch, [ch]) in
  let prevcode := Sym (hd Undef encodingArray) in
  DState [prevcode] dict dictLen prevcode.

(** [let data = dict[currcode]; if (!data) { ... }]. No property key of a
    symbol names a member of [Object.prototype] (lemma
    [ToString_not_inherited]), so only own properties are found. *)
Definition d_data (st : dstate) (currcode : symbol) : outcome phrase :=
  match d_dict st !! ToString currcode with
  | Some (c :: data) => Returns (c :: data)
  | _ =>
      if loose_eq currcode (d_dictLen st) then
        p0 ← index0 (d_prevcode st);
        Returns (ToString_val (d_prevcode st) ++ p0)
      else Throws BadlyCompressed
  end.

(** The loop body after [data] is known, up to the reset test. [data] is
    not empty there, so [data[0]] is its first character. *)
Definition d_insert (st : dstate) (data : phrase) : dstate :=
  DState (d_output st ++ [Str data])
         (assign (d_dict st) (ToString (Num (d_dictLen st)))
                 (ToString_val (d_prevcode st) ++ take 1 data))
         (d_dictLen st + 1)
         (Str data).

Definition d_reset (st : dstate) : dstate :=
  if DICT_SIZE <=? d_dictLen st then
    let '(dict, dictLen) := _buildDictionary (λ ch, [ch]) in
    DState (d_output st) dict dictLen (d_prevcode st)
  else st.

Definition d_step (st : dstate) (currcode : symbol) : outcome dstate :=
  data ← d_data st currcode;
  Returns (d_reset (d_insert st data)).

Fixpoint d_run (st : dstate) (codes : list symbol) : outcome dstate :=
  match codes with
  | [] => Returns st
  | currcode :: rest => st' ← d_step st currcode; d_run st' rest
  end.

(** [output.join('')]: [undefined] joins as the empty string. *)
Definition join_val (v : jsval) : phrase :=
  match v with
  | Sym Undef => []
  | _ => ToString_val v
  end.

Definition join (output : list jsval) : phrase :=
  concat (map join_val output).

Definition lzwDecompress (encodingArray : list symbol) : outcome phrase :=
  st ← d_run (d_init encodingArray) (tail encodingArray);
  Returns (join (d_output st)).

(** ** convertEncodingArrayUnitLength *)

(** [ToInt32]: the operand of a 32 bit operator. *)
Definition ToInt32 (z : Z) : Z := (z + 2 ^ 31) mod 2 ^ 32 - 2 ^ 31.

(** [ch >>= 1] and [out <<= 1] *)
Definition sar1 (ch : Z) : Z := Z.shiftr (ToInt32 ch) 1.
Definition shl1 (out : Z) : Z := ToInt32 (Z.shiftl (ToInt32 out) 1).

(** [while (ch) { binArr.push(ch % 2); ch >>= 1; }] for a number [ch].
    After the first iteration [ch] is a 32 bit integer: a positive one reaches
    0 within 31 more iterations and a negative one never does (lemma
    [bin_loop_Loops]), so running out of [fuel] is the loop that never ends. *)
Fixpoint bin_loop (fuel : nat) (ch : Z) (binArr : list Z) : outcome (list Z) :=
  match fuel with
  | O => Loops
  | S fuel =>
      if ch =? 0 then Returns binArr
      else bin_loop fuel (sar1 ch) (binArr ++ [Z.rem ch 2])
  end.

Definition bin_fuel : nat := 40.

(** The text of [binArr.reverse().join('')] for an element [k] of the
    array. A string element is replaced by its char code first. A value
    that is not a number ([undefined], an object) is tested and used as it
    is: [undefined] is falsy, an object is truthy, gives [NaN] for [ch % 2]
    and 0 for [ch >>= 1]. The result comes with [binArr.length]. *)
Definition binArr_text (k : symbol) : outcome (nat * phrase) :=
  match k with
  | Lit c =>
      binArr ← bin_loop bin_fuel (Z.of_N (N_of_ascii c)) [];
      Returns (length binArr, concat (map (λ b, str (pretty b)) (rev binArr)))
  | Num n =>
      binArr ← bin_loop bin_fuel n [];
      Returns (length binArr, concat (map (λ b, str (pretty b)) (rev binArr)))
  | Undef => Returns (0%nat, [])
  | Obj _ => Returns (1%nat, str "NaN")
  end.

(** ['0'.repeat(count)] throws a RangeError for a negative count. *)
Definition repeat0 (count : Z) : outcome phrase :=
  if count <? 0 then Throws RangeError
  else Returns (replicate (Z.to_nat count) "0"%char).

(** The body of the first loop: the text pushed on [binaryFormArr]. *)
Definition unit_text (originalUnitLength : Z) (k : symbol) : outcome phrase :=
  '(len, text) ← binArr_text k;
  zeros ← repeat0 (originalUnitLength - Z.of_nat len);
  Returns (zeros ++ text).

Fixpoint binaryFormArr (originalUnitLength : Z) (encodingArray : list symbol)
    : outcome (list phrase) :=
  match encodingArray with
  | [] => Returns []
  | k :: rest =>
      unit ← unit_text originalUnitLength k;
      units ← binaryFormArr originalUnitLength rest;
      Returns (unit :: units)
  end.

(** The inner loop: [out <<= 1; if (byteBinary[j] == '1') out += 1] for
    [j] from 0 to [targetUnitLength - 1]. *)
Definition unit_value (targetUnitLength : nat) (byteBinary : phrase) : Z :=
  fold_left
    (λ out j,
       let out := shl1 out in
       if decide (byteBinary !! j = Some "1"%char) then out + 1 else out)
    (seq 0 targetUnitLength) 0.

(** The second loop for a positive [targetUnitLength]; [i] advances by
    [targetUnitLength], so [length binaryForm] iterations are enough. *)
Fixpoint slice_loop (fuel : nat) (binaryForm : phrase) (i targetUnitLength : nat)
    (discardIncompleteUnit : bool) (output : list Z) : list Z :=
  match fuel with
  | O => output
  | S fuel =>
      if (i <? length binaryForm)%nat then
        let byteBinary := take targetUnitLength (drop i binaryForm) in
        let output :=
          if discardIncompleteUnit && (length byteBinary <? targetUnitLength)%nat
          then output
          else output ++ [unit_value targetUnitLength byteBinary] in
        slice_loop fuel binaryForm (i + targetUnitLength) targetUnitLength
                   discardIncompleteUnit output
      else output
  end.

(** With [targetUnitLength <= 0] the index [i] never passes
    [binaryForm.length] and the loop does not end, unless [binaryForm] is
    empty and the loop does not start. *)
Definition convertEncodingArrayUnitLength (encodingArray : list symbol)
    (originalUnitLength targetUnitLength : Z) (discardIncompleteUnit : bool)
    : outcome (list Z) :=
  units ← binaryFormArr originalUnitLength encodingArray;
  let binaryForm := concat units in
  match binaryForm with
  | [] => Returns []
  | _ =>
      if targetUnitLength <=? 0 then Loops
      else Returns (slice_loop (length binaryForm) binaryForm 0
                      (Z.to_nat targetUnitLength) discardIncompleteUnit [])
  end.

Definition getByteArrayFromEncodingArray (encodingArray : list symbol)
    : outcome (list Z) :=
  convertEncodingArrayUnitLength encodingArray BITS_PER_ENCODING 8 false.

(** [v > 255 ? v : String.fromCharCode(v)]; the values come out of 9 bit
    groups, so [v] is not negative. *)
Definition code_of_number (v : Z) : symbol :=
  if 255 <? v then Num v else Lit (ascii_of_N (Z.to_N v)).

Definition getEncodingArrayFromByteArray (byteArray : list Z)
    : outcome (list symbol) :=
  codes ← convertEncodingArrayUnitLength (map Num byteArray) 8 BITS_PER_ENCODING true;
  Returns (map code_of_number codes).

(** The facade, as [demoForNodeJs] chains it. *)
Definition roundtrip (inputData : phrase) : outcome phrase :=
  compressResult ← getByteArrayFromEncodingArray (lzwCompress inputData).1;
  encodingArray ← getEncodingArrayFromByteArray compressResult;
  lzwDecompress encodingArray.

(** ** Reading the bit string

    A second account of what [convertEncodingArrayUnitLength] computes,
    in the words of the specification: every value is a fixed width group
    of bits, most significant bit first; the groups are concatenated and the
    concatenation is cut again at the target width. *)

Definition bit_char (b : bool) : ascii := if b then "1"%char else "0"%char.

(** The [w] bit group of [n], most significant bit first. *)
Fixpoint to_bits (w : nat) (n : Z) : phrase :=
  match w with
  | O => []
  | S w => to_bits w (n / 2) ++ [bit_char (Z.odd n)]
  end.

(** The unsigned integer a group stands for. *)
Definition of_bits (s : phrase) : Z :=
  fold_left (λ acc c, 2 * acc + (if decide (c = "1"%char) then 1 else 0)) s 0.

Definition is_bit (c : ascii) : Prop := c = "0"%char ∨ c = "1"%char.

(** Consecutive groups of [t] characters; the last one may be shorter. *)
Fixpoint chunks_fuel (fuel t : nat) (s : phrase) : list phrase :=
  match fuel with
  | O => []
  | S fuel =>
      match s with
      | [] => []
      | _ => take t s :: chunks_fuel fuel t (drop t s)
      end
  end.

Definition chunks (t : nat) (s : phrase) : list phrase :=
  chunks_fuel (length s) t s.

(** A short group filled up with zero bits on the right. *)
Definition pad_right (t : nat) (c : phrase) : phrase :=
  c ++ replicate (t - length c) "0"%char.

(** The number of zero bits that fill [len] bits up to a multiple of [t]. *)
Definition padding (t len : nat) : nat := ((t - len mod t) mod t)%nat.

(** The number value of a code: the char code of a literal byte, the index
    itself. *)
Definition code_value (k : symbol) : Z :=
  match k with
  | Lit c => Z.of_N (N_of_ascii c)
  | Num n => n
  | _ => 0
  end.

(** The code alphabet at width [w]: a literal byte, or an index from 256 up
    that fits in [w] bits. *)
Definition is_code (w : nat) (k : symbol) : Prop :=
  match k with
  | Lit _ => True
  | Num n => 256 ≤ n < 2 ^ Z.of_nat w
  | _ => False
  end.

(** A number, or a one-character string, below [2 ^ w]. *)
Definition fits (w : Z) (k : symbol) : Prop :=
  match k with
  | Lit c => Z.of_N (N_of_ascii c) < 2 ^ w
  | Num n => 0 ≤ n < 2 ^ w
  | _ => False
  end.

(** The bit string of a code sequence at width [w]. *)
Definition code_bits (w : nat) (codes : list symbol) : phrase :=
  concat (map (λ k, to_bits w (code_value k)) codes).

(** A group survives the second loop unless it is short and the discard
    flag is set. *)
Definition complete (discard : bool) (t : nat) (c : phrase) : Prop :=
  discard = false ∨ (t ≤ length c)%nat.

Global Instance complete_dec discard t c : Decision (complete discard t c).
Proof. unfold complete. apply _. Defined.

(** ** Observing the dictionaries

    The dictionary and its size after every insertion (with the reset test
    applied), in the order of the insertions: the compressor inserts when it
    emits a code inside the loop, the decompressor when it has read a code
    after the first. *)

Fixpoint c_trace (st : cstate) (input : phrase)
    : list (gmap phrase symbol * Z) :=
  match input with
  | [] => []
  | ch :: rest =>
      let st' := c_step st ch in
      (if truthy (get (c_dict st) (c_s st ++ [ch])) then []
       else [(c_dict st', c_dictLen st')])
      ++ c_trace st' rest
  end.

Fixpoint d_trace (st : dstate) (codes : list symbol)
    : list (gmap phrase phrase * Z) :=
  match codes with
  | [] => []
  | currcode :: rest =>
      match d_step st currcode with
      | Returns st' => (d_dict st', d_dictLen st') :: d_trace st' rest
      | _ => []
      end
  end.

(** The two dictionaries hold the same bindings between phrases and codes:
    the compressor's from phrase to code, the decompressor's from the
    property key of the code to the phrase. *)
Definition same_dict (c : gmap phrase symbol * Z) (d : gmap phrase phrase * Z)
    : Prop :=
  c.2 = d.2 ∧
  ∀ p v, c.1 !! p = Some v ↔ is_code 9 v ∧ d.1 !! ToString v = Some p.

(** No stretch of the input spells a property name of [Object.prototype]. *)
Definition proto_free (input : phrase) : Prop :=
  ∀ pre name post, input = pre ++ name ++ post → name ∉ proto_names.

(** What holds of the compressor's dictionary between two iterations. *)
Record c_inv (st : cstate) : Prop := CInv {
  c_inv_len : 256 ≤ c_dictLen st < DICT_SIZE;
  c_inv_size : Z.of_nat (size (c_dict st)) = c_dictLen st;
  c_inv_lit : ∀ c, c_dict st !! [c] = Some (Lit c);
  c_inv_val : ∀ p v, c_dict st !! p = Some v →
    (∃ c, p = [c] ∧ v = Lit c) ∨ (∃ n, v = Num n ∧ 256 ≤ n < c_dictLen st)
}.

(** What holds of the decompressor's dictionary between two iterations. *)
Record d_inv (st : dstate) : Prop := DInv {
  d_inv_len : 256 ≤ d_dictLen st < DICT_SIZE;
  d_inv_size : Z.of_nat (size (d_dict st)) = d_dictLen st;
  d_inv_lit : ∀ c, d_dict st !! [c] = Some [c];
  d_inv_key : ∀ k, is_Some (d_dict st !! k) →
    (∃ c, k = [c]) ∨ (∃ n, k = ToString (Num n) ∧ 256 ≤ n < d_dictLen st);
  d_inv_val : ∀ k, d_dict st !! k ≠ Some []
}.

(** The decompressor is one insertion behind the compressor: the entry
    that the compressor has just added is added by the decompressor when it
    reads the next code, whose phrase starts with the byte [ch] that the
    compressor holds in [s]. [pending st ch] is the dictionary the
    decompressor will have then. *)
Definition pending (st : dstate) (ch : ascii) : gmap phrase phrase * Z :=
  let st' := d_reset (d_insert st [ch]) in (d_dict st', d_dictLen st').

(** How the compressor's state after the bytes [consumed] and the
    decompressor's state after the codes emitted so far correspond. *)
Inductive sim (consumed : phrase) (st : cstate) : Prop :=
  | sim_start :
      c_output st = [] →
      c_dict st = (_buildDictionary Lit).1 →
      c_dictLen st = 256 →
      consumed = c_s st →
      (length (c_s st) ≤ 1)%nat →
      c_trace c_init consumed = [] →
      sim consumed st
  | sim_run dst ch p :
      c_output st ≠ [] →
      d_run (d_init (c_output st)) (tail (c_output st)) = Returns dst →
      d_inv dst →
      consumed = join (d_output dst) ++ c_s st →
      head (c_s st) = Some ch →
      is_Some (c_dict st !! c_s st) →
      same_dict (c_dict st, c_dictLen st) (pending dst ch) →
      p ≠ [] →
      ToString_val (d_prevcode dst) = p →
      index0 (d_prevcode dst) = Returns (take 1 p) →
      Forall2 same_dict (c_trace c_init consumed)
        (d_trace (d_init (c_output st)) (tail (c_output st)) ++ [pending dst ch]) →
      Forall (is_code 9) (c_output st) →
      sim consumed st.

(** ** What the compressor emits, and the rhythm of the resets *)

(** What the compressor can emit: a code, or a member of
    [Object.prototype]. *)
Definition emitted (v : symbol) : Prop :=
  is_code 9 v ∨ ∃ name, name ∈ proto_names ∧ v = Obj name.

(** Between two iterations: the codes pushed so far, and the phrase [s]
    that is still held, which has an entry unless no byte was read yet. *)
Record c_held (n : nat) (st : cstate) : Prop := CHeld {
  c_held_output : Forall emitted (c_output st);
  c_held_s : match c_s st with
             | [] => n = 0%nat ∧ c_output st = []
             | _ => emitted (get (c_dict st) (c_s st)) ∧
                    (length (c_output st) < n)%nat
             end
}.

(** [dictLen] after the insertion number [i], counted from 0. *)
Definition cadence (i : Z) : Z := 256 + (i + 1) mod 256.

(** ** The two UTF-8 conversions

    [_stringToUtf8] is [unescape(encodeURIComponent(str))] and
    [_utf8ToString] is [decodeURIComponent(escape(str))]. The four built-in
    functions are modelled as ECMA-262 defines them: [Encode] and [Decode]
    of the URI handling functions, [escape] and [unescape] of Annex B. A
    string is the sequence of its UTF-16 code units. The only error of the
    four is the URIError of [Encode] and [Decode], which is [None]. *)

Abbreviation jsstring := (list Z).

Definition unit_of (c : ascii) : Z := Z.of_N (N_of_ascii c).
Definition char_of (u : Z) : ascii := ascii_of_N (Z.to_N u).

Definition code_units (s : string) : jsstring := map unit_of (str s).

(** The characters that [encodeURIComponent] leaves as they are:
    uriUnescaped of the URI grammar. *)
Definition uriUnescaped : jsstring :=
  code_units "ABCDEFGHIJKLMNOPQRSTUVWXYZabcdefghijklmnopqrstuvwxyz0123456789-_.!~*'()".

(** The characters that [escape] leaves as they are. *)
Definition escapeUnescaped : jsstring :=
  code_units "ABCDEFGHIJKLMNOPQRSTUVWXYZabcdefghijklmnopqrstuvwxyz0123456789@*_+-./".

(** Two uppercase hexadecimal digits for an octet. *)
Definition hex_digit (d : Z) : Z :=
  nth (Z.to_nat d) (code_units "0123456789ABCDEF") 0.

Definition hex_octet (B : Z) : jsstring :=
  [hex_digit (B / 16); hex_digit (B mod 16)].

Definition percent_octet (B : Z) : jsstring := unit_of "%" :: hex_octet B.

(** The value of a hexadecimal digit of either case. *)
Definition hex_value (u : Z) : option Z :=
  if (48 <=? u) && (u <=? 57) then Some (u - 48)
  else if (65 <=? u) && (u <=? 70) then Some (u - 55)
  else if (97 <=? u) && (u <=? 102) then Some (u - 87)
  else None.

(** The mathematical value of a sequence of hexadecimal digits that is not
    empty; [None] when it does not parse. *)
Fixpoint hex_MV (acc : Z) (hexDigits : jsstring) : option Z :=
  match hexDigits with
  | [] => Some acc
  | d :: rest => v ← hex_value d; hex_MV (16 * acc + v) rest
  end.

Definition parse_hex (hexDigits : jsstring) : option Z :=
  match hexDigits with
  | [] => None
  | _ => hex_MV 0 hexDigits
  end.

Definition is_leading_surrogate (u : Z) : bool := (0xD800 <=? u) && (u <=? 0xDBFF).
Definition is_trailing_surrogate (u : Z) : bool := (0xDC00 <=? u) && (u <=? 0xDFFF).

Definition UTF16SurrogatePairToCodePoint (lead trail : Z) : Z :=
  (lead - 0xD800) * 0x400 + (trail - 0xDC00) + 0x10000.

Definition UTF16EncodeCodePoint (cp : Z) : jsstring :=
  if cp <=? 0xFFFF then [cp]
  else [(cp - 0x10000) / 0x400 + 0xD800; (cp - 0x10000) mod 0x400 + 0xDC00].

(** The UTF-8 transformation of a code point. *)
Definition utf8_octets (cp : Z) : list Z :=
  if cp <? 0x80 then [cp]
  else if cp <? 0x800 then [0xC0 + cp / 64; 0x80 + cp mod 64]
  else if cp <? 0x10000 then
    [0xE0 + cp / 4096; 0x80 + cp / 64 mod 64; 0x80 + cp mod 64]
  else
    [0xF0 + cp / 262144; 0x80 + cp / 4096 mod 64; 0x80 + cp / 64 mod 64;
     0x80 + cp mod 64].

(** [Encode(string, unescapedSet)]: a code unit of the set is copied; any
    other code point is replaced by the escapes of its UTF-8 octets; a
    surrogate that is not half of a pair throws. *)
Fixpoint Encode (unescapedSet string : jsstring) : option jsstring :=
  match string with
  | [] => Some []
  | C :: rest =>
      if bool_decide (C ∈ unescapedSet) then
        R ← Encode unescapedSet rest; Some (C :: R)
      else if is_trailing_surrogate C then None
      else if is_leading_surrogate C then
        match rest with
        | second :: rest' =>
            if is_trailing_surrogate second then
              R ← Encode unescapedSet rest';
              Some (flat_map percent_octet
                      (utf8_octets (UTF16SurrogatePairToCodePoint C second)) ++ R)
            else None
        | [] => None
        end
      else
        R ← Encode unescapedSet rest;
        Some (flat_map percent_octet (utf8_octets C) ++ R)
  end.

Definition encodeURIComponent (uriComponent : jsstring) : option jsstring :=
  Encode uriUnescaped uriComponent.

(** [unescape]: at a [%], six units that read [%uXXXX] or else three that
    read [%XX] become the code unit of that value; anything else is
    copied. *)
Fixpoint unescape (string : jsstring) : jsstring :=
  match string with
  | [] => []
  | C :: s1 =>
      let plain := C :: unescape s1 in
      if negb (C =? unit_of "%") then plain
      else
        match s1 with
        | a :: b :: s3 =>
            let two :=
              match parse_hex [a; b] with
              | Some n => n :: unescape s3
              | None => plain
              end in
            match s3 with
            | d :: e :: f :: s6 =>
                if a =? unit_of "u" then
                  match parse_hex [b; d; e; f] with
                  | Some n => n :: unescape s6
                  | None => plain
                  end
                else two
            | _ => two
            end
        | _ => plain
        end
  end.

(** [escape]: a code unit outside its set becomes [%XX] below 256 and
    [%uXXXX] from 256 up. *)
Definition escape_unit (u : Z) : jsstring :=
  if bool_decide (u ∈ escapeUnescaped) then [u]
  else if u <? 256 then percent_octet u
  else unit_of "%" :: unit_of "u" :: hex_octet (u / 256) ++ hex_octet (u mod 256).

Definition escape (string : jsstring) : jsstring := flat_map escape_unit string.

(** [ParseHexOctet] at the head of [string]. *)
Definition ParseHexOctet (string : jsstring) : option (Z * jsstring) :=
  match string with
  | a :: b :: rest => n ← parse_hex [a; b]; Some (n, rest)
  | _ => None
  end.

(** The number of leading 1 bits of an octet. *)
Definition leading_ones (B : Z) : nat :=
  if B <? 0x80 then 0
  else if B <? 0xC0 then 1
  else if B <? 0xE0 then 2
  else if B <? 0xF0 then 3
  else if B <? 0xF8 then 4
  else if B <? 0xFC then 5
  else if B <? 0xFE then 6
  else if B <? 0xFF then 7
  else 8.

(** The [j] escaped octets that must follow the first one. *)
Fixpoint continuation (j : nat) (string : jsstring) : option (list Z * jsstring) :=
  match j with
  | O => Some ([], string)
  | S j =>
      match string with
      | C :: rest =>
          if C =? unit_of "%" then
            '(B, rest) ← ParseHexOctet rest;
            '(Octets, rest) ← continuation j rest;
            Some (B :: Octets, rest)
          else None
      | [] => None
      end
  end.

Definition is_continuation (B : Z) : bool := (0x80 <=? B) && (B <=? 0xBF).

(** The code point of [Octets] when they are a valid UTF-8 encoding of one:
    every octet after the first is a continuation octet, the value is not
    one that a shorter encoding has, not a surrogate and not above
    0x10FFFF. The first octet of two, three or four has that many leading 1
    bits. *)
Definition utf8_code_point (Octets : list Z) : option Z :=
  match Octets with
  | [b0; b1] =>
      let V := (b0 - 0xC0) * 64 + (b1 - 0x80) in
      if is_continuation b1 && (0x80 <=? V) then Some V else None
  | [b0; b1; b2] =>
      let V := (b0 - 0xE0) * 4096 + (b1 - 0x80) * 64 + (b2 - 0x80) in
      if is_continuation b1 && is_continuation b2 && (0x800 <=? V)
         && negb ((0xD800 <=? V) && (V <=? 0xDFFF))
      then Some V else None
  | [b0; b1; b2; b3] =>
      let V := (b0 - 0xF0) * 262144 + (b1 - 0x80) * 4096 + (b2 - 0x80) * 64
               + (b3 - 0x80) in
      if is_continuation b1 && is_continuation b2 && is_continuation b3
         && (0x10000 <=? V) && (V <=? 0x10FFFF)
      then Some V else None
  | _ => None
  end.

(** [Decode(string, preserveEscapeSet)] with the empty set of
    [decodeURIComponent]. Every iteration consumes a code unit at least, so
    the length of the string is fuel enough (lemma [Decode_fuel]). *)
Fixpoint Decode (fuel : nat) (string : jsstring) : option jsstring :=
  match fuel, string with
  | _, [] => Some []
  | O, _ :: _ => None
  | S fuel, C :: rest =>
      if negb (C =? unit_of "%") then R ← Decode fuel rest; Some (C :: R)
      else
        '(B, rest) ← ParseHexOctet rest;
        let n := leading_ones B in
        if (n =? 0)%nat then R ← Decode fuel rest; Some (B :: R)
        else if (n =? 1)%nat || (4 <? n)%nat then None
        else
          '(Octets, rest) ← continuation (n - 1) rest;
          V ← utf8_code_point (B :: Octets);
          R ← Decode fuel rest;
          Some (UTF16EncodeCodePoint V ++ R)
  end.

Definition decodeURIComponent (encodedURIComponent : jsstring) : option jsstring :=
  Decode (length encodedURIComponent) encodedURIComponent.

Definition _stringToUtf8 (text : jsstring) : option jsstring :=
  unescape <$> encodeURIComponent text.

Definition _utf8ToString (text : jsstring) : option jsstring :=
  decodeURIComponent (escape text).

(** *** UTF-16 and UTF-8 by themselves *)

(** The code points of a string; [None] when a surrogate is not half of a
    pair. *)
Fixpoint code_points (s : jsstring) : option (list Z) :=
  match s with
  | [] => Some []
  | u :: rest =>
      if is_trailing_surrogate u then None
      else if is_leading_surrogate u then
        match rest with
        | v :: rest' =>
            if is_trailing_surrogate v then
              cps ← code_points rest';
              Some (UTF16SurrogatePairToCodePoint u v :: cps)
            else None
        | [] => None
        end
      else cps ← code_points rest; Some (u :: cps)
  end.

Definition utf8 (cps : list Z) : list Z := flat_map utf8_octets cps.

(** A code point that is no surrogate. *)
Definition scalar_value (cp : Z) : Prop :=
  0 ≤ cp < 0x110000 ∧ ¬ (0xD800 ≤ cp ≤ 0xDFFF).

(** No stretch of the string spells a property name of
    [Object.prototype]. *)
Definition proto_free_text (text : jsstring) : Prop :=
  ∀ pre name post, text = pre ++ map unit_of name ++ post → name ∉ proto_names.

(** *** The two functions with their conversions

    [lzwCompress] as the source has it starts with [_stringToUtf8], and
    [lzwDecompress] ends with [_utf8ToString]. What [_stringToUtf8] returns
    holds bytes only, so the loop [for (let ch of ...)], which walks a
    string by code points, reads one byte at a time. [None] is the URIError
    of the conversion. *)

Definition lzwCompress_text (inputData : jsstring)
    : option (list symbol * gmap phrase symbol) :=
  bytes ← _stringToUtf8 inputData;
  Some (lzwCompress (map char_of bytes)).

Definition lzwDecompress_text (encodingArray : list symbol)
    : outcome (option jsstring) :=
  output ← lzwDecompress encodingArray;
  Returns (_utf8ToString (map unit_of output)).

(** The chain of [demoForNodeJs] on a text. *)
Definition roundtrip_text (TEXT : jsstring) : outcome (option jsstring) :=
  match lzwCompress_text TEXT with
  | None => Returns None
  | Some (compressResultEncodingArray, _) =>
      compressResult ← getByteArrayFromEncodingArray compressResultEncodingArray;
      encodingArray ← getEncodingArrayFromByteArray compressResult;
      lzwDecompress_text encodingArray
  end.

(** * Proofs *)

Lemma bind_Returns {A B} (a : A) (f : A → outcome B) :
  (x ← Returns a; f x) = f a.
Proof. done. Qed.

(** ** 32 bit operators inside their range *)

Lemma ToInt32_small z : - 2 ^ 31 ≤ z < 2 ^ 31 → ToInt32 z = z.
Proof.
  intros Hz. unfold ToInt32.
  rewrite Z.mod_small by lia. lia.
Qed.

Lemma sar1_small n : 0 ≤ n < 2 ^ 31 → sar1 n = n / 2.
Proof.
  intros Hn. unfold sar1. rewrite ToInt32_small by lia.
  by rewrite Z.shiftr_div_pow2.
Qed.

Lemma shl1_small n : 0 ≤ n < 2 ^ 30 → shl1 n = 2 * n.
Proof.
  intros Hn. unfold shl1. rewrite (ToInt32_small n) by lia.
  rewrite Z.shiftl_mul_pow2 by lia.
  rewrite ToInt32_small; lia.
Qed.

(** ** Bit groups *)

Lemma to_bits_length w n : length (to_bits w n) = w.
Proof.
  revert n. induction w as [|w IH]; intros n; simpl; [done|].
  rewrite length_app, IH. simpl. lia.
Qed.

Lemma to_bits_0 w : to_bits w 0 = replicate w "0"%char.
Proof.
  induction w as [|w IH]; [done|].
  rewrite replicate_S_end. cbn [to_bits].
  change (0 / 2) with 0. by rewrite IH.
Qed.

Lemma to_bits_is_bit w n : Forall is_bit (to_bits w n).
Proof.
  revert n. induction w as [|w IH]; intros n; simpl; [constructor|].
  apply Forall_app. split; [apply IH|].
  constructor; [|constructor].
  unfold is_bit, bit_char. destruct (Z.odd n); auto.
Qed.

Lemma of_bits_snoc s c :
  of_bits (s ++ [c]) = 2 * of_bits s + (if decide (c = "1"%char) then 1 else 0).
Proof. unfold of_bits. by rewrite fold_left_app. Qed.

Lemma of_bits_bounds s : 0 ≤ of_bits s < 2 ^ Z.of_nat (length s).
Proof.
  induction s as [|c s IH] using rev_ind; [simpl; unfold of_bits; simpl; lia|].
  rewrite of_bits_snoc, length_app. simpl.
  replace (Z.of_nat (length s + 1)) with (Z.succ (Z.of_nat (length s))) by lia.
  rewrite Z.pow_succ_r by lia.
  case_decide; lia.
Qed.

Lemma of_bits_to_bits w n : 0 ≤ n < 2 ^ Z.of_nat w → of_bits (to_bits w n) = n.
Proof.
  revert n. induction w as [|w IH]; intros n Hn.
  - simpl in *. unfold of_bits. simpl. lia.
  - simpl. rewrite of_bits_snoc.
    replace (Z.of_nat (S w)) with (Z.succ (Z.of_nat w)) in Hn by lia.
    rewrite Z.pow_succ_r in Hn by lia.
    rewrite IH by (split; [apply Z.div_pos; lia|apply Z.div_lt_upper_bound; lia]).
    pose proof (Z.div_mod n 2 ltac:(lia)) as Hdm.
    rewrite Zmod_odd in Hdm. unfold bit_char.
    destruct (Z.odd n); case_decide; try done; lia.
Qed.

Lemma to_bits_of_bits s : Forall is_bit s → to_bits (length s) (of_bits s) = s.
Proof.
  induction s as [|c s IH] using rev_ind; intros Hs; [done|].
  apply Forall_app in Hs as [Hs Hc]. rewrite Forall_singleton in Hc.
  rewrite length_app. simpl. replace (length s + 1)%nat with (S (length s)) by lia.
  simpl. rewrite of_bits_snoc.
  assert (Hdiv : (2 * of_bits s + (if decide (c = "1"%char) then 1 else 0)) / 2
                 = of_bits s).
  { case_decide.
    - rewrite Z.mul_comm, Z.div_add_l by lia. change (1 / 2) with 0. lia.
    - rewrite Z.add_0_r, Z.mul_comm, Z.div_mul by lia. done. }
  rewrite Hdiv, IH by done. f_equal. f_equal.
  destruct Hc as [-> | ->]; simpl.
  - rewrite Z.add_0_r, Z.odd_mul. done.
  - rewrite Z.odd_add, Z.odd_mul. done.
Qed.

(** ** The first loop: one value becomes one group *)

Lemma digit_text n :
  0 ≤ n → str (pretty (Z.rem n 2)) = [bit_char (Z.odd n)].
Proof.
  intros Hn. rewrite Z.rem_mod_nonneg by lia. rewrite Zmod_odd.
  by destruct (Z.odd n).
Qed.

Lemma bin_loop_S fuel ch binArr :
  bin_loop (S fuel) ch binArr =
  if ch =? 0 then Returns binArr
  else bin_loop fuel (sar1 ch) (binArr ++ [Z.rem ch 2]).
Proof. done. Qed.

Lemma bin_fuel_enough : (32 < bin_fuel)%nat.
Proof. unfold bin_fuel. lia. Qed.

Lemma bin_fuel_eq : bin_fuel = 40%nat.
Proof. done. Qed.

Local Arguments bin_loop : simpl never.
Local Opaque bin_fuel.

Lemma bin_loop_to_bits k : ∀ n fuel acc,
  0 ≤ n < 2 ^ Z.of_nat k → (k ≤ 31)%nat → (k < fuel)%nat →
  ∃ binArr,
    bin_loop fuel n acc = Returns (acc ++ binArr) ∧
    (length binArr ≤ k)%nat ∧
    ∀ w, (length binArr ≤ w)%nat →
      replicate (w - length binArr) "0"%char
        ++ concat (map (λ b, str (pretty b)) (rev binArr)) = to_bits w n.
Proof.
  induction k as [|k IH]; intros n fuel acc Hn Hk Hfuel.
  - assert (n = 0) as -> by (simpl in Hn; lia).
    destruct fuel as [|fuel]; [lia|].
    exists []. rewrite bin_loop_S. simpl. rewrite app_nil_r. split_and!; [done|lia|].
    intros w _. rewrite app_nil_r, Nat.sub_0_r. by rewrite to_bits_0.
  - destruct fuel as [|fuel]; [lia|].
    destruct (decide (n = 0)) as [->|Hn0].
    { exists []. rewrite bin_loop_S. simpl. rewrite app_nil_r. split_and!; [done|lia|].
      intros w _. rewrite app_nil_r, Nat.sub_0_r. by rewrite to_bits_0. }
    replace (Z.of_nat (S k)) with (Z.succ (Z.of_nat k)) in Hn by lia.
    rewrite Z.pow_succ_r in Hn by lia.
    assert (2 ^ Z.of_nat k ≤ 2 ^ 30) by (apply Z.pow_le_mono_r; lia).
    destruct (IH (n / 2) fuel (acc ++ [Z.rem n 2])) as (binArr & Hrun & Hlen & Hbits).
    { split; [apply Z.div_pos; lia|apply Z.div_lt_upper_bound; lia]. }
    { lia. }
    { lia. }
    exists (Z.rem n 2 :: binArr). split_and!.
    + rewrite bin_loop_S. destruct (Z.eqb_spec n 0) as [?|_]; [done|].
      rewrite sar1_small by lia. rewrite Hrun. by rewrite <- app_assoc.
    + simpl. lia.
    + intros [|w] Hw; [simpl in Hw; lia|].
      cbn [length rev to_bits]. rewrite map_app, concat_app. simpl.
      rewrite app_nil_r, digit_text by lia.
      rewrite app_assoc. f_equal. apply Hbits. simpl in Hw. lia.
Qed.

Lemma N_of_ascii_bound c : Z.of_N (N_of_ascii c) < 256.
Proof. pose proof (N_ascii_bounded c). lia. Qed.

(** A value that fits in [w] bits, and in the 31 bits that [>>=] handles,
    has at most [w] binary digits: the count for ['0'.repeat] is not
    negative, and the zeros and the digits make the [w] bit group. *)
Lemma binArr_text_fits (w : nat) k :
  fits (Z.of_nat w) k → code_value k < 2 ^ 31 →
  ∃ len text,
    binArr_text k = Returns (len, text) ∧ (len ≤ w)%nat ∧
    replicate (w - len) "0"%char ++ text = to_bits w (code_value k).
Proof.
  intros Hfit H31.
  assert (Hv : 0 ≤ code_value k < 2 ^ Z.of_nat (min w 31)).
  { destruct (Nat.min_spec w 31) as [[_ ->]|[_ ->]];
      destruct k; simpl in *; try done; lia. }
  destruct (bin_loop_to_bits (min w 31) (code_value k) bin_fuel [] Hv)
    as (binArr & Hrun & Hlen & Hbits); [lia|pose proof bin_fuel_enough; lia|].
  simpl in Hrun.
  exists (length binArr), (concat (map (λ b, str (pretty b)) (rev binArr))).
  split_and!; [|lia|apply Hbits; lia].
  destruct k; simpl in Hfit; try done; unfold binArr_text;
    simpl in Hrun; by rewrite Hrun.
Qed.

Lemma unit_text_fits (w : nat) k :
  fits (Z.of_nat w) k → code_value k < 2 ^ 31 →
  unit_text (Z.of_nat w) k = Returns (to_bits w (code_value k)).
Proof.
  intros Hfit H31.
  destruct (binArr_text_fits w k Hfit H31) as (len & text & Hk & Hlen & Hbits).
  unfold unit_text. rewrite Hk, bind_Returns. unfold repeat0.
  destruct (Z.ltb_spec (Z.of_nat w - Z.of_nat len) 0); [lia|].
  rewrite bind_Returns.
  replace (Z.to_nat (Z.of_nat w - Z.of_nat len)) with (w - len)%nat by lia.
  by rewrite Hbits.
Qed.

Lemma binaryFormArr_fits (w : nat) l :
  Forall (λ k, fits (Z.of_nat w) k ∧ code_value k < 2 ^ 31) l →
  binaryFormArr (Z.of_nat w) l = Returns (map (λ k, to_bits w (code_value k)) l).
Proof.
  induction 1 as [|k l [Hk H31] _ IH]; [done|].
  cbn [binaryFormArr]. rewrite unit_text_fits, IH by done. done.
Qed.

(** ** The second loop: cutting the bit string again *)

Lemma unit_value_snoc t c :
  unit_value (S t) c =
  shl1 (unit_value t c) + (if decide (c !! t = Some "1"%char) then 1 else 0).
Proof.
  unfold unit_value. rewrite seq_S, fold_left_app. simpl.
  case_decide; lia.
Qed.

Lemma unit_value_bounds t c :
  (t ≤ 31)%nat → 0 ≤ unit_value t c < 2 ^ Z.of_nat t.
Proof.
  induction t as [|t IH]; intros Ht; [by compute|].
  rewrite unit_value_snoc.
  specialize (IH ltac:(lia)).
  assert (2 ^ Z.of_nat t ≤ 2 ^ 30) by (apply Z.pow_le_mono_r; lia).
  rewrite shl1_small by lia.
  replace (Z.of_nat (S t)) with (Z.succ (Z.of_nat t)) by lia.
  rewrite Z.pow_succ_r by lia. case_decide; lia.
Qed.

Lemma unit_value_of_bits t c :
  (t ≤ 31)%nat → unit_value t c = of_bits (take t (c ++ replicate t "0"%char)).
Proof.
  induction t as [|t IH]; intros Ht; [done|].
  rewrite unit_value_snoc.
  pose proof (unit_value_bounds t c ltac:(lia)).
  assert (2 ^ Z.of_nat t ≤ 2 ^ 30) by (apply Z.pow_le_mono_r; lia).
  rewrite shl1_small by lia. rewrite IH by lia.
  assert (Hlk : ∃ x, (c ++ replicate (S t) "0"%char) !! t = Some x ∧
            (x = "1"%char ↔ c !! t = Some "1"%char)) .
  { destruct (c !! t) as [x|] eqn:Hx.
    - exists x. split; [by apply lookup_app_l_Some|].
      split; [by intros ->|by intros [= ->]].
    - apply lookup_ge_None in Hx. exists "0"%char. split; [|by split].
      rewrite lookup_app_r by done. apply lookup_replicate. split; [done|lia]. }
  destruct Hlk as (x & Hx & Hx1).
  rewrite (take_S_r _ _ x Hx), of_bits_snoc.
  assert (take t (c ++ replicate (S t) "0"%char)
          = take t (c ++ replicate t "0"%char)) as ->.
  { rewrite replicate_S_end, app_assoc.
    rewrite take_app_le; [done|]. rewrite length_app, length_replicate. lia. }
  do 2 case_decide; try done; exfalso; tauto.
Qed.

Lemma unit_value_pad t c :
  (t ≤ 31)%nat → (length c ≤ t)%nat → unit_value t c = of_bits (pad_right t c).
Proof.
  intros Ht Hc. rewrite unit_value_of_bits by done. unfold pad_right. f_equal.
  rewrite take_app_ge by done. f_equal.
  rewrite take_replicate. f_equal. lia.
Qed.

Lemma div_sub_S n t : (1 ≤ t ≤ n)%nat → (n / t = S ((n - t) / t))%nat.
Proof.
  intros Ht. assert (n = (n - t) + 1 * t)%nat as Hn by lia.
  rewrite Hn at 1. rewrite Nat.div_add by lia. lia.
Qed.

Section cutting.
(** The groups of a positive width [t]. *)
Context (t : nat) (Ht : (1 ≤ t)%nat).

Lemma chunks_fuel_irrel : ∀ f1 f2 s,
  (length s ≤ f1)%nat → (length s ≤ f2)%nat →
  chunks_fuel f1 t s = chunks_fuel f2 t s.
Proof using Ht.
  induction f1 as [|f1 IH]; intros f2 s H1 H2.
  - destruct s; [|simpl in H1; lia]. by destruct f2.
  - destruct s as [|c s]; [by destruct f2|].
    destruct f2 as [|f2]; [simpl in H2; lia|].
    cbn [chunks_fuel]. f_equal.
    apply IH; rewrite length_drop; simpl in *; lia.
Qed.

Lemma chunks_unfold s :
  s ≠ [] → chunks t s = take t s :: chunks t (drop t s).
Proof using Ht.
  intros Hs. unfold chunks. destruct s as [|c s]; [done|].
  cbn [length chunks_fuel]. f_equal.
  apply chunks_fuel_irrel; rewrite length_drop; simpl; lia.
Qed.

Lemma chunks_app_full a s :
  length a = t → chunks t (a ++ s) = a :: chunks t s.
Proof using Ht.
  intros Ha. rewrite chunks_unfold.
  - by rewrite take_app_length', drop_app_length'.
  - destruct a; [simpl in Ha; lia|done].
Qed.

Lemma chunks_concat l r :
  Forall (λ a, length a = t) l →
  chunks t (concat l ++ r) = l ++ chunks t r.
Proof using Ht.
  induction 1 as [|a l Ha _ IH]; [done|].
  simpl. rewrite <- app_assoc, chunks_app_full by done. by rewrite IH.
Qed.

Lemma chunks_short r :
  (1 ≤ length r ≤ t)%nat → chunks t r = [r].
Proof using Ht.
  intros Hr. rewrite chunks_unfold by (by destruct r; [simpl in Hr; lia|]).
  by rewrite take_ge, drop_ge by lia.
Qed.

(** A property of all groups follows by induction on the length of what
    is left to cut. *)
Lemma chunks_ind (P : phrase → list phrase → Prop) :
  P [] [] →
  (∀ s, s ≠ [] → P (drop t s) (chunks t (drop t s)) →
        P s (take t s :: chunks t (drop t s))) →
  ∀ s, P s (chunks t s).
Proof using Ht.
  intros Hnil Hcons s. remember (length s) as n eqn:Hn.
  revert s Hn. induction n as [n IH] using lt_wf_ind. intros s ->.
  destruct s as [|c s]; [done|].
  rewrite chunks_unfold by done. apply Hcons; [done|].
  apply (IH (length (drop t (c :: s)))); [|done].
  rewrite length_drop. simpl. lia.
Qed.

Lemma concat_chunks s : concat (chunks t s) = s.
Proof using Ht.
  apply (chunks_ind (λ s cs, concat cs = s)); [done|].
  intros s' _ IH. cbn [concat]. rewrite IH. apply take_drop.
Qed.

Lemma chunks_length_le s :
  Forall (λ c, (1 ≤ length c ≤ t)%nat) (chunks t s).
Proof using Ht.
  apply (chunks_ind (λ _ cs, Forall (λ c, (1 ≤ length c ≤ t)%nat) cs));
    [constructor|].
  intros s' Hs' IH. constructor; [|done].
  rewrite length_take. destruct s'; [done|]. simpl. lia.
Qed.

Lemma chunks_is_bit s :
  Forall is_bit s → Forall (Forall is_bit) (chunks t s).
Proof using Ht.
  intros Hs. apply Forall_forall. intros c Hc.
  apply Forall_forall. intros x Hx.
  assert (x ∈ concat (chunks t s)) as Hin.
  { apply list_elem_of_In, in_concat. exists c.
    split; by apply list_elem_of_In. }
  rewrite concat_chunks in Hin.
  by eapply Forall_forall in Hs.
Qed.

(** A bit count that is a multiple of [t] gives complete groups only. *)
Lemma chunks_full s :
  (length s mod t = 0)%nat →
  Forall (λ c, length c = t) (chunks t s) ∧
  length (chunks t s) = (length s / t)%nat.
Proof using Ht.
  apply (chunks_ind (λ s cs, (length s mod t = 0)%nat →
    Forall (λ c, length c = t) cs ∧ length cs = (length s / t)%nat)).
  { intros _. by rewrite Nat.Div0.div_0_l. }
  intros s' Hs' IH Hmod.
  assert (t ≤ length s')%nat as Hle.
  { destruct (decide (t ≤ length s')%nat) as [|Hlt]; [done|].
    rewrite Nat.mod_small in Hmod by lia. destruct s'; [done|].
    simpl in Hmod. lia. }
  destruct IH as [Hall Hlen].
  { rewrite length_drop.
    replace (length s') with ((length s' - t) + 1 * t)%nat in Hmod by lia.
    by rewrite Nat.Div0.mod_add in Hmod. }
  split.
  - constructor; [|done]. rewrite length_take. lia.
  - rewrite (div_sub_S (length s') t) by lia.
    rewrite <- length_drop, <- Hlen. done.
Qed.

Lemma padding_spec n :
  (padding t n < t)%nat ∧ ((n + padding t n) mod t = 0)%nat.
Proof using Ht.
  unfold padding.
  pose proof (Nat.mod_upper_bound n t ltac:(lia)) as Hn.
  split; [apply Nat.mod_upper_bound; lia|].
  destruct (decide (n mod t = 0)%nat) as [H0|H0].
  - rewrite H0, Nat.sub_0_r, Nat.Div0.mod_same, Nat.add_0_r. done.
  - rewrite (Nat.mod_small (t - n mod t)) by lia.
    assert (n + (t - n mod t) = (n / t + 1) * t)%nat as ->.
    { pose proof (Nat.div_mod_eq n t). nia. }
    apply Nat.Div0.mod_mul.
Qed.

Lemma padding_sub n : (t ≤ n)%nat → padding t (n - t) = padding t n.
Proof using Ht.
  intros Hn. unfold padding. f_equal. f_equal.
  replace n with ((n - t) + 1 * t)%nat at 2 by lia.
  by rewrite Nat.Div0.mod_add.
Qed.

(** Cutting the zero-filled string gives the groups of the string itself,
    the last one filled up. *)
Lemma chunks_pad s :
  chunks t (s ++ replicate (padding t (length s)) "0"%char)
  = map (pad_right t) (chunks t s).
Proof using Ht.
  remember (length s) as n eqn:Hn.
  revert s Hn. induction n as [n IH] using lt_wf_ind. intros s ->.
  destruct s as [|c s].
  { assert (padding t (length (@nil ascii)) = 0)%nat as ->; [|done].
    unfold padding. cbn [length]. rewrite Nat.Div0.mod_0_l, Nat.sub_0_r.
    apply Nat.Div0.mod_same. }
  destruct (decide (t ≤ length (c :: s))%nat) as [Hle|Hlt].
  - rewrite (chunks_unfold (c :: s)) by done. cbn [map].
    rewrite <- (take_drop t (c :: s)) at 1.
    rewrite <- app_assoc, chunks_app_full by (rewrite length_take; lia).
    f_equal.
    + unfold pad_right. rewrite length_take.
      replace (t - t `min` length (c :: s))%nat with 0%nat by lia.
      by rewrite app_nil_r.
    + rewrite <- (IH (length (drop t (c :: s)))); [|rewrite length_drop; simpl; lia|done].
      rewrite length_drop. by rewrite (padding_sub (length (c :: s))).
  - rewrite (chunks_short (c :: s)) by (simpl in *; lia). cbn [map].
    assert (padding t (length (c :: s)) = t - length (c :: s))%nat as ->.
    { unfold padding. cbn [length] in *.
      rewrite (Nat.mod_small (S (length s))) by lia.
      rewrite Nat.mod_small; lia. }
    apply chunks_short. simpl in *. rewrite length_app, length_replicate. lia.
Qed.

(** The second loop gives one value for every group that is complete or
    kept; any fuel from the length of the rest on gives the same. *)
Lemma slice_loop_chunks d bf : ∀ fuel i output,
  (length (drop i bf) ≤ fuel)%nat →
  slice_loop fuel bf i t d output =
  output ++ map (unit_value t) (filter (complete d t) (chunks t (drop i bf))).
Proof using Ht.
  induction fuel as [|fuel IH]; intros i output Hfuel.
  - destruct (drop i bf); [|simpl in Hfuel; lia]. simpl. by rewrite app_nil_r.
  - cbn [slice_loop]. destruct (Nat.ltb_spec i (length bf)) as [Hi|Hi].
    + assert (drop i bf ≠ []) as Hne.
      { intros Hnil%drop_nil_inv. lia. }
      rewrite length_drop in Hfuel.
      rewrite IH by (rewrite length_drop; lia).
      rewrite (chunks_unfold (drop i bf)) by done.
      rewrite drop_drop.
      destruct (decide (complete d t (take t (drop i bf)))) as [Hc|Hc].
      * rewrite filter_cons_True by done.
        assert (d && (length (take t (drop i bf)) <? t)%nat = false) as ->.
        { destruct Hc as [->|Hc]; [done|].
          apply andb_false_intro2. by apply Nat.ltb_ge. }
        cbn [map]. by rewrite <- app_assoc.
      * rewrite filter_cons_False by done.
        assert (d && (length (take t (drop i bf)) <? t)%nat = true) as ->; [|done].
        unfold complete in Hc. destruct d; [|by destruct Hc; left].
        apply Nat.ltb_lt. lia.
    + rewrite drop_ge by done. simpl. by rewrite app_nil_r.
Qed.

Lemma convertEncodingArrayUnitLength_spec l w d units :
  binaryFormArr w l = Returns units →
  convertEncodingArrayUnitLength l w (Z.of_nat t) d =
  Returns (map (unit_value t) (filter (complete d t) (chunks t (concat units)))).
Proof using Ht.
  intros Hunits. unfold convertEncodingArrayUnitLength. rewrite Hunits. simpl.
  destruct (concat units) as [|c s] eqn:Hbf; [done|].
  destruct (Z.leb_spec (Z.of_nat t) 0); [lia|].
  rewrite Nat2Z.id, slice_loop_chunks; [done|].
  rewrite drop_0. done.
Qed.
End cutting.

(** Whatever the input, a target width up to 31 gives values of that
    width: what [getEncodingArrayFromByteArray] maps is never negative. *)
Lemma convert_output_range l w (t : nat) d output :
  (1 ≤ t ≤ 31)%nat →
  convertEncodingArrayUnitLength l w (Z.of_nat t) d = Returns output →
  Forall (λ v, 0 ≤ v < 2 ^ Z.of_nat t) output.
Proof.
  intros Ht Hconv.
  destruct (binaryFormArr w l) as [units| |] eqn:Hunits;
    [|by unfold convertEncodingArrayUnitLength in Hconv; rewrite Hunits in Hconv..].
  rewrite (convertEncodingArrayUnitLength_spec t) with (units := units) in Hconv
    by (lia || done).
  injection Hconv as <-. rewrite Forall_map. apply Forall_true.
  intros c. apply unit_value_bounds. lia.
Qed.

(** ** The facade: packing and unpacking *)

Lemma BITS_PER_ENCODING_eq : BITS_PER_ENCODING = 9.
Proof. reflexivity. Qed.

Lemma filter_all {A} (P : A → Prop) `{∀ x, Decision (P x)} (l : list A) :
  Forall P l → filter P l = l.
Proof.
  induction 1 as [|x l Hx _ IH]; [done|].
  by rewrite filter_cons_True, IH.
Qed.

Lemma filter_none {A} (P : A → Prop) `{∀ x, Decision (P x)} (l : list A) :
  Forall (λ x, ¬ P x) l → filter P l = [].
Proof.
  induction 1 as [|x l Hx _ IH]; [done|].
  by rewrite filter_cons_False, IH.
Qed.

Lemma fits_is_code w k : (8 ≤ w)%nat → is_code w k → fits (Z.of_nat w) k.
Proof.
  intros Hw. destruct k as [|c|n|]; simpl; try done; [|lia].
  intros _. pose proof (N_of_ascii_bound c).
  assert (2 ^ 8 ≤ 2 ^ Z.of_nat w) by (apply Z.pow_le_mono_r; lia). lia.
Qed.

Lemma code_bits_fits (w : nat) codes :
  (w ≤ 31)%nat → Forall (fits (Z.of_nat w)) codes →
  binaryFormArr (Z.of_nat w) codes
  = Returns (map (λ k, to_bits w (code_value k)) codes).
Proof.
  intros Hw Hfit. apply binaryFormArr_fits.
  eapply Forall_impl; [exact Hfit|]. intros k Hk. split; [done|].
  assert (2 ^ Z.of_nat w ≤ 2 ^ 31) by (apply Z.pow_le_mono_r; lia).
  destruct k; simpl in *; try done; lia.
Qed.

(** What [convertEncodingArrayUnitLength] returns on values that fit: the
    groups of the bit string, each read as a number with the missing bits
    of a short group taken as zero. *)
Lemma convert_fits (w t : nat) codes d :
  (w ≤ 31)%nat → (1 ≤ t ≤ 31)%nat → Forall (fits (Z.of_nat w)) codes →
  convertEncodingArrayUnitLength codes (Z.of_nat w) (Z.of_nat t) d
  = Returns (map (λ c, of_bits (pad_right t c))
               (filter (complete d t) (chunks t (code_bits w codes)))).
Proof.
  intros Hw Ht Hfit.
  assert (1 ≤ t)%nat as Ht1 by lia.
  rewrite (convertEncodingArrayUnitLength_spec t Ht1 codes (Z.of_nat w) d _
             (code_bits_fits w codes Hw Hfit)).
  f_equal. apply map_ext_in. intros c Hc%list_elem_of_In.
  apply list_elem_of_filter in Hc as [_ Hc].
  pose proof (chunks_length_le t Ht1 (code_bits w codes)) as Hall.
  rewrite Forall_forall in Hall. specialize (Hall c Hc).
  apply unit_value_pad; lia.
Qed.

Lemma code_bits_length w codes :
  length (code_bits w codes) = (w * length codes)%nat.
Proof.
  unfold code_bits. induction codes as [|k codes IH]; simpl; [lia|].
  rewrite length_app, to_bits_length, IH. lia.
Qed.

Lemma code_bits_is_bit w codes : Forall is_bit (code_bits w codes).
Proof.
  unfold code_bits. induction codes as [|k codes IH]; simpl; [constructor|].
  apply Forall_app. split; [apply to_bits_is_bit|done].
Qed.

Lemma pad_right_full t c : length c = t → pad_right t c = c.
Proof.
  intros <-. unfold pad_right. by rewrite Nat.sub_diag, app_nil_r.
Qed.

Lemma filter_complete_false t (l : list phrase) :
  filter (complete false t) l = l.
Proof. apply filter_all, Forall_true. intros c. by left. Qed.

(** Without the discard flag the result is the cut of the bit string
    filled up with zero bits to a multiple of the target width. *)
Lemma convert_keep (w t : nat) codes :
  (w ≤ 31)%nat → (1 ≤ t ≤ 31)%nat → Forall (fits (Z.of_nat w)) codes →
  convertEncodingArrayUnitLength codes (Z.of_nat w) (Z.of_nat t) false
  = Returns (map of_bits
      (chunks t (code_bits w codes
                 ++ replicate (padding t (length (code_bits w codes))) "0"%char))).
Proof.
  intros Hw Ht Hfit. rewrite convert_fits by done.
  rewrite filter_complete_false, chunks_pad by lia.
  by rewrite map_map.
Qed.

(** When the bit count is a multiple of the target width the flag does not
    matter. *)
Lemma convert_exact (w t : nat) codes d :
  (w ≤ 31)%nat → (1 ≤ t ≤ 31)%nat → Forall (fits (Z.of_nat w)) codes →
  ((w * length codes) mod t = 0)%nat →
  convertEncodingArrayUnitLength codes (Z.of_nat w) (Z.of_nat t) d
  = Returns (map of_bits (chunks t (code_bits w codes))) ∧
  length (chunks t (code_bits w codes)) = (w * length codes / t)%nat.
Proof.
  intros Hw Ht Hfit Hmod. rewrite convert_fits by done.
  destruct (chunks_full t ltac:(lia) (code_bits w codes)) as [Hfull Hlen].
  { by rewrite code_bits_length. }
  rewrite code_bits_length in Hlen. split; [|done].
  rewrite filter_all.
  - f_equal. apply map_ext_in. intros c Hc%list_elem_of_In.
    rewrite Forall_forall in Hfull. by rewrite pad_right_full by auto.
  - eapply Forall_impl; [exact Hfull|]. intros c Hc. right. simpl in Hc. lia.
Qed.

(** Cutting back: groups of width [a] that were packed at width [b], with
    fewer than [a] zero bits of filling, come back when the short final group
    is discarded; with no filling they come back either way. *)
Lemma convert_back (a b : nat) units d :
  (1 ≤ a ≤ 31)%nat → (1 ≤ b ≤ 31)%nat →
  Forall (λ u, length u = a ∧ Forall is_bit u) units →
  (padding b (length (concat units)) < a)%nat ∧ d = true
    ∨ padding b (length (concat units)) = 0%nat →
  convertEncodingArrayUnitLength
    (map Num (map of_bits
       (chunks b (concat units
                  ++ replicate (padding b (length (concat units))) "0"%char))))
    (Z.of_nat b) (Z.of_nat a) d
  = Returns (map of_bits units).
Proof.
  intros Ha Hb Hunits Hpad.
  set (pad := padding b (length (concat units))) in *.
  set (bits := concat units ++ replicate pad "0"%char).
  assert (Hbits : Forall is_bit bits).
  { apply Forall_app. split.
    - apply Forall_concat. eapply Forall_impl; [exact Hunits|]. by intros u [_ ?].
    - apply Forall_replicate. by left. }
  destruct (chunks_full b ltac:(lia) bits) as [Hfull _].
  { unfold bits. rewrite length_app, length_replicate.
    apply padding_spec. lia. }
  pose proof (chunks_is_bit b ltac:(lia) bits Hbits) as Hcb.
  assert (Hcode : code_bits b (map Num (map of_bits (chunks b bits))) = bits).
  { unfold code_bits. rewrite !map_map. simpl.
    rewrite <- (concat_chunks b ltac:(lia) bits) at 2. f_equal.
    rewrite <- (map_id (chunks b bits)) at 2.
    apply map_ext_in. intros c Hc%list_elem_of_In.
    rewrite Forall_forall in Hfull, Hcb.
    rewrite <- (Hfull c Hc) at 1. apply to_bits_of_bits. auto. }
  rewrite convert_fits; [|lia|lia|].
  2:{ rewrite Forall_map, Forall_map. eapply Forall_impl; [exact Hfull|].
      intros c Hc. simpl. rewrite <- Hc. apply of_bits_bounds. }
  rewrite Hcode. unfold bits.
  rewrite chunks_concat; [|lia|eapply Forall_impl; [exact Hunits|by intros u [? _]]].
  rewrite filter_app, filter_all.
  2:{ eapply Forall_impl; [exact Hunits|]. intros u [Hu _]. right. simpl in Hu. lia. }
  assert (filter (complete d a) (chunks a (replicate pad "0"%char)) = []) as ->.
  { destruct Hpad as [[Hlt ->]| ->]; [|done].
    destruct (decide (pad = 0)%nat) as [->|Hne]; [done|].
    rewrite chunks_short by (rewrite ?length_replicate; lia).
    apply filter_none. constructor; [|constructor].
    unfold complete. rewrite length_replicate. intros [?|?]; [done|lia]. }
  rewrite app_nil_r. f_equal. apply map_ext_in. intros u Hu%list_elem_of_In.
  rewrite Forall_forall in Hunits. by rewrite pad_right_full by (by apply Hunits).
Qed.

Lemma code_of_number_value k : is_code 9 k → code_of_number (code_value k) = k.
Proof.
  destruct k as [|c|n|]; simpl; try done.
  - intros _. unfold code_of_number.
    pose proof (N_of_ascii_bound c).
    destruct (Z.ltb_spec 255 (Z.of_N (N_of_ascii c))); [lia|].
    by rewrite N2Z.id, ascii_N_embedding.
  - intros Hn. unfold code_of_number.
    destruct (Z.ltb_spec 255 n); [done|lia].
Qed.

(** Packing a code sequence and unpacking the bytes gives the codes back,
    whatever their number: the filling of the last byte is shorter than a
    code and is discarded. *)
Lemma pack_unpack codes :
  Forall (is_code 9) codes →
  ∃ bytes,
    getByteArrayFromEncodingArray codes = Returns bytes ∧
    getEncodingArrayFromByteArray bytes = Returns codes.
Proof.
  intros Hcodes.
  assert (Hfit : Forall (fits (Z.of_nat 9)) codes).
  { eapply Forall_impl; [exact Hcodes|]. intros k. apply fits_is_code. lia. }
  eexists. split.
  { unfold getByteArrayFromEncodingArray. rewrite BITS_PER_ENCODING_eq.
    apply (convert_keep 9 8 codes); [lia|lia|done]. }
  unfold getEncodingArrayFromByteArray. rewrite BITS_PER_ENCODING_eq.
  unfold code_bits.
  pose proof (convert_back 9 8 (map (λ k, to_bits 9 (code_value k)) codes) true)
    as Hback.
  change (Z.of_nat 8) with 8 in Hback. change (Z.of_nat 9) with 9 in Hback.
  rewrite Hback; clear Hback.
  - rewrite bind_Returns. f_equal. rewrite !map_map.
    rewrite <- (map_id codes) at 2. apply map_ext_in.
    intros k Hk%list_elem_of_In. rewrite Forall_forall in Hcodes, Hfit.
    rewrite of_bits_to_bits.
    + by apply code_of_number_value, Hcodes.
    + specialize (Hfit k Hk). destruct k; simpl in *; try done.
      pose proof (N_of_ascii_bound c). lia.
  - lia.
  - lia.
  - rewrite Forall_map. apply Forall_true. intros k. cbv beta.
    split; [apply to_bits_length|apply to_bits_is_bit].
  - left. split; [|done].
    pose proof (padding_spec 8 ltac:(lia)
      (length (concat (map (λ k, to_bits 9 (code_value k)) codes)))) as [Hp _].
    lia.
Qed.

(** ** The initial dictionary and the property keys *)

Lemma byte_chars_all c : c ∈ byte_chars.
Proof.
  unfold byte_chars. apply list_elem_of_In, in_map_iff.
  exists (nat_of_ascii c). split; [apply ascii_nat_embedding|].
  apply in_seq. pose proof (nat_ascii_bounded c). lia.
Qed.

Lemma byte_keys_NoDup : NoDup (map (λ ch : ascii, [ch]) byte_chars).
Proof. apply (bool_decide_unpack _). by vm_compute. Qed.

Lemma lookup_buildDictionary {V} (inj : ascii → V) k :
  (_buildDictionary inj).1 !! k
  = match k with [c] => Some (inj c) | _ => None end.
Proof.
  unfold _buildDictionary. cbn [fst].
  assert (Hnd : NoDup (map (λ ch, ([ch], inj ch)) byte_chars).*1).
  { replace ((map (λ ch, ([ch], inj ch)) byte_chars).*1)
      with (map (λ ch : ascii, [ch]) byte_chars); [apply byte_keys_NoDup|].
    generalize byte_chars. induction l; simpl; [done|]. by f_equal. }
  destruct (list_to_map _ !! k) as [v|] eqn:Hk.
  - apply elem_of_list_to_map in Hk; [|done].
    apply list_elem_of_In, in_map_iff in Hk as (c & [= <- <-] & _). done.
  - destruct k as [|c [|c' k]]; try done.
    apply not_elem_of_list_to_map in Hk. exfalso. apply Hk.
    apply list_elem_of_In, in_map_iff. exists ([c], inj c). split; [done|].
    apply in_map_iff. exists c. split; [done|].
    apply list_elem_of_In, byte_chars_all.
Qed.

Lemma size_buildDictionary {V} (inj : ascii → V) :
  size (_buildDictionary inj).1 = 256%nat.
Proof.
  unfold _buildDictionary. cbn [fst].
  rewrite map_size_list_to_map; [by rewrite length_map|].
  replace ((map (λ ch, ([ch], inj ch)) byte_chars).*1)
    with (map (λ ch : ascii, [ch]) byte_chars); [apply byte_keys_NoDup|].
  generalize byte_chars. induction l; simpl; [done|]. by f_equal.
Qed.

Lemma str_inj s1 s2 : str s1 = str s2 → s1 = s2.
Proof.
  intros H. rewrite <- (string_of_list_ascii_of_string s1).
  rewrite <- (string_of_list_ascii_of_string s2). unfold str in H. by rewrite H.
Qed.

Lemma ToString_Num_inj n m : ToString (Num n) = ToString (Num m) → n = m.
Proof. simpl. intros H%str_inj. by apply (inj pretty). Qed.

(** The keys of the learned entries have three digits. *)
Lemma ToString_Num_length n :
  256 ≤ n < 512 → length (ToString (Num n)) = 3%nat.
Proof.
  intros Hn.
  assert (Hall : Forall (λ n, length (ToString (Num n)) = 3%nat) (seqZ 256 256)).
  { apply (bool_decide_unpack _). by vm_compute. }
  rewrite Forall_forall in Hall. apply Hall, elem_of_seqZ. lia.
Qed.

Lemma ToString_Num_not_char n c : 256 ≤ n < 512 → ToString (Num n) ≠ [c].
Proof. intros Hn Heq. apply ToString_Num_length in Hn. by rewrite Heq in Hn. Qed.

Lemma ToString_Num_not_proto n : 256 ≤ n < 512 → ToString (Num n) ≠ str "__proto__".
Proof. intros Hn Heq. apply ToString_Num_length in Hn. by rewrite Heq in Hn. Qed.

Lemma ToString_is_code_inj v n :
  is_code 9 v → 256 ≤ n < 512 → ToString v = ToString (Num n) → v = Num n.
Proof.
  intros Hv Hn Heq. destruct v as [|c|m|]; try done.
  - symmetry in Heq. by apply ToString_Num_not_char in Heq.
  - f_equal. by apply ToString_Num_inj.
Qed.

Lemma ToString_is_code_char v c : is_code 9 v → ToString v = [c] → v = Lit c.
Proof.
  intros Hv Heq. destruct v as [|c'|m|]; try done.
  - by injection Heq as ->.
  - simpl in Hv. apply ToString_Num_not_char in Heq; [done|]. simpl. lia.
Qed.

(** A number prints with a digit or a minus sign in front. *)
Lemma pretty_N_go_head x s :
  (0 < x)%N → ∃ d rest, pretty_N_go x s = String (pretty_N_char d) rest.
Proof.
  revert s. induction (N.lt_wf_0 x) as [x _ IH]; intros s Hx.
  rewrite pretty_N_go_step by done.
  destruct (decide (x `div` 10 = 0)%N) as [H0|Hne].
  - rewrite H0, pretty_N_go_0. eauto.
  - apply IH; [by apply N.div_lt|by apply N.neq_0_lt_0].
Qed.

Lemma pretty_Z_head (z : Z) :
  ∃ c rest, pretty z = String c rest ∧
    (c = "-"%char ∨ ∃ d, c = pretty_N_char d).
Proof.
  assert (HN : ∀ p, ∃ d rest, pretty (N.pos p) = String (pretty_N_char d) rest).
  { intros p. unfold pretty, pretty_N. case_decide; [done|].
    by apply pretty_N_go_head. }
  destruct z as [|p|p].
  - exists "0"%char, ""%string. split; [done|]. right. by exists 0%N.
  - destruct (HN p) as (d & rest & Hp). exists (pretty_N_char d), rest.
    split; [done|]. right. by exists d.
  - exists "-"%char, (pretty (N.pos p)). split; [done|]. by left.
Qed.

Lemma pretty_N_char_code d : (48 ≤ N_of_ascii (pretty_N_char d) ≤ 57)%N.
Proof. unfold pretty_N_char. repeat case_match; vm_compute; naive_solver. Qed.

Lemma proto_names_head : forallb name_head proto_names = true.
Proof. by vm_compute. Qed.

(** The property key of an array element is no property name of
    [Object.prototype]: [dict[currcode]] in [lzwDecompress] finds own
    properties only. *)
Lemma ToString_not_inherited v : ToString v ∉ proto_names.
Proof.
  intros Hin%list_elem_of_In.
  pose proof proto_names_head as Hall. rewrite forallb_forall in Hall.
  specialize (Hall _ Hin). clear Hin. unfold name_head in Hall.
  destruct v as [|c|n|name]; cbn [ToString] in Hall.
  - done.
  - done.
  - destruct (pretty_Z_head n) as (c & rest & Hn & Hc). rewrite Hn in Hall.
    cbn [str list_ascii_of_string] in Hall.
    destruct (list_ascii_of_string rest); [done|].
    destruct Hc as [->|[d ->]]; [done|].
    pose proof (pretty_N_char_code d) as Hd.
    destruct (N.eqb_spec (N_of_ascii (pretty_N_char d)) 45); [lia|].
    destruct (N.leb_spec 48 (N_of_ascii (pretty_N_char d))); [|lia].
    destruct (N.leb_spec (N_of_ascii (pretty_N_char d)) 57); [done|lia].
  - by repeat case_decide.
Qed.

Lemma proto_in_names : str "__proto__" ∈ proto_names.
Proof. apply (bool_decide_unpack _). by vm_compute. Qed.

Lemma assign_insert {V} (dict : gmap phrase V) k v :
  k ≠ str "__proto__" → assign dict k v = <[k := v]> dict.
Proof. intros Hk. unfold assign. by case_decide. Qed.

(** ** The compressor's dictionary *)

Lemma c_init_inv : c_inv c_init.
Proof.
  unfold c_init. split; cbn [c_dict c_dictLen _buildDictionary].
  - unfold DICT_SIZE. lia.
  - change (list_to_map _) with (_buildDictionary Lit).1.
    by rewrite size_buildDictionary.
  - intros c. change (list_to_map _) with (_buildDictionary Lit).1.
    by rewrite lookup_buildDictionary.
  - intros p v. change (list_to_map _) with (_buildDictionary Lit).1.
    rewrite lookup_buildDictionary. destruct p as [|c [|c' p]]; try done.
    intros [= <-]. left. by exists c.
Qed.

Lemma c_inv_truthy st p v : c_inv st → c_dict st !! p = Some v → truthy v = true.
Proof.
  intros Hinv Hp. destruct (c_inv_val st Hinv p v Hp) as [(c & _ & ->)|(n & -> & Hn)].
  - done.
  - simpl. destruct (Z.eqb_spec n 0); [lia|done].
Qed.

(** The [else] branch is entered with a key that is neither an own nor
    an inherited property: the assignment adds a new entry. *)
Lemma c_emit_fresh st ch :
  c_inv st → truthy (get (c_dict st) (c_s st ++ [ch])) = false →
  c_dict st !! (c_s st ++ [ch]) = None ∧ c_s st ++ [ch] ∉ proto_names.
Proof.
  intros Hinv. unfold get.
  destruct (c_dict st !! (c_s st ++ [ch])) as [v|] eqn:Hk.
  - by rewrite (c_inv_truthy st _ v Hinv Hk).
  - by case_decide.
Qed.

Lemma c_emit_dict st ch :
  c_inv st → truthy (get (c_dict st) (c_s st ++ [ch])) = false →
  c_dict (c_emit st ch) = <[c_s st ++ [ch] := Num (c_dictLen st)]> (c_dict st).
Proof.
  intros Hinv Hk. destruct (c_emit_fresh st ch Hinv Hk) as [_ Hp].
  cbn [c_emit c_dict]. apply assign_insert. intros Heq.
  rewrite Heq in Hp. apply Hp, proto_in_names.
Qed.

Lemma c_emit_size st ch :
  c_inv st → truthy (get (c_dict st) (c_s st ++ [ch])) = false →
  Z.of_nat (size (c_dict (c_emit st ch))) = c_dictLen (c_emit st ch) ∧
  256 < c_dictLen (c_emit st ch) ≤ DICT_SIZE.
Proof.
  intros Hinv Hk. rewrite c_emit_dict by done.
  destruct (c_emit_fresh st ch Hinv Hk) as [Hnone _].
  rewrite map_size_insert_None by done.
  pose proof (c_inv_size st Hinv). pose proof (c_inv_len st Hinv).
  cbn [c_emit c_dictLen]. unfold DICT_SIZE in *. lia.
Qed.

Lemma c_reset_full st :
  DICT_SIZE ≤ c_dictLen st →
  c_reset st = CState (c_output st) (_buildDictionary Lit).1 256 (c_s st).
Proof.
  intros Hlen. unfold c_reset. by destruct (Z.leb_spec DICT_SIZE (c_dictLen st)); [|lia].
Qed.

Lemma c_reset_not_full st : c_dictLen st < DICT_SIZE → c_reset st = st.
Proof.
  intros Hlen. unfold c_reset. by destruct (Z.leb_spec DICT_SIZE (c_dictLen st)); [lia|].
Qed.

Lemma c_fresh_inv output s : c_inv (CState output (_buildDictionary Lit).1 256 s).
Proof.
  destruct c_init_inv as [H1 H2 H3 H4]. by split.
Qed.

Lemma c_step_inv st ch : c_inv st → c_inv (c_step st ch).
Proof.
  intros Hinv. unfold c_step.
  destruct (truthy (get (c_dict st) (c_s st ++ [ch]))) eqn:Hk.
  { destruct Hinv. by split. }
  destruct (c_emit_size st ch Hinv Hk) as [Hsize Hlen].
  destruct (decide (DICT_SIZE ≤ c_dictLen (c_emit st ch))) as [Hfull|Hnot].
  { rewrite c_reset_full by done. apply c_fresh_inv. }
  rewrite c_reset_not_full by lia.
  destruct (c_emit_fresh st ch Hinv Hk) as [Hnone _].
  split.
  - lia.
  - done.
  - intros c. rewrite c_emit_dict by done.
    rewrite lookup_insert_ne; [apply Hinv|].
    intros Heq. rewrite Heq, (c_inv_lit st Hinv) in Hnone. done.
  - intros p v. rewrite c_emit_dict by done. cbn [c_emit c_dictLen].
    destruct (decide (c_s st ++ [ch] = p)) as [<-|Hne].
    + rewrite lookup_insert_eq. intros [= <-]. right. eexists. split; [done|].
      pose proof (c_inv_len st Hinv). lia.
    + rewrite lookup_insert_ne by done. intros Hp.
      destruct (c_inv_val st Hinv p v Hp) as [?|(n & -> & Hn)]; [by left|].
      right. exists n. split; [done|lia].
Qed.

Lemma c_run_snoc st input ch : c_run st (input ++ [ch]) = c_step (c_run st input) ch.
Proof. unfold c_run. by rewrite fold_left_app. Qed.

Lemma c_run_inv st input : c_inv st → c_inv (c_run st input).
Proof.
  intros Hinv. induction input as [|ch input IH] using rev_ind; [done|].
  rewrite c_run_snoc. by apply c_step_inv.
Qed.

(** ** The decompressor's dictionary *)

Lemma d_fresh_inv output prevcode :
  d_inv (DState output (_buildDictionary (λ ch, [ch])).1 256 prevcode).
Proof.
  split; cbn [d_dict d_dictLen].
  - unfold DICT_SIZE. lia.
  - by rewrite size_buildDictionary.
  - intros c. by rewrite lookup_buildDictionary.
  - intros k. rewrite lookup_buildDictionary.
    destruct k as [|c [|c' k]]; intros [v Hv]; try done. left. by exists c.
  - intros k. rewrite lookup_buildDictionary. by destruct k as [|c [|c' k]].
Qed.

Lemma d_init_inv encodingArray : d_inv (d_init encodingArray).
Proof. apply d_fresh_inv. Qed.

Lemma index0_nonempty v p : index0 v = Returns p → p ≠ [].
Proof.
  destruct v as [[|c|n|name]|[|c s]]; simpl; intros [= <-]; done.
Qed.

Lemma d_data_nonempty st currcode data :
  d_data st currcode = Returns data → data ≠ [].
Proof.
  unfold d_data.
  destruct (d_dict st !! ToString currcode) as [[|c d]|]; [| by intros [= <-] |];
    (destruct (loose_eq currcode (d_dictLen st)); [|done];
     destruct (index0 (d_prevcode st)) as [p0| |] eqn:Hp0; try done;
     rewrite bind_Returns; intros [= <-];
     apply index0_nonempty in Hp0; by destruct (ToString_val (d_prevcode st)), p0).
Qed.

(** The next index is not yet a key. *)
Lemma d_next_key_fresh st :
  d_inv st → d_dict st !! ToString (Num (d_dictLen st)) = None.
Proof.
  intros Hinv. pose proof (d_inv_len st Hinv) as Hlen. unfold DICT_SIZE in Hlen.
  destruct (d_dict st !! ToString (Num (d_dictLen st))) as [v|] eqn:Hk; [|done].
  destruct (d_inv_key st Hinv _ (mk_is_Some _ _ Hk)) as [[c Hc]|(n & Hn & Hlt)].
  - by apply ToString_Num_not_char in Hc.
  - apply ToString_Num_inj in Hn. lia.
Qed.

Lemma d_insert_dict st data :
  d_inv st →
  d_dict (d_insert st data)
  = <[ToString (Num (d_dictLen st)) := ToString_val (d_prevcode st) ++ take 1 data]>
      (d_dict st).
Proof.
  intros Hinv. pose proof (d_inv_len st Hinv) as Hlen. unfold DICT_SIZE in Hlen.
  cbn [d_insert d_dict]. apply assign_insert. by apply ToString_Num_not_proto.
Qed.

Lemma d_insert_size st data :
  d_inv st →
  Z.of_nat (size (d_dict (d_insert st data))) = d_dictLen (d_insert st data) ∧
  256 < d_dictLen (d_insert st data) ≤ DICT_SIZE.
Proof.
  intros Hinv. rewrite d_insert_dict by done.
  rewrite map_size_insert_None by by apply d_next_key_fresh.
  pose proof (d_inv_size st Hinv). pose proof (d_inv_len st Hinv).
  cbn [d_insert d_dictLen]. unfold DICT_SIZE in *. lia.
Qed.

Lemma d_reset_full st :
  DICT_SIZE ≤ d_dictLen st →
  d_reset st
  = DState (d_output st) (_buildDictionary (λ ch, [ch])).1 256 (d_prevcode st).
Proof.
  intros Hlen. unfold d_reset. by destruct (Z.leb_spec DICT_SIZE (d_dictLen st)); [|lia].
Qed.

Lemma d_reset_not_full st : d_dictLen st < DICT_SIZE → d_reset st = st.
Proof.
  intros Hlen. unfold d_reset. by destruct (Z.leb_spec DICT_SIZE (d_dictLen st)); [lia|].
Qed.

Lemma d_insert_inv st data :
  d_inv st → data ≠ [] → d_inv (d_reset (d_insert st data)).
Proof.
  intros Hinv Hdata.
  destruct (d_insert_size st data Hinv) as [Hsize Hlen].
  destruct (decide (DICT_SIZE ≤ d_dictLen (d_insert st data))) as [Hfull|Hnot].
  { rewrite d_reset_full by done. apply d_fresh_inv. }
  rewrite d_reset_not_full by lia.
  pose proof (d_next_key_fresh st Hinv) as Hnone.
  pose proof (d_inv_len st Hinv) as Hl.
  split.
  - lia.
  - done.
  - intros c. rewrite d_insert_dict by done.
    rewrite lookup_insert_ne; [apply Hinv|].
    intros Heq. rewrite Heq, (d_inv_lit st Hinv) in Hnone. done.
  - intros k. rewrite d_insert_dict by done. cbn [d_insert d_dictLen].
    destruct (decide (ToString (Num (d_dictLen st)) = k)) as [<-|Hne].
    + intros _. right. eexists. split; [done|]. lia.
    + rewrite lookup_insert_ne by done. intros Hk.
      destruct (d_inv_key st Hinv k Hk) as [?|(n & -> & Hn)]; [by left|].
      right. exists n. split; [done|lia].
  - intros k. rewrite d_insert_dict by done.
    destruct (decide (ToString (Num (d_dictLen st)) = k)) as [<-|Hne].
    + rewrite lookup_insert_eq. intros [= Heq].
      apply app_eq_nil in Heq as [_ Heq]. by destruct data.
    + rewrite lookup_insert_ne by done. apply Hinv.
Qed.

Lemma d_step_Returns st currcode st' :
  d_step st currcode = Returns st' ↔
  ∃ data, d_data st currcode = Returns data ∧ st' = d_reset (d_insert st data).
Proof.
  unfold d_step. destruct (d_data st currcode) as [data| |]; simpl.
  - split; [intros [= <-]; by exists data|by intros (? & [= <-] & ->)].
  - split; [done|by intros (? & ? & _)].
  - split; [done|by intros (? & ? & _)].
Qed.

Lemma d_step_inv st currcode st' :
  d_inv st → d_step st currcode = Returns st' → d_inv st'.
Proof.
  intros Hinv (data & Hdata & ->)%d_step_Returns.
  apply d_insert_inv; [done|]. by eapply d_data_nonempty.
Qed.

Lemma d_run_app st l1 l2 :
  d_run st (l1 ++ l2) = st' ← d_run st l1; d_run st' l2.
Proof.
  revert st. induction l1 as [|c l1 IH]; intros st; [done|].
  cbn [d_run app]. destruct (d_step st c) as [st'| |]; [|done..].
  rewrite !bind_Returns. apply IH.
Qed.

Lemma d_run_inv st codes st' :
  d_inv st → d_run st codes = Returns st' → d_inv st'.
Proof.
  revert st. induction codes as [|c codes IH]; intros st Hinv; simpl.
  - by intros [= <-].
  - destruct (d_step st c) as [st1| |] eqn:Hstep; [|done..].
    rewrite bind_Returns. apply IH. by eapply d_step_inv.
Qed.

(** ** Where the decompressor throws *)

Lemma ToNumber_char_bound c m : ToNumber_char c = Some m → 0 ≤ m ≤ 9.
Proof.
  unfold ToNumber_char. repeat case_match; intros [= <-]; lia.
Qed.

Lemma loose_eq_spec v n : 256 ≤ n → loose_eq v n = true ↔ v = Num n.
Proof.
  intros Hn. destruct v as [|c|m|name]; simpl; try done.
  - destruct (ToNumber_char c) as [m|] eqn:Hc; [|done].
    apply ToNumber_char_bound in Hc. destruct (Z.eqb_spec m n); [lia|done].
  - destruct (Z.eqb_spec m n); naive_solver.
Qed.

Lemma d_step_Throws st currcode e :
  d_step st currcode = Throws e ↔ d_data st currcode = Throws e.
Proof. unfold d_step. destruct (d_data st currcode); simpl; naive_solver. Qed.

Lemma d_data_BadlyCompressed st currcode :
  d_inv st →
  d_data st currcode = Throws BadlyCompressed ↔
  d_dict st !! ToString currcode = None ∧ currcode ≠ Num (d_dictLen st).
Proof.
  intros Hinv. pose proof (d_inv_len st Hinv) as [Hlen _].
  pose proof (loose_eq_spec currcode (d_dictLen st) Hlen) as Heq.
  unfold d_data.
  destruct (d_dict st !! ToString currcode) as [[|c d]|] eqn:Hk.
  - by destruct (d_inv_val st Hinv (ToString currcode)).
  - split; [done|by intros [? _]].
  - destruct (loose_eq currcode (d_dictLen st)).
    + split; [|intros [_ Hne]; exfalso; apply Hne; by apply Heq].
      destruct (index0 (d_prevcode st)) as [p0|e|] eqn:Hp0; try done.
      destruct (d_prevcode st) as [[|?|?|?]|[|??]]; simpl in Hp0; by simplify_eq.
    + split; [|done]. intros _. split; [done|]. by intros Hc%Heq.
Qed.

Lemma d_run_Throws st codes e :
  d_run st codes = Throws e ↔
  ∃ pre currcode post st',
    codes = pre ++ currcode :: post ∧
    d_run st pre = Returns st' ∧ d_step st' currcode = Throws e.
Proof.
  revert st. induction codes as [|c codes IH]; intros st.
  - split; [done|]. intros (pre & ? & ? & ? & Heq & _). by destruct pre.
  - cbn [d_run]. destruct (d_step st c) as [st1|e1|] eqn:Hstep.
    + rewrite bind_Returns, IH. split.
      * intros (pre & c' & post & st' & -> & Hrun & Hbad).
        exists (c :: pre), c', post, st'. split; [done|]. split; [|done].
        cbn [d_run]. by rewrite Hstep.
      * intros (pre & c' & post & st' & Heq & Hrun & Hbad).
        destruct pre as [|c0 pre]; simplify_eq/=; [congruence|].
        rewrite Hstep, bind_Returns in Hrun. by exists pre, c', post, st'.
    + split.
      * intros [= ->]. by exists [], c, codes, st.
      * intros (pre & c' & post & st' & Heq & Hrun & Hbad).
        destruct pre as [|c0 pre]; simplify_eq/=; [congruence|].
        by rewrite Hstep in Hrun.
    + split; [done|].
      intros (pre & c' & post & st' & Heq & Hrun & Hbad).
      destruct pre as [|c0 pre]; simplify_eq/=; [congruence|].
      by rewrite Hstep in Hrun.
Qed.

(** C4. [lzwDecompress] throws "badly compressed" exactly when some symbol
    after the first, at the moment the loop reads it, is not a key of the
    dictionary and is not the next index [dictLen]; the call then returns no
    output at all. *)
Theorem lzwDecompress_badly_compressed_iff (encodingArray : list symbol) :
  (lzwDecompress encodingArray = Throws BadlyCompressed ↔
   ∃ pre currcode post st,
     tail encodingArray = pre ++ currcode :: post ∧
     d_run (d_init encodingArray) pre = Returns st ∧
     d_dict st !! ToString currcode = None ∧
     currcode ≠ Num (d_dictLen st)) ∧
  (lzwDecompress encodingArray = Throws BadlyCompressed →
   ∀ output, lzwDecompress encodingArray ≠ Returns output).
Proof.
  split; [|by intros ->].
  unfold lzwDecompress.
  transitivity (d_run (d_init encodingArray) (tail encodingArray)
                = Throws BadlyCompressed).
  { destruct (d_run (d_init encodingArray) (tail encodingArray));
      simpl; naive_solver. }
  rewrite d_run_Throws. do 4 (apply exist_proper; intros ?).
  split.
  - intros (Heq & Hrun & Hbad).
    pose proof (d_run_inv _ _ _ (d_init_inv encodingArray) Hrun) as Hinv.
    apply d_step_Throws, d_data_BadlyCompressed in Hbad; [|done].
    by destruct Hbad.
  - intros (Heq & Hrun & Hk & Hne).
    pose proof (d_run_inv _ _ _ (d_init_inv encodingArray) Hrun) as Hinv.
    split_and!; try done.
    by apply d_step_Throws, d_data_BadlyCompressed.
Qed.

(** C5. In every state that [lzwCompress] and [lzwDecompress] reach, between
    two iterations and right after an insertion, the dictionary has exactly
    [dictLen] entries and [dictLen] is at most [DICT_SIZE]; between two
    iterations it is below [DICT_SIZE], because an insertion that makes
    [dictLen] reach [DICT_SIZE] is followed at once by the reset to the 256
    one-byte entries with [dictLen = 256]. *)
Theorem dictionary_size_bounded :
  (∀ input,
     let st := c_run c_init input in
     Z.of_nat (size (c_dict st)) = c_dictLen st ∧ c_dictLen st < DICT_SIZE) ∧
  (∀ input ch,
     let st := c_run c_init input in
     truthy (get (c_dict st) (c_s st ++ [ch])) = false →
     Z.of_nat (size (c_dict (c_emit st ch))) = c_dictLen (c_emit st ch) ∧
     c_dictLen (c_emit st ch) ≤ DICT_SIZE ∧
     (c_dictLen (c_emit st ch) = DICT_SIZE →
      (c_dict (c_step st ch), c_dictLen (c_step st ch)) = _buildDictionary Lit)) ∧
  (∀ encodingArray pre post st,
     tail encodingArray = pre ++ post →
     d_run (d_init encodingArray) pre = Returns st →
     Z.of_nat (size (d_dict st)) = d_dictLen st ∧ d_dictLen st < DICT_SIZE) ∧
  (∀ encodingArray pre currcode post st data,
     tail encodingArray = pre ++ currcode :: post →
     d_run (d_init encodingArray) pre = Returns st →
     d_data st currcode = Returns data →
     Z.of_nat (size (d_dict (d_insert st data))) = d_dictLen (d_insert st data) ∧
     d_dictLen (d_insert st data) ≤ DICT_SIZE ∧
     (d_dictLen (d_insert st data) = DICT_SIZE →
      ∃ st', d_step st currcode = Returns st' ∧
        (d_dict st', d_dictLen st') = _buildDictionary (λ ch, [ch]))).
Proof.
  split_and!.
  - intros input st.
    pose proof (c_run_inv c_init input c_init_inv) as Hinv.
    split; [apply Hinv|]. apply (c_inv_len _ Hinv).
  - intros input ch st Hk.
    pose proof (c_run_inv c_init input c_init_inv) as Hinv.
    destruct (c_emit_size st ch Hinv Hk) as [Hsize Hlen].
    split_and!; [done|lia|]. intros Hfull.
    unfold c_step. rewrite Hk, c_reset_full by lia. done.
  - intros encodingArray pre post st _ Hrun.
    pose proof (d_run_inv _ _ _ (d_init_inv encodingArray) Hrun) as Hinv.
    split; [apply Hinv|]. apply (d_inv_len _ Hinv).
  - intros encodingArray pre currcode post st data _ Hrun Hdata.
    pose proof (d_run_inv _ _ _ (d_init_inv encodingArray) Hrun) as Hinv.
    destruct (d_insert_size st data Hinv) as [Hsize Hlen].
    split_and!; [done|lia|]. intros Hfull.
    exists (d_reset (d_insert st data)). split.
    + unfold d_step. by rewrite Hdata.
    + rewrite d_reset_full by lia. done.
Qed.

(** ** The loops that do not end *)

Lemma sar1_range ch : - 2 ^ 30 ≤ sar1 ch < 2 ^ 30.
Proof.
  unfold sar1, ToInt32. rewrite Z.shiftr_div_pow2 by lia.
  pose proof (Z.mod_pos_bound (ch + 2 ^ 31) (2 ^ 32) ltac:(lia)).
  split; [apply Z.div_le_lower_bound; lia|apply Z.div_lt_upper_bound; lia].
Qed.

Lemma bin_loop_negative fuel : ∀ ch binArr,
  - 2 ^ 31 ≤ ch < 0 → bin_loop fuel ch binArr = Loops.
Proof.
  induction fuel as [|fuel IH]; intros ch binArr Hch; [done|].
  rewrite bin_loop_S. destruct (Z.eqb_spec ch 0); [lia|].
  apply IH. unfold sar1. rewrite ToInt32_small, Z.shiftr_div_pow2 by lia.
  split; [apply Z.div_le_lower_bound; lia|apply Z.div_lt_upper_bound; lia].
Qed.

(** Running out of fuel is the loop that never ends: more fuel does not
    help. *)
Lemma bin_loop_Loops ch binArr :
  bin_loop bin_fuel ch binArr = Loops → ∀ fuel, bin_loop fuel ch binArr = Loops.
Proof.
  rewrite bin_fuel_eq, bin_loop_S. intros Hloop [|fuel]; [done|].
  rewrite bin_loop_S. destruct (Z.eqb_spec ch 0); [done|].
  pose proof (sar1_range ch) as Hr.
  destruct (decide (sar1 ch < 0)) as [Hneg|Hpos].
  - apply bin_loop_negative. lia.
  - destruct (bin_loop_to_bits 31 (sar1 ch) 39 (binArr ++ [Z.rem ch 2]))
      as (r & Hrun & _); [simpl; lia|lia|lia|].
    by rewrite Hrun in Hloop.
Qed.

(** ** Claims about packing *)

(** C7. [convertEncodingArrayUnitLength([0b101, 0b011], 3, 8, true)] is the
    empty array; and eight three-bit codes converted from width 3 to width 8
    (with either value of the flag) give exactly 3 bytes, from which the
    call with widths 8 and 3 and the flag off gives the eight codes back. *)
Theorem regroup_three_bit_codes (l : list Z) (discard : bool) :
  length l = 8%nat → Forall (λ v, 0 ≤ v < 8) l →
  convertEncodingArrayUnitLength [Num 5; Num 3] 3 8 true = Returns [] ∧
  ∃ bytes,
    convertEncodingArrayUnitLength (map Num l) 3 8 discard = Returns bytes ∧
    length bytes = 3%nat ∧
    convertEncodingArrayUnitLength (map Num bytes) 8 3 false = Returns l.
Proof.
  intros Hlen Hl. split; [by vm_compute|].
  assert (Hfit : Forall (fits (Z.of_nat 3)) (map Num l)).
  { rewrite Forall_map. eapply Forall_impl; [exact Hl|]. intros v Hv. exact Hv. }
  destruct (convert_exact 3 8 (map Num l) discard) as [Hfwd Hn];
    [lia|lia|done|by rewrite length_map, Hlen|].
  rewrite length_map, Hlen in Hn.
  eexists. split; [exact Hfwd|]. split; [by rewrite length_map, Hn|].
  pose proof (convert_back 3 8 (map (λ k, to_bits 3 (code_value k)) (map Num l)) false)
    as Hback.
  assert (Hpad : padding 8 (length (concat
            (map (λ k, to_bits 3 (code_value k)) (map Num l)))) = 0%nat).
  { change (concat _) with (code_bits 3 (map Num l)).
    by rewrite code_bits_length, length_map, Hlen. }
  rewrite Hpad in Hback. cbn [replicate] in Hback. rewrite app_nil_r in Hback.
  change (Z.of_nat 8) with 8 in Hback. change (Z.of_nat 3) with 3 in Hback.
  unfold code_bits. rewrite Hback.
  - f_equal. rewrite !map_map. rewrite <- (map_id l) at 2.
    apply map_ext_in. intros v Hv%list_elem_of_In.
    rewrite Forall_forall in Hl. apply of_bits_to_bits. simpl. apply Hl, Hv.
  - lia.
  - lia.
  - rewrite Forall_map. apply Forall_true. intros k. cbv beta.
    split; [apply to_bits_length|apply to_bits_is_bit].
  - by right.
Qed.

Lemma regroup_three_bit_codes_witness :
  convertEncodingArrayUnitLength [Num 5; Num 3] 3 8 true = Returns [] ∧
  ∃ bytes,
    convertEncodingArrayUnitLength (map Num [0; 1; 2; 3; 4; 5; 6; 7]) 3 8 true
      = Returns bytes ∧
    length bytes = 3%nat ∧
    convertEncodingArrayUnitLength (map Num bytes) 8 3 false
      = Returns [0; 1; 2; 3; 4; 5; 6; 7].
Proof.
  apply (regroup_three_bit_codes [0; 1; 2; 3; 4; 5; 6; 7] true); [reflexivity|].
  repeat constructor; lia.
Defined.

Lemma filter_ext_Forall {A} (P Q : A → Prop)
    `{∀ x, Decision (P x)} `{∀ x, Decision (Q x)} (l : list A) :
  Forall (λ x, P x ↔ Q x) l → filter P l = filter Q l.
Proof.
  induction 1 as [|x l Hx _ IH]; [done|].
  rewrite !filter_cons, IH.
  destruct (decide (P x)), (decide (Q x)); try done; exfalso; tauto.
Qed.

(** C2, as the code has it. [getByteArrayFromEncodingArray] calls
    [convertEncodingArrayUnitLength] with widths 9 and 8 and the discard flag
    off: every group of the bit string gives a byte, also a final group of
    fewer than 8 bits, whose missing low bits are zero. The number of bytes
    is the bit count filled up to a multiple of 8, divided by 8. *)
Theorem pack_keeps_final_group (encodingArray : list symbol) :
  Forall (fits 9) encodingArray →
  getByteArrayFromEncodingArray encodingArray
    = convertEncodingArrayUnitLength encodingArray BITS_PER_ENCODING 8 false ∧
  getByteArrayFromEncodingArray encodingArray
    = Returns (map (λ c, of_bits (pad_right 8 c))
                 (chunks 8 (code_bits 9 encodingArray))) ∧
  (length (chunks 8 (code_bits 9 encodingArray)) * 8
   = 9 * length encodingArray + padding 8 (9 * length encodingArray))%nat.
Proof.
  intros Hfit. split; [done|]. split.
  - unfold getByteArrayFromEncodingArray. rewrite BITS_PER_ENCODING_eq.
    pose proof (convert_fits 9 8 encodingArray false) as Hc.
    rewrite filter_complete_false in Hc. apply Hc; [lia|lia|done].
  - rewrite <- (length_map (pad_right 8)), <- chunks_pad by lia.
    destruct (padding_spec 8 ltac:(lia) (length (code_bits 9 encodingArray)))
      as [_ Hmod].
    destruct (chunks_full 8 ltac:(lia) (code_bits 9 encodingArray
        ++ replicate (padding 8 (length (code_bits 9 encodingArray))) "0"%char))
      as [_ ->]; [by rewrite length_app, length_replicate|].
    rewrite length_app, length_replicate, code_bits_length in *.
    set (n := (9 * length encodingArray + padding 8 (9 * length encodingArray))%nat) in *.
    pose proof (Nat.div_mod_eq n 8). lia.
Qed.

Lemma pack_keeps_final_group_witness :
  getByteArrayFromEncodingArray [Lit "a"; Num 256]
    = convertEncodingArrayUnitLength [Lit "a"; Num 256] BITS_PER_ENCODING 8 false ∧
  getByteArrayFromEncodingArray [Lit "a"; Num 256]
    = Returns (map (λ c, of_bits (pad_right 8 c))
                 (chunks 8 (code_bits 9 [Lit "a"; Num 256]))) ∧
  (length (chunks 8 (code_bits 9 [Lit "a"; Num 256])) * 8
   = 9 * length [Lit "a"; Num 256] + padding 8 (9 * length [Lit "a"; Num 256]))%nat.
Proof.
  apply (pack_keeps_final_group [Lit "a"; Num 256]).
  repeat constructor; simpl; lia.
Defined.

(** The claim C2 fails on the one code ["a"]: its 9 bits give two bytes, the
    second one holding the last bit; with the discard flag the call would
    give one. *)
Lemma pack_final_group_not_dropped :
  getByteArrayFromEncodingArray [Lit "a"] = Returns [48; 128] ∧
  convertEncodingArrayUnitLength [Lit "a"] BITS_PER_ENCODING 8 true = Returns [48].
Proof. by vm_compute. Qed.

(** C3, as the code has it. [getEncodingArrayFromByteArray] calls
    [convertEncodingArrayUnitLength] with widths 8 and 9 and the discard flag
    on: only the complete 9 bit groups of the byte string give a value, a
    final group of fewer than 9 bits is dropped. Every value up to 255 then
    becomes the one-character string of that char code and every value above
    255 stays a number. *)
Theorem unpack_drops_final_group (byteArray : list Z) :
  Forall (λ b, 0 ≤ b < 256) byteArray →
  let groups :=
    filter (λ c, length c = 9%nat) (chunks 9 (code_bits 8 (map Num byteArray))) in
  convertEncodingArrayUnitLength (map Num byteArray) 8 BITS_PER_ENCODING true
    = Returns (map of_bits groups) ∧
  getEncodingArrayFromByteArray byteArray
    = Returns (map (λ c, code_of_number (of_bits c)) groups) ∧
  Forall (λ c,
    0 ≤ of_bits c < 512 ∧
    (of_bits c ≤ 255 →
       code_of_number (of_bits c) = Lit (ascii_of_N (Z.to_N (of_bits c))) ∧
       code_value (code_of_number (of_bits c)) = of_bits c) ∧
    (255 < of_bits c → code_of_number (of_bits c) = Num (of_bits c))) groups.
Proof.
  intros Hbytes groups.
  assert (Hfit : Forall (fits (Z.of_nat 8)) (map Num byteArray)).
  { rewrite Forall_map. eapply Forall_impl; [exact Hbytes|]. intros b Hb. exact Hb. }
  pose proof (chunks_length_le 9 ltac:(lia) (code_bits 8 (map Num byteArray)))
    as Hle.
  assert (Hconv :
    convertEncodingArrayUnitLength (map Num byteArray) 8 BITS_PER_ENCODING true
    = Returns (map of_bits groups)).
  { rewrite BITS_PER_ENCODING_eq.
    pose proof (convert_fits 8 9 (map Num byteArray) true) as Hc.
    change (Z.of_nat 8) with 8 in Hc. change (Z.of_nat 9) with 9 in Hc.
    rewrite Hc by (done || lia). f_equal. unfold groups.
    rewrite (filter_ext_Forall (complete true 9) (λ c, length c = 9%nat)).
    - apply map_ext_in. intros c Hc'%list_elem_of_In.
      apply list_elem_of_filter in Hc' as [Hc' _]. by rewrite pad_right_full.
    - eapply Forall_impl; [exact Hle|]. intros c Hc'. unfold complete.
      simpl in Hc'. split; [intros [?|?]; [done|lia]|intros ->; by right]. }
  split; [done|]. split.
  - unfold getEncodingArrayFromByteArray. rewrite Hconv, bind_Returns.
    by rewrite map_map.
  - apply Forall_forall. intros c [Hc _]%list_elem_of_filter.
    pose proof (of_bits_bounds c) as Hb. rewrite Hc in Hb. simpl in Hb.
    split; [lia|]. unfold code_of_number.
    destruct (Z.ltb_spec 255 (of_bits c)); split; try lia; try done.
    intros _. split; [done|]. simpl.
    rewrite N_ascii_embedding; lia.
Qed.

Lemma unpack_drops_final_group_witness :
  convertEncodingArrayUnitLength (map Num [48; 128]) 8 BITS_PER_ENCODING true
    = Returns (map of_bits
        (filter (λ c, length c = 9%nat) (chunks 9 (code_bits 8 (map Num [48; 128]))))) ∧
  getEncodingArrayFromByteArray [48; 128]
    = Returns (map (λ c, code_of_number (of_bits c))
        (filter (λ c, length c = 9%nat) (chunks 9 (code_bits 8 (map Num [48; 128]))))) ∧
  Forall (λ c,
    0 ≤ of_bits c < 512 ∧
    (of_bits c ≤ 255 →
       code_of_number (of_bits c) = Lit (ascii_of_N (Z.to_N (of_bits c))) ∧
       code_value (code_of_number (of_bits c)) = of_bits c) ∧
    (255 < of_bits c → code_of_number (of_bits c) = Num (of_bits c)))
    (filter (λ c, length c = 9%nat) (chunks 9 (code_bits 8 (map Num [48; 128])))).
Proof.
  apply (unpack_drops_final_group [48; 128]).
  repeat constructor; lia.
Defined.

(** The claim C3 fails on the one byte [0]: its 8 bits are a short group,
    which the call drops; with the flag off the group would give the code of
    the byte 0. *)
Lemma unpack_final_group_dropped :
  getEncodingArrayFromByteArray [0] = Returns [] ∧
  (codes ← convertEncodingArrayUnitLength [Num 0] 8 BITS_PER_ENCODING false;
   Returns (map code_of_number codes)) = Returns [Lit "000"%char].
Proof. by vm_compute. Qed.

Lemma of_bits_zeros k s : of_bits (replicate k "0"%char ++ s) = of_bits s.
Proof. induction k as [|k IH]; [done|]. by rewrite <- IH. Qed.

(** The binary digits of a number below [2^31] are as many as it needs:
    a number from [2^w] up has more than [w] of them. *)
Lemma binArr_text_length n :
  0 ≤ n < 2 ^ 31 →
  ∃ len text,
    binArr_text (Num n) = Returns (len, text) ∧ n < 2 ^ Z.of_nat len.
Proof.
  intros Hn.
  destruct (bin_loop_to_bits 31 n bin_fuel []) as (binArr & Hrun & Hlen & Hbits);
    [done|lia|pose proof bin_fuel_enough; lia|].
  simpl in Hrun.
  exists (length binArr), (concat (map (λ b, str (pretty b)) (rev binArr))).
  split; [unfold binArr_text; by rewrite Hrun|].
  pose proof (Hbits (length binArr) ltac:(lia)) as Hown.
  rewrite Nat.sub_diag in Hown. simpl in Hown.
  pose proof (Hbits 31%nat Hlen) as Hwide. rewrite Hown in Hwide.
  apply (f_equal of_bits) in Hwide.
  rewrite of_bits_zeros, (of_bits_to_bits 31) in Hwide by done.
  pose proof (of_bits_bounds (to_bits (length binArr) n)) as Hb.
  rewrite to_bits_length, Hwide in Hb. lia.
Qed.

(** After elements that fit, a number from [2^originalUnitLength] up (and
    below [2^31]) makes the call throw: ['0'.repeat] gets a negative count. *)
Lemma convert_throws_when_too_wide (w : nat) pre n post
    (targetUnitLength : Z) (discard : bool) :
  Forall (λ k, fits (Z.of_nat w) k ∧ code_value k < 2 ^ 31) pre →
  2 ^ Z.of_nat w ≤ n < 2 ^ 31 →
  convertEncodingArrayUnitLength (pre ++ Num n :: post) (Z.of_nat w)
    targetUnitLength discard = Throws RangeError.
Proof.
  intros Hpre Hn.
  assert (Hunit : unit_text (Z.of_nat w) (Num n) = Throws RangeError).
  { destruct (binArr_text_length n) as (len & text & Hk & Hlen); [lia|].
    unfold unit_text. rewrite Hk, bind_Returns. unfold repeat0.
    destruct (Z.ltb_spec (Z.of_nat w - Z.of_nat len) 0) as [|Hge]; [done|].
    assert (2 ^ Z.of_nat len ≤ 2 ^ Z.of_nat w) by (apply Z.pow_le_mono_r; lia).
    lia. }
  assert (Harr : binaryFormArr (Z.of_nat w) (pre ++ Num n :: post)
                 = Throws RangeError).
  { induction Hpre as [|k pre [Hk H31] _ IH]; cbn [binaryFormArr app].
    - by rewrite Hunit.
    - by rewrite unit_text_fits, bind_Returns, IH by done. }
  unfold convertEncodingArrayUnitLength. by rewrite Harr.
Qed.

Lemma convert_throws_when_too_wide_witness :
  convertEncodingArrayUnitLength ([Lit "a"] ++ Num 300 :: [Num 5]) (Z.of_nat 8) 9 true
  = Throws RangeError.
Proof.
  apply (convert_throws_when_too_wide 8 [Lit "a"] 300 [Num 5] 9 true).
  - repeat constructor; simpl; lia.
  - simpl. lia.
Defined.

(** C10, as the code has it. On numbers and one-character strings that fit
    in [originalUnitLength] bits and in the 31 bits that [>>=] handles, and
    with a positive [targetUnitLength], the count given to ['0'.repeat] is
    never negative and the call returns. A value that does not fit makes it
    throw: the index 256 at width 8 gives nine binary digits and the count
    -1. *)
Theorem convert_returns_when_fits (encodingArray : list symbol)
    (originalUnitLength targetUnitLength : Z) (discard : bool) :
  Forall (fits originalUnitLength) encodingArray →
  Forall (λ k, code_value k < 2 ^ 31) encodingArray →
  1 ≤ targetUnitLength →
  Forall (λ k, ∃ len text,
    binArr_text k = Returns (len, text) ∧ 0 ≤ originalUnitLength - Z.of_nat len)
    encodingArray ∧
  (∃ output,
    convertEncodingArrayUnitLength encodingArray originalUnitLength
      targetUnitLength discard = Returns output) ∧
  convertEncodingArrayUnitLength [Num 256] 8 targetUnitLength discard
    = Throws RangeError.
Proof.
  intros Hfit H31 Ht.
  assert (Hw : encodingArray = [] ∨ 0 ≤ originalUnitLength).
  { destruct Hfit as [|k l Hk _]; [by left|right].
    destruct (decide (0 ≤ originalUnitLength)) as [|Hneg]; [done|].
    destruct k; simpl in Hk; try done; rewrite Z.pow_neg_r in Hk by lia; lia. }
  split_and!.
  - destruct Hw as [->|Hw]; [constructor|].
    rewrite <- (Z2Nat.id originalUnitLength) in Hfit |- * by done.
    apply Forall_forall. intros k Hk.
    rewrite Forall_forall in Hfit, H31.
    destruct (binArr_text_fits _ k (Hfit k Hk) (H31 k Hk))
      as (len & text & Hrun & Hlen & _).
    exists len, text. split; [done|lia].
  - assert (Hunits : ∃ units,
      binaryFormArr originalUnitLength encodingArray = Returns units).
    { destruct Hw as [->|Hw]; [by exists []|].
      rewrite <- (Z2Nat.id originalUnitLength) in Hfit |- * by done.
      eexists. apply binaryFormArr_fits.
      rewrite Forall_forall in Hfit, H31. apply Forall_forall. auto. }
    destruct Hunits as [units Hunits].
    unfold convertEncodingArrayUnitLength. rewrite Hunits, bind_Returns.
    destruct (concat units); [by eexists|].
    destruct (Z.leb_spec targetUnitLength 0); [lia|]. by eexists.
  - done.
Qed.

Lemma convert_returns_when_fits_witness :
  Forall (λ k, ∃ len text,
    binArr_text k = Returns (len, text) ∧ 0 ≤ 9 - Z.of_nat len)
    [Lit "a"; Num 256] ∧
  (∃ output,
    convertEncodingArrayUnitLength [Lit "a"; Num 256] 9 8 false = Returns output) ∧
  convertEncodingArrayUnitLength [Num 256] 8 8 false = Throws RangeError.
Proof.
  apply (convert_returns_when_fits [Lit "a"; Num 256] 9 8 false).
  - repeat constructor; simpl; lia.
  - repeat constructor; simpl; lia.
  - lia.
Defined.

(** The claim C10 fails for a value that fits in 32 bits but not in 31:
    [2^31 >> 1] is negative, and a negative [ch] never becomes 0, whatever
    the fuel. It fails too for a target width of 0, where the second loop
    does not advance. *)
Lemma convert_loops_on_wide_value :
  fits 32 (Num (2 ^ 31)) ∧
  convertEncodingArrayUnitLength [Num (2 ^ 31)] 32 8 false = Loops ∧
  (∀ fuel, bin_loop fuel (2 ^ 31) [] = Loops) ∧
  fits 1 (Num 0) ∧
  convertEncodingArrayUnitLength [Num 0] 1 0 false = Loops.
Proof.
  split_and!; [by vm_compute|by vm_compute| |by vm_compute|by vm_compute].
  apply bin_loop_Loops. by vm_compute.
Qed.

(** ** Claims about two runs *)

(** C8. The thirteen characters "fffffffffffff" compress to five codes,
    fewer than 13; the dictionary has learned the runs "ff", "fff" and "ffff".
    The decompressor gets the text back from the codes. The second code, 256,
    is read when the dictionary has no entry 256 yet and [dictLen] is 256: it
    is rebuilt as the previous phrase "f" followed by its first byte. *)
Theorem fff_scenario :
  (lzwCompress (str "fffffffffffff")).1
    = [Lit "f"; Num 256; Num 257; Num 258; Num 257] ∧
  (length (lzwCompress (str "fffffffffffff")).1 < 13)%nat ∧
  (lzwCompress (str "fffffffffffff")).2 !! str "ff" = Some (Num 256) ∧
  (lzwCompress (str "fffffffffffff")).2 !! str "fff" = Some (Num 257) ∧
  (lzwCompress (str "fffffffffffff")).2 !! str "ffff" = Some (Num 258) ∧
  lzwDecompress (lzwCompress (str "fffffffffffff")).1
    = Returns (str "fffffffffffff") ∧
  d_dict (d_init (lzwCompress (str "fffffffffffff")).1) !! ToString (Num 256)
    = None ∧
  d_dictLen (d_init (lzwCompress (str "fffffffffffff")).1) = 256 ∧
  d_data (d_init (lzwCompress (str "fffffffffffff")).1) (Num 256)
    = Returns (str "ff").
Proof.
  split_and!; try (vm_compute; reflexivity).
  vm_compute. lia.
Qed.

(** C9. On the empty input [lzwCompress] returns the empty code array: the
    loop does not run, [s] is still empty and the flush pushes nothing. *)
Theorem lzwCompress_empty :
  (lzwCompress []).1 = [] ∧
  c_s (c_run c_init []) = [] ∧
  c_flush (c_run c_init []) = c_output (c_run c_init []).
Proof. done. Qed.

(** ** Lockstep of the two dictionaries *)

Lemma same_dict_init :
  same_dict (_buildDictionary Lit) (_buildDictionary (λ ch, [ch])).
Proof.
  split; [done|]. intros p v. rewrite !lookup_buildDictionary. split.
  - destruct p as [|c [|c' p]]; try done. by intros [= <-].
  - intros [Hv Hp].
    destruct (ToString v) as [|c [|c' k]] eqn:Hk; try done.
    injection Hp as <-. by apply ToString_is_code_char in Hk as ->.
Qed.

Lemma same_dict_insert dc dd n k :
  same_dict (dc, n) (dd, n) → 256 ≤ n < 512 →
  dc !! k = None → dd !! ToString (Num n) = None →
  same_dict (<[k := Num n]> dc, n + 1) (<[ToString (Num n) := k]> dd, n + 1).
Proof.
  intros [_ Hrel] Hn Hk Hkey. split; [done|]. cbn [fst snd] in *.
  intros p v. split.
  - destruct (decide (k = p)) as [<-|Hne].
    + rewrite lookup_insert_eq. intros [= <-]. split; [simpl; lia|].
      by rewrite lookup_insert_eq.
    + rewrite lookup_insert_ne by done. intros [Hv Hp]%Hrel. split; [done|].
      rewrite lookup_insert_ne; [done|]. intros Heq. by rewrite Heq, Hp in Hkey.
  - intros [Hv Hp].
    destruct (decide (ToString (Num n) = ToString v)) as [Heq|Hne].
    + rewrite <- Heq, lookup_insert_eq in Hp. injection Hp as <-.
      symmetry in Heq. apply ToString_is_code_inj in Heq as ->; [|done..].
      by rewrite lookup_insert_eq.
    + rewrite lookup_insert_ne in Hp by done.
      assert (dc !! p = Some v) as Hdc by (apply Hrel; done).
      rewrite lookup_insert_ne; [done|]. intros ->. by rewrite Hdc in Hk.
Qed.

Lemma pending_eq dst ch :
  d_inv dst →
  pending dst ch =
    if decide (DICT_SIZE ≤ d_dictLen dst + 1)
    then _buildDictionary (λ ch, [ch])
    else (<[ToString (Num (d_dictLen dst)) := ToString_val (d_prevcode dst) ++ [ch]]>
            (d_dict dst), d_dictLen dst + 1).
Proof.
  intros Hinv. unfold pending. case_decide as Hfull.
  - by rewrite d_reset_full.
  - rewrite d_reset_not_full by (cbn [d_insert d_dictLen]; lia).
    by rewrite d_insert_dict.
Qed.

(** What the decompressor holds after a code whose phrase starts with [ch]
    is what was pending. *)
Lemma d_insert_pending dst ch rest :
  (d_dict (d_reset (d_insert dst (ch :: rest))),
   d_dictLen (d_reset (d_insert dst (ch :: rest)))) = pending dst ch.
Proof.
  unfold pending, d_reset, d_insert. cbn [d_dictLen d_dict take].
  by destruct (DICT_SIZE <=? d_dictLen dst + 1).
Qed.

(** The code that the compressor emits for its phrase [s] is decoded to [s]:
    from the entry of the code, or, when the code is the entry still pending,
    from the previous phrase and its first byte. *)
Lemma decode_step st dst ch p v :
  c_inv st → d_inv dst →
  head (c_s st) = Some ch →
  c_dict st !! c_s st = Some v →
  same_dict (c_dict st, c_dictLen st) (pending dst ch) →
  p ≠ [] → ToString_val (d_prevcode dst) = p →
  index0 (d_prevcode dst) = Returns (take 1 p) →
  d_data dst v = Returns (c_s st) ∧ is_code 9 v.
Proof.
  intros Hc Hd Hhd Hv [Hlen Hrel] Hp Hprev Hidx.
  apply Hrel in Hv as [Hcode Hv]. split; [|done].
  pose proof (d_inv_len dst Hd) as Hn. unfold DICT_SIZE in Hn.
  destruct (c_s st) as [|c0 s] eqn:Hs; [done|]. injection Hhd as ->.
  rewrite pending_eq in Hv by done. unfold d_data. case_decide as Hfull.
  - rewrite lookup_buildDictionary in Hv.
    destruct (ToString v) as [|c [|c' k]] eqn:Hk; try done.
    injection Hv as <- <-. by rewrite (d_inv_lit dst Hd).
  - cbn [fst] in Hv. unfold DICT_SIZE in Hfull.
    destruct (decide (ToString (Num (d_dictLen dst)) = ToString v)) as [Heq|Hne].
    + rewrite <- Heq, lookup_insert_eq in Hv.
      symmetry in Heq. apply ToString_is_code_inj in Heq as ->; [|done|lia].
      rewrite d_next_key_fresh by done. cbn [loose_eq]. rewrite Z.eqb_refl.
      rewrite Hidx, bind_Returns, Hprev. f_equal.
      rewrite Hprev in Hv. injection Hv as Hv.
      destruct p as [|c1 p]; [done|]. simpl in Hv. injection Hv as Hc1 Hv.
      simpl. rewrite take_0. congruence.
    + rewrite lookup_insert_ne in Hv by done. by rewrite Hv.
Qed.

Lemma c_trace_snoc st0 input ch :
  c_trace st0 (input ++ [ch]) =
  c_trace st0 input ++
  (if truthy (get (c_dict (c_run st0 input)) (c_s (c_run st0 input) ++ [ch]))
   then []
   else [(c_dict (c_run st0 (input ++ [ch])), c_dictLen (c_run st0 (input ++ [ch])))]).
Proof.
  revert st0. induction input as [|c input IH]; intros st0.
  - simpl. by rewrite app_nil_r.
  - cbn [c_trace app]. rewrite IH, <- app_assoc. done.
Qed.

Lemma d_trace_snoc st0 codes c :
  d_trace st0 (codes ++ [c]) =
  d_trace st0 codes ++
  match d_run st0 (codes ++ [c]), d_run st0 codes with
  | Returns st', Returns _ => [(d_dict st', d_dictLen st')]
  | _, _ => []
  end.
Proof.
  revert st0. induction codes as [|c0 codes IH]; intros st0.
  - simpl. by destruct (d_step st0 c).
  - cbn [d_trace d_run app]. destruct (d_step st0 c0) as [st1| |]; [|done..].
    rewrite !bind_Returns, IH. done.
Qed.

Lemma proto_free_snoc input ch : proto_free (input ++ [ch]) → proto_free input.
Proof.
  intros Hfree pre name post ->. apply (Hfree pre name (post ++ [ch])).
  by rewrite <- !app_assoc.
Qed.

(** The shortest property name of [Object.prototype], [valueOf], has seven
    characters. *)
Lemma proto_free_short input : (length input < 7)%nat → proto_free input.
Proof.
  intros Hlen pre name post -> Hin%list_elem_of_In.
  assert (Hall : forallb (λ name : phrase, 7 <=? length name)%nat proto_names = true)
    by by vm_compute.
  rewrite forallb_forall in Hall. apply Hall, Nat.leb_le in Hin.
  rewrite !length_app in Hlen. lia.
Qed.

Lemma get_own st k v : c_dict st !! k = Some v → get (c_dict st) k = v.
Proof. intros Hk. unfold get. by rewrite Hk. Qed.

Lemma get_truthy_own st k :
  c_inv st → k ∉ proto_names →
  truthy (get (c_dict st) k) = true → is_Some (c_dict st !! k).
Proof.
  intros Hinv Hk. unfold get. destruct (c_dict st !! k) as [v|]; [by eexists|].
  by case_decide.
Qed.

(** The compressor's insertion and the decompressor's pending insertion add
    the same binding, and both reset at the same size. *)
Lemma same_dict_step st dst ch :
  c_inv st → d_inv dst →
  same_dict (c_dict st, c_dictLen st) (d_dict dst, d_dictLen dst) →
  truthy (get (c_dict st) (c_s st ++ [ch])) = false →
  ToString_val (d_prevcode dst) = c_s st →
  same_dict (c_dict (c_step st ch), c_dictLen (c_step st ch)) (pending dst ch).
Proof.
  intros Hc Hd Hrel Hk Hprev.
  pose proof Hrel as [Hlen _]. cbn [snd] in Hlen.
  pose proof (c_inv_len st Hc) as Hn. unfold DICT_SIZE in Hn.
  destruct (c_emit_fresh st ch Hc Hk) as [Hnone _].
  unfold c_step. rewrite Hk, pending_eq by done. case_decide as Hfull.
  - rewrite c_reset_full by (cbn [c_emit c_dictLen]; lia). apply same_dict_init.
  - rewrite c_reset_not_full by (cbn [c_emit c_dictLen]; lia).
    rewrite c_emit_dict by done. cbn [c_emit c_dictLen].
    pose proof (d_next_key_fresh dst Hd) as Hkey.
    rewrite Hprev. rewrite <- Hlen in Hrel, Hkey |- *.
    by apply same_dict_insert.
Qed.

Lemma join_snoc output v : join (output ++ [v]) = join output ++ join_val v.
Proof. unfold join. rewrite map_app, concat_app. simpl. by rewrite app_nil_r. Qed.

(** One byte more for the compressor, when the longer phrase is known. *)
Lemma sim_extend consumed st ch :
  c_inv st → sim consumed st →
  is_Some (c_dict st !! (c_s st ++ [ch])) →
  c_trace c_init (consumed ++ [ch]) = c_trace c_init consumed →
  sim (consumed ++ [ch])
      (CState (c_output st) (c_dict st) (c_dictLen st) (c_s st ++ [ch])).
Proof.
  intros Hinv Hsim Hk Htrace.
  destruct Hsim as [Hout Hdict Hlen Hcons Hs Htr|dst ch0 p Hout Hrun Hd Hcons Hhd Hown Hrel Hp Hprev Hidx Htr Hcodes].
  - apply sim_start; cbn [c_output c_dict c_dictLen c_s]; try done.
    + by rewrite Hcons.
    + rewrite Hdict, lookup_buildDictionary in Hk.
      destruct (c_s st ++ [ch]) as [|c [|c' k]] eqn:Heq;
        [by destruct Hk|simpl; lia|by destruct Hk].
    + by rewrite Htrace.
  - apply (sim_run _ _ dst ch0 p); cbn [c_output c_dict c_dictLen c_s]; try done.
    + by rewrite Hcons, app_assoc.
    + by destruct (c_s st).
    + by rewrite Htrace.
Qed.

(** One byte more for the compressor, when it emits a code. *)
Lemma sim_emit consumed st ch :
  c_inv st → sim consumed st →
  truthy (get (c_dict st) (c_s st ++ [ch])) = false →
  c_trace c_init (consumed ++ [ch])
    = c_trace c_init consumed
      ++ [(c_dict (c_step st ch), c_dictLen (c_step st ch))] →
  sim (consumed ++ [ch]) (c_step st ch).
Proof.
  intros Hinv Hsim Hk Htrace.
  pose proof (c_step_inv st ch Hinv) as Hinv'.
  destruct (c_emit_fresh st ch Hinv Hk) as [Hnone _].
  assert (Hstep : c_step st ch = c_reset (c_emit st ch)).
  { unfold c_step. by rewrite Hk. }
  assert (Hfields : c_output (c_step st ch) = c_output st ++ [get (c_dict st) (c_s st)]
                    ∧ c_s (c_step st ch) = [ch]).
  { rewrite Hstep. unfold c_reset. by destruct (DICT_SIZE <=? _). }
  destruct Hfields as [Hout' Hs'].
  destruct Hsim as [Hout Hdict Hlen Hcons Hs Htr|dst ch0 p Hout Hrun Hd Hcons Hhd Hown Hrel Hp Hprev Hidx Htr Hcodes].
  - (* the first code *)
    assert (∃ c0, c_s st = [c0]) as [c0 Hcs].
    { destruct (c_s st) as [|c0 [|c1 s]]; [|by exists c0|simpl in Hs; lia].
      simpl in Hnone. by rewrite (c_inv_lit st Hinv) in Hnone. }
    assert (Hget : get (c_dict st) (c_s st) = Lit c0).
    { apply get_own. rewrite Hcs. apply Hinv. }
    rewrite Hout, Hget in Hout'. simpl in Hout'.
    assert (Hsame : same_dict (c_dict (c_step st ch), c_dictLen (c_step st ch))
                      (pending (d_init [Lit c0]) ch)).
    { apply same_dict_step; try done.
      - apply d_init_inv.
      - rewrite Hdict, Hlen. apply same_dict_init. }
    apply (sim_run _ _ (d_init [Lit c0]) ch [c0]); rewrite ?Hout', ?Hs'; try done.
    + apply d_init_inv.
    + by rewrite Hcons, Hcs.
    + eexists. apply (c_inv_lit _ Hinv').
    + rewrite Htrace, Htr. simpl. by constructor.
    + by constructor.
  - (* a later code *)
    destruct Hown as [v Hv].
    destruct (decode_step st dst ch0 p v) as [Hdata Hcode]; try done.
    assert (∃ s, c_s st = ch0 :: s) as [s Hcs].
    { destruct (c_s st) as [|c0 s]; [done|]. injection Hhd as ->. by exists s. }
    rewrite Hcs in Hdata.
    set (dst' := d_reset (d_insert dst (ch0 :: s))).
    assert (Hd' : d_inv dst') by by apply d_insert_inv.
    assert (Hstepd : d_step dst v = Returns dst').
    { unfold d_step. by rewrite Hdata. }
    assert (Hpend : (d_dict dst', d_dictLen dst') = pending dst ch0)
      by apply d_insert_pending.
    assert (Hprev' : d_prevcode dst' = Str (ch0 :: s)).
    { unfold dst', d_reset. by destruct (DICT_SIZE <=? _). }
    assert (Houtd : d_output dst' = d_output dst ++ [Str (ch0 :: s)]).
    { unfold dst', d_reset. by destruct (DICT_SIZE <=? _). }
    rewrite (get_own st _ v) in Hout' by done.
    destruct (c_output st) as [|c out] eqn:Hco; [done|].
    rewrite ?Hco in *.
    assert (Hrun' : d_run (d_init (c :: out)) (tail ((c :: out) ++ [v]))
                    = Returns dst').
    { cbn [tail app]. rewrite d_run_app. cbn [tail] in Hrun.
      rewrite Hrun, bind_Returns. cbn [d_run]. by rewrite Hstepd. }
    assert (Hsame : same_dict (c_dict (c_step st ch), c_dictLen (c_step st ch))
                      (pending dst' ch)).
    { apply same_dict_step; try done.
      - by rewrite Hpend.
      - by rewrite Hprev', Hcs. }
    apply (sim_run _ _ dst' ch (ch0 :: s)); rewrite ?Hout', ?Hs'; try done.
    + by rewrite Houtd, join_snoc, Hcons, Hcs, <- !app_assoc.
    + eexists. apply (c_inv_lit _ Hinv').
    + by rewrite Hprev'.
    + by rewrite Hprev'.
    + rewrite Htrace. cbn [tail app] in *.
      change (d_init (c :: out ++ [v])) with (d_init (c :: out)).
      rewrite d_trace_snoc.
      rewrite d_run_app, Hrun, bind_Returns. cbn [d_run]. rewrite Hstepd.
      rewrite bind_Returns, Hpend. apply Forall2_app; [done|].
      constructor; [done|constructor].
    + apply Forall_app. split; [done|]. by constructor.
Qed.

(** The correspondence holds all along a run on an input that spells no
    property name of [Object.prototype]. *)
Lemma c_run_sim input : proto_free input → sim input (c_run c_init input).
Proof.
  induction input as [|ch input IH] using rev_ind; intros Hfree.
  { apply sim_start; try reflexivity. simpl. lia. }
  specialize (IH (proto_free_snoc _ _ Hfree)).
  pose proof (c_run_inv c_init input c_init_inv) as Hinv.
  pose proof (c_trace_snoc c_init input ch) as Htrace.
  rewrite c_run_snoc in *.
  set (st := c_run c_init input) in *.
  assert (Hk : c_s st ++ [ch] ∉ proto_names).
  { assert (∃ pre, input = pre ++ c_s st) as [pre Hpre].
    { destruct IH as [_ _ _ Hcons _ _|dst ? ? _ _ _ Hcons _ _ _ _ _ _ _ _].
      - by exists [].
      - by exists (join (d_output dst)). }
    apply (Hfree pre _ []). by rewrite Hpre, app_nil_r, <- app_assoc. }
  destruct (truthy (get (c_dict st) (c_s st ++ [ch]))) eqn:Htruthy.
  - unfold c_step. rewrite Htruthy. rewrite app_nil_r in Htrace.
    apply sim_extend; try done. by apply get_truthy_own.
  - by apply sim_emit.
Qed.

Lemma same_dict_lens l1 l2 : Forall2 same_dict l1 l2 → map snd l1 = map snd l2.
Proof.
  induction 1 as [|c d l1 l2 [Hlen _] _ IH]; [done|]. simpl. by rewrite Hlen, IH.
Qed.

(** On an input that spells no property name of [Object.prototype]:
    the codes are literal bytes and indices from 256 to 511, the decompressor
    gets the input back from them, and after every insertion the two
    dictionaries hold the same bindings and have the same size. *)
Lemma lzw_decode input :
  proto_free input →
  Forall (is_code 9) (lzwCompress input).1 ∧
  lzwDecompress (lzwCompress input).1 = Returns input ∧
  Forall2 same_dict (c_trace c_init input)
    (d_trace (d_init (lzwCompress input).1) (tail (lzwCompress input).1)).
Proof.
  intros Hfree. pose proof (c_run_sim input Hfree) as Hsim.
  pose proof (c_run_inv c_init input c_init_inv) as Hinv.
  unfold lzwCompress. cbn [fst]. set (st := c_run c_init input) in *.
  destruct Hsim as [Hout Hdict Hlen Hcons Hs Htr|dst ch0 p Hout Hrun Hd Hcons Hhd Hown Hrel Hp Hprev Hidx Htr Hcodes].
  - unfold c_flush. rewrite Hout, Htr, Hcons.
    destruct (c_s st) as [|c0 [|c1 s]] eqn:Hcs; [done| |simpl in Hs; lia].
    rewrite <- Hcs, (get_own st _ (Lit c0)) by (rewrite Hcs; apply Hinv).
    rewrite Hcs. split_and!; [by repeat constructor|done|constructor].
  - destruct Hown as [v Hv].
    destruct (decode_step st dst ch0 p v) as [Hdata Hcode]; try done.
    assert (∃ s, c_s st = ch0 :: s) as [s Hcs].
    { destruct (c_s st) as [|c0 s]; [done|]. injection Hhd as ->. by exists s. }
    unfold c_flush. rewrite Hcs, <- Hcs, (get_own st _ v) by done.
    rewrite Hcs in Hdata.
    pose proof (d_insert_pending dst ch0 s) as Hpend.
    destruct (c_output st) as [|c out] eqn:Hco; [done|].
    cbn [tail app] in *.
    assert (Hrun' : d_run (d_init (c :: out)) (out ++ [v])
                    = Returns (d_reset (d_insert dst (ch0 :: s)))).
    { rewrite d_run_app, Hrun, bind_Returns. cbn [d_run]. unfold d_step.
      by rewrite Hdata. }
    split_and!.
    + apply (Forall_app _ (c :: out) [v]). split; [done|]. by constructor.
    + unfold lzwDecompress. cbn [tail].
      change (d_init (c :: out ++ [v])) with (d_init (c :: out)).
      rewrite Hrun', bind_Returns. f_equal.
      assert (d_output (d_reset (d_insert dst (ch0 :: s)))
              = d_output dst ++ [Str (ch0 :: s)]) as ->.
      { unfold d_reset. by destruct (DICT_SIZE <=? _). }
      by rewrite join_snoc, Hcons, Hcs.
    + change (d_init (c :: out ++ [v])) with (d_init (c :: out)).
      rewrite d_trace_snoc, Hrun', Hrun, Hpend. done.
Qed.

(** The facade gets back every input that spells no property name of
    [Object.prototype], whatever its length. *)
Theorem roundtrip_proto_free (inputData : phrase) :
  proto_free inputData → roundtrip inputData = Returns inputData.
Proof.
  intros Hfree. destruct (lzw_decode inputData Hfree) as (Hcodes & Hdec & _).
  destruct (pack_unpack _ Hcodes) as (bytes & Hpack & Hunpack).
  unfold roundtrip. by rewrite Hpack, bind_Returns, Hunpack, bind_Returns.
Qed.

Lemma roundtrip_proto_free_witness :
  roundtrip (str "ababab") = Returns (str "ababab").
Proof.
  apply (roundtrip_proto_free (str "ababab")).
  apply proto_free_short. simpl. lia.
Defined.

(** On such an input the dictionary sizes that the compressor and the
    decompressor (fed the compressor's output) have after their insertions
    are the same sequence, and the dictionaries after the i-th insertion hold
    the same bindings: both reset at the same insertion. *)
Theorem lockstep_proto_free (inputData : phrase) :
  proto_free inputData →
  map snd (c_trace c_init inputData)
    = map snd (d_trace (d_init (lzwCompress inputData).1)
                 (tail (lzwCompress inputData).1)) ∧
  Forall2 same_dict (c_trace c_init inputData)
    (d_trace (d_init (lzwCompress inputData).1) (tail (lzwCompress inputData).1)).
Proof.
  intros Hfree. destruct (lzw_decode inputData Hfree) as (_ & _ & Htr).
  split; [by apply same_dict_lens|done].
Qed.

Lemma lockstep_proto_free_witness :
  map snd (c_trace c_init (str "ababab"))
    = map snd (d_trace (d_init (lzwCompress (str "ababab")).1)
                 (tail (lzwCompress (str "ababab")).1)) ∧
  Forall2 same_dict (c_trace c_init (str "ababab"))
    (d_trace (d_init (lzwCompress (str "ababab")).1)
       (tail (lzwCompress (str "ababab")).1)).
Proof.
  apply (lockstep_proto_free (str "ababab")).
  apply proto_free_short. simpl. lia.
Defined.

(** ** The input that spells [valueOf] *)

(** C1 on the 27 bytes "vavalvaluvaluevalueOvalueOf" (27 * 8 is a multiple
    of 9). The compressor has learned "va", "val", "valu", "value" and
    "valueO" when it looks up "valueOf": the dictionary has no such entry, but
    [dict["valueOf"]] is the function inherited from [Object.prototype], which
    is truthy. The phrase is extended, the function itself is pushed as the
    last code, packing writes it as nine zero bits, and the facade returns
    "vavalvaluvaluevalueO" followed by the byte 0. *)
Theorem roundtrip_valueOf :
  (length (str "vavalvaluvaluevalueOvalueOf") * 8 mod 9 = 0)%nat ∧
  (lzwCompress (str "vavalvaluvaluevalueOvalueOf")).1
    = [Lit "v"; Lit "a"; Num 256; Lit "l"; Num 258; Lit "u"; Num 260; Lit "e";
       Num 262; Lit "O"; Obj (str "valueOf")] ∧
  roundtrip (str "vavalvaluvaluevalueOvalueOf")
    = Returns (str "vavalvaluvaluevalueO" ++ ["000"%char]).
Proof. split_and!; vm_compute; reflexivity. Qed.

(** C6 on the same input. The compressor inserts ten entries, the
    decompressor, fed the compressor's output, nine: the last code is the
    inherited function, which is no key of the dictionary and not the next
    index, and the call throws. *)
Theorem lockstep_valueOf :
  map snd (c_trace c_init (str "vavalvaluvaluevalueOvalueOf"))
    = [257; 258; 259; 260; 261; 262; 263; 264; 265; 266] ∧
  map snd (d_trace (d_init (lzwCompress (str "vavalvaluvaluevalueOvalueOf")).1)
             (tail (lzwCompress (str "vavalvaluvaluevalueOvalueOf")).1))
    = [257; 258; 259; 260; 261; 262; 263; 264; 265] ∧
  lzwDecompress (lzwCompress (str "vavalvaluvaluevalueOvalueOf")).1
    = Throws BadlyCompressed.
Proof. split_and!; vm_compute; reflexivity. Qed.

(** * Further properties *)

(** ** More about the regrouping *)

Section counting.
(** How many groups a cut at a positive width [t] has. *)
Context (t : nat) (Ht : (1 ≤ t)%nat).

Lemma chunks_length s : length (chunks t s) = ((length s + (t - 1)) / t)%nat.
Proof using Ht.
  apply (chunks_ind t Ht (λ s cs, length cs = ((length s + (t - 1)) / t)%nat)).
  - simpl. by rewrite Nat.div_small by lia.
  - intros s' Hs' IH. cbn [length]. rewrite IH, length_drop.
    assert (1 ≤ length s')%nat by (destruct s'; [done|simpl; lia]).
    destruct (decide (t ≤ length s')%nat) as [Hge|Hlt].
    + rewrite (div_sub_S (length s' + (t - 1)) t) by lia.
      do 2 f_equal. lia.
    + replace (length s' - t)%nat with 0%nat by lia.
      rewrite (Nat.div_small (0 + (t - 1))) by lia.
      apply (Nat.div_unique _ _ 1 (length s' - 1)); lia.
Qed.

Lemma chunks_complete_length s :
  length (filter (complete true t) (chunks t s)) = (length s / t)%nat.
Proof using Ht.
  apply (chunks_ind t Ht
    (λ s cs, length (filter (complete true t) cs) = (length s / t)%nat)).
  - simpl. by rewrite Nat.div_small by lia.
  - intros s' Hs' IH. rewrite length_drop in IH.
    destruct (decide (t ≤ length s')%nat) as [Hge|Hlt].
    + rewrite filter_cons_True by (right; rewrite length_take; lia).
      cbn [length]. rewrite IH. symmetry. apply div_sub_S. lia.
    + rewrite filter_cons_False
        by (intros [?|Hc]; [done|rewrite length_take in Hc; lia]).
      rewrite IH. replace (length s' - t)%nat with 0%nat by lia.
      by rewrite !Nat.div_small by lia.
Qed.

End counting.

Lemma regroup_length (w t : nat) (codes : list symbol) (d : bool) :
  (1 ≤ t)%nat →
  length (filter (complete d t) (chunks t (code_bits w codes)))
  = (if d then w * length codes / t else (w * length codes + (t - 1)) / t)%nat.
Proof.
  intros Ht. destruct d.
  - rewrite chunks_complete_length by lia. by rewrite code_bits_length.
  - rewrite filter_complete_false, chunks_length by lia.
    by rewrite code_bits_length.
Qed.

(** On numbers and one-character strings that fit in [w] bits (both widths
    at most 31), [convertEncodingArrayUnitLength] returns the bits of the
    values, [w] for each and most significant first, cut again every [t]
    bits; a short last group counts as filled with zero bits, or is left out
    with the flag. That makes [w * n / t] units rounded down with the flag
    and rounded up without. *)
Theorem convert_regroups_bits (w t : nat) (codes : list symbol) (d : bool) :
  (w ≤ 31)%nat → (1 ≤ t ≤ 31)%nat → Forall (fits (Z.of_nat w)) codes →
  ∃ output,
    convertEncodingArrayUnitLength codes (Z.of_nat w) (Z.of_nat t) d
      = Returns output ∧
    output = map (λ c, of_bits (pad_right t c))
               (filter (complete d t) (chunks t (code_bits w codes))) ∧
    length output
      = (if d then w * length codes / t
         else (w * length codes + (t - 1)) / t)%nat.
Proof.
  intros Hw Ht Hfit. eexists. split_and!; [by apply convert_fits|done|].
  rewrite length_map. apply regroup_length. lia.
Qed.

Lemma convert_regroups_bits_witness :
  ∃ output,
    convertEncodingArrayUnitLength [Num 5; Num 3; Num 7] (Z.of_nat 3) (Z.of_nat 8) false
      = Returns output ∧
    output = map (λ c, of_bits (pad_right 8 c))
               (filter (complete false 8)
                  (chunks 8 (code_bits 3 [Num 5; Num 3; Num 7]))) ∧
    length output = ((3 * length [Num 5; Num 3; Num 7] + (8 - 1)) / 8)%nat.
Proof.
  apply (convert_regroups_bits 3 8 [Num 5; Num 3; Num 7] false).
  - lia.
  - lia.
  - repeat constructor; simpl; lia.
Defined.

(** Regrouping at a width [b] that is not wider than the original width [a]
    and regrouping back with the flag set gives the values back, however
    many there are: the filling of the last unit is shorter than a value. *)
Theorem regroup_there_and_back (a b : nat) (codes : list symbol) :
  (1 ≤ b ≤ a)%nat → (a ≤ 31)%nat → Forall (fits (Z.of_nat a)) codes →
  (units ← convertEncodingArrayUnitLength codes (Z.of_nat a) (Z.of_nat b) false;
   convertEncodingArrayUnitLength (map Num units) (Z.of_nat b) (Z.of_nat a) true)
  = Returns (map code_value codes).
Proof.
  intros Hb Ha Hfit.
  rewrite convert_keep, bind_Returns by (lia || done).
  unfold code_bits.
  rewrite (convert_back a b (map (λ k, to_bits a (code_value k)) codes) true).
  - f_equal. rewrite map_map. apply map_ext_in. intros k Hk%list_elem_of_In.
    rewrite Forall_forall in Hfit. specialize (Hfit k Hk).
    apply of_bits_to_bits. destruct k; simpl in *; try done.
    pose proof (N_of_ascii_bound c). lia.
  - lia.
  - lia.
  - rewrite Forall_map. apply Forall_true. intros k. cbv beta.
    split; [apply to_bits_length|apply to_bits_is_bit].
  - left. split; [|done].
    pose proof (padding_spec b ltac:(lia)
      (length (concat (map (λ k, to_bits a (code_value k)) codes)))) as [Hp _].
    lia.
Qed.

Lemma regroup_there_and_back_witness :
  (units ← convertEncodingArrayUnitLength [Num 300; Lit "a"; Num 7]
             (Z.of_nat 10) (Z.of_nat 4) false;
   convertEncodingArrayUnitLength (map Num units) (Z.of_nat 4) (Z.of_nat 10) true)
  = Returns (map code_value [Num 300; Lit "a"; Num 7]).
Proof.
  apply (regroup_there_and_back 10 4 [Num 300; Lit "a"; Num 7]).
  - lia.
  - lia.
  - repeat constructor; simpl; lia.
Defined.

(** ** More about the facade *)

(** [getByteArrayFromEncodingArray] on [n] codes of at most 9 bits returns
    [9 * n / 8] bytes, rounded up, each from 0 to 255. *)
Theorem pack_size_and_range (encodingArray : list symbol) :
  Forall (fits 9) encodingArray →
  ∃ bytes,
    getByteArrayFromEncodingArray encodingArray = Returns bytes ∧
    length bytes = ((9 * length encodingArray + 7) / 8)%nat ∧
    Forall (λ b, 0 ≤ b < 256) bytes.
Proof.
  intros Hfit.
  pose proof (convert_fits 9 8 encodingArray false ltac:(lia) ltac:(lia) Hfit)
    as Hrun.
  eexists. unfold getByteArrayFromEncodingArray.
  rewrite BITS_PER_ENCODING_eq. split_and!; [exact Hrun| |].
  - rewrite length_map. apply (regroup_length 9 8 _ false). lia.
  - by apply (convert_output_range encodingArray 9 8 false); [lia|].
Qed.

Lemma pack_size_and_range_witness :
  ∃ bytes,
    getByteArrayFromEncodingArray [Lit "a"; Num 256; Num 300] = Returns bytes ∧
    length bytes = ((9 * length [Lit "a"; Num 256; Num 300] + 7) / 8)%nat ∧
    Forall (λ b, 0 ≤ b < 256) bytes.
Proof.
  apply (pack_size_and_range [Lit "a"; Num 256; Num 300]).
  repeat constructor; simpl; lia.
Defined.

Lemma code_of_number_is_code v : 0 ≤ v < 512 → is_code 9 (code_of_number v).
Proof.
  intros Hv. unfold code_of_number.
  destruct (Z.ltb_spec 255 v); simpl; [lia|done].
Qed.

(** The values that [getEncodingArrayFromByteArray] maps to codes. *)
Lemma unpack_values (byteArray : list Z) :
  Forall (λ b, 0 ≤ b < 256) byteArray →
  ∃ values,
    convertEncodingArrayUnitLength (map Num byteArray) 8 9 true = Returns values ∧
    length values = (8 * length byteArray / 9)%nat ∧
    Forall (λ v, 0 ≤ v < 512) values.
Proof.
  intros Hbytes.
  pose proof (convert_fits 8 9 (map Num byteArray) true ltac:(lia) ltac:(lia))
    as Hrun.
  rewrite Forall_map in Hrun. specialize (Hrun Hbytes).
  pose proof (regroup_length 8 9 (map Num byteArray) true ltac:(lia)) as Hlen.
  pose proof (convert_output_range _ _ 9 _ _ ltac:(lia) Hrun) as Hrange.
  eexists. split_and!; [exact Hrun| |].
  - by rewrite length_map, Hlen, length_map.
  - eapply Forall_impl; [exact Hrange|]. intros v Hv. simpl in Hv. lia.
Qed.

(** [getEncodingArrayFromByteArray] on [m] bytes returns [8 * m / 9] codes,
    rounded down, each a one-character string or a number from 256 to
    511. *)
Theorem unpack_size_and_range (byteArray : list Z) :
  Forall (λ b, 0 ≤ b < 256) byteArray →
  ∃ codes,
    getEncodingArrayFromByteArray byteArray = Returns codes ∧
    length codes = (8 * length byteArray / 9)%nat ∧
    Forall (is_code 9) codes.
Proof.
  intros Hbytes.
  destruct (unpack_values byteArray Hbytes) as (values & Hrun & Hlen & Hrange).
  exists (map code_of_number values).
  unfold getEncodingArrayFromByteArray. rewrite BITS_PER_ENCODING_eq.
  rewrite Hrun, bind_Returns. split_and!; [done|by rewrite length_map|].
  rewrite Forall_map. eapply Forall_impl; [exact Hrange|].
  intros v Hv. by apply code_of_number_is_code.
Qed.

Lemma unpack_size_and_range_witness :
  ∃ codes,
    getEncodingArrayFromByteArray [48; 192; 0; 255] = Returns codes ∧
    length codes = (8 * length [48; 192; 0; 255]%Z / 9)%nat ∧
    Forall (is_code 9) codes.
Proof.
  apply (unpack_size_and_range [48; 192; 0; 255]).
  repeat constructor; lia.
Defined.

(** Unpacking what was packed gives the codes back, whatever their number:
    the filling of the last byte is shorter than a code and is discarded. *)
Theorem unpack_after_pack (codes : list symbol) :
  Forall (is_code 9) codes →
  (bytes ← getByteArrayFromEncodingArray codes;
   getEncodingArrayFromByteArray bytes) = Returns codes.
Proof.
  intros Hcodes. destruct (pack_unpack codes Hcodes) as (bytes & Hpack & Hunpack).
  by rewrite Hpack, bind_Returns.
Qed.

Lemma unpack_after_pack_witness :
  (bytes ← getByteArrayFromEncodingArray [Lit "f"; Num 256; Num 511];
   getEncodingArrayFromByteArray bytes) = Returns [Lit "f"; Num 256; Num 511].
Proof.
  apply (unpack_after_pack [Lit "f"; Num 256; Num 511]).
  repeat constructor; simpl; lia.
Defined.

(** ** More about the first loop *)

(** A number that [>>=] reads as negative (one from [-2^31] to [-1], say,
    or from [2^31] to [2^32 - 1]) after elements that fit: [ch] stays
    negative, the [while] loop does not end and the call does not return. *)
Theorem convert_loops_on_negative (w : nat) pre n post
    (targetUnitLength : Z) (discard : bool) :
  Forall (λ k, fits (Z.of_nat w) k ∧ code_value k < 2 ^ 31) pre →
  ToInt32 n < 0 →
  convertEncodingArrayUnitLength (pre ++ Num n :: post) (Z.of_nat w)
    targetUnitLength discard = Loops.
Proof.
  intros Hpre Hn.
  assert (Hloop : bin_loop bin_fuel n [] = Loops).
  { rewrite bin_fuel_eq, bin_loop_S.
    destruct (Z.eqb_spec n 0) as [->|_]; [by vm_compute in Hn|].
    apply bin_loop_negative. pose proof (sar1_range n).
    unfold sar1 in *. rewrite Z.shiftr_div_pow2 in * by lia.
    split; [lia|]. apply Z.div_lt_upper_bound; lia. }
  assert (Hunit : unit_text (Z.of_nat w) (Num n) = Loops).
  { unfold unit_text, binArr_text. by rewrite Hloop. }
  assert (Harr : binaryFormArr (Z.of_nat w) (pre ++ Num n :: post) = Loops).
  { induction Hpre as [|k pre [Hk H31] _ IH]; cbn [binaryFormArr app].
    - by rewrite Hunit.
    - by rewrite unit_text_fits, bind_Returns, IH by done. }
  unfold convertEncodingArrayUnitLength. by rewrite Harr.
Qed.

Lemma convert_loops_on_negative_witness :
  convertEncodingArrayUnitLength ([Lit "a"] ++ Num (-1) :: [Num 5]) (Z.of_nat 8) 9 true
  = Loops.
Proof.
  apply (convert_loops_on_negative 8 [Lit "a"] (-1) [Num 5] 9 true).
  - repeat constructor; simpl; lia.
  - by vm_compute.
Defined.

(** ** More about the compressor *)

Lemma get_emitted st k :
  c_inv st → truthy (get (c_dict st) k) = true → emitted (get (c_dict st) k).
Proof.
  intros Hinv. unfold get. destruct (c_dict st !! k) as [v|] eqn:Hk.
  - intros _. left.
    destruct (c_inv_val st Hinv k v Hk) as [(c & -> & ->)|(n & -> & Hn)]; [done|].
    pose proof (c_inv_len st Hinv). unfold DICT_SIZE in *. simpl. lia.
  - case_decide; [|done]. intros _. right. eauto.
Qed.

Lemma c_step_held n st ch :
  c_inv st → c_held n st → c_held (S n) (c_step st ch).
Proof.
  intros Hinv [Hout Hs]. unfold c_step.
  destruct (truthy (get (c_dict st) (c_s st ++ [ch]))) eqn:Htruthy.
  - split; [done|]. cbn [c_s c_output c_dict].
    destruct (c_s st ++ [ch]) eqn:Hsnoc; [by destruct (c_s st)|].
    rewrite <- Hsnoc in Htruthy |- *. split; [by apply get_emitted|].
    destruct (c_s st); [destruct Hs as [_ ->]; simpl; lia|lia].
  - assert (Hne : c_s st ≠ []).
    { intros Hnil. rewrite Hnil in Htruthy. simpl in Htruthy.
      unfold get in Htruthy. by rewrite (c_inv_lit st Hinv ch) in Htruthy. }
    pose proof (c_step_inv st ch Hinv) as Hinv'. unfold c_step in Hinv'.
    rewrite Htruthy in Hinv'.
    destruct (c_s st) as [|c s] eqn:Hcs; [done|]. destruct Hs as [Hs Hlen].
    assert (Hsame : c_output (c_reset (c_emit st ch))
                    = c_output st ++ [get (c_dict st) (c_s st)]
                    ∧ c_s (c_reset (c_emit st ch)) = [ch]).
    { unfold c_reset. by destruct (DICT_SIZE <=? _). }
    destruct Hsame as [Ho Hs']. split.
    + rewrite Ho, Hcs. apply Forall_app. split; [done|]. by constructor.
    + rewrite Hs', Ho, length_app. split; [|simpl; lia].
      unfold get. rewrite (c_inv_lit _ Hinv' ch). by left.
Qed.

Lemma c_run_held input :
  c_inv (c_run c_init input) ∧ c_held (length input) (c_run c_init input).
Proof.
  induction input as [|ch input [Hinv Hheld]] using rev_ind.
  - split; [apply c_init_inv|]. split; [constructor|done].
  - rewrite c_run_snoc, length_app. cbn [length].
    replace (length input + 1)%nat with (S (length input)) by lia.
    split; [by apply c_step_inv|by apply c_step_held].
Qed.

(** [lzwCompress] never returns more codes than it was given bytes, and no
    code at all only for the empty input. *)
Theorem lzwCompress_output_length (inputData : phrase) :
  (length (lzwCompress inputData).1 ≤ length inputData)%nat ∧
  ((lzwCompress inputData).1 = [] ↔ inputData = []).
Proof.
  destruct (c_run_held inputData) as [_ [_ Hs]].
  unfold lzwCompress, c_flush. cbn [fst].
  destruct (c_s (c_run c_init inputData)) as [|c s].
  - destruct Hs as [Hlen ->]. split; [simpl; lia|].
    split; [|done]. intros _. by destruct inputData.
  - destruct Hs as [_ Hlen]. rewrite length_app. cbn [length]. split; [lia|].
    split; [intros Heq%(f_equal length); rewrite length_app in Heq;
            simpl in Heq; lia|].
    intros ->. simpl in Hlen. lia.
Qed.

(** Every element of the array that [lzwCompress] returns is a
    one-character string, a number from 256 to 511, or a member inherited
    from [Object.prototype]; it is never [undefined]. *)
Theorem lzwCompress_emits (inputData : phrase) :
  Forall (λ v, v ≠ Undef ∧
               (is_code 9 v ∨ ∃ name, name ∈ proto_names ∧ v = Obj name))
    (lzwCompress inputData).1.
Proof.
  destruct (c_run_held inputData) as [_ [Hout Hs]].
  assert (Hall : Forall emitted (lzwCompress inputData).1).
  { unfold lzwCompress, c_flush. cbn [fst].
    destruct (c_s (c_run c_init inputData)); [done|].
    apply Forall_app. split; [done|]. constructor; [by destruct Hs|done]. }
  eapply Forall_impl; [exact Hall|]. intros v Hv. split; [|done].
  intros ->. by destruct Hv as [?|(? & _ & ?)].
Qed.

(** On an input in which no stretch spells a property name of
    [Object.prototype], [lzwCompress] returns one-character strings and
    numbers from 256 to 511 only, and [lzwDecompress] returns the input from
    them. *)
Theorem lzwDecompress_after_lzwCompress (inputData : phrase) :
  proto_free inputData →
  Forall (is_code 9) (lzwCompress inputData).1 ∧
  lzwDecompress (lzwCompress inputData).1 = Returns inputData.
Proof.
  intros Hfree. by destruct (lzw_decode inputData Hfree) as (? & ? & _).
Qed.

Lemma lzwDecompress_after_lzwCompress_witness :
  Forall (is_code 9) (lzwCompress (str "abcabc")).1 ∧
  lzwDecompress (lzwCompress (str "abcabc")).1 = Returns (str "abcabc").
Proof.
  apply (lzwDecompress_after_lzwCompress (str "abcabc")).
  apply proto_free_short. simpl. lia.
Defined.

(** ** More about the decompressor *)

Lemma d_step_output st currcode st' :
  d_step st currcode = Returns st' →
  ∃ data, d_data st currcode = Returns data ∧
          d_output st' = d_output st ++ [Str data] ∧ d_prevcode st' = Str data.
Proof.
  intros (data & Hdata & ->)%d_step_Returns. exists data. split; [done|].
  unfold d_reset. by destruct (DICT_SIZE <=? _).
Qed.

Lemma d_run_literals l : ∀ st,
  d_inv st →
  ∃ st', d_run st (map Lit l) = Returns st' ∧
         d_output st' = d_output st ++ map (λ c, Str [c]) l.
Proof.
  induction l as [|c l IH]; intros st Hinv.
  - exists st. split; [done|]. by rewrite app_nil_r.
  - assert (Hdata : d_data st (Lit c) = Returns [c]).
    { unfold d_data. cbn [ToString]. by rewrite (d_inv_lit st Hinv c). }
    assert (Hstep : d_step st (Lit c) = Returns (d_reset (d_insert st [c]))).
    { unfold d_step. by rewrite Hdata. }
    destruct (IH (d_reset (d_insert st [c]))) as (st' & Hrun & Hout).
    { by apply d_insert_inv. }
    exists st'. cbn [map d_run]. rewrite Hstep, bind_Returns. split; [done|].
    rewrite Hout. destruct (d_step_output _ _ _ Hstep) as (data & Hd & -> & _).
    rewrite Hdata in Hd. injection Hd as <-. by rewrite <- app_assoc.
Qed.

Lemma concat_literals (l : phrase) : concat (map (λ c, [c]) l) = l.
Proof. induction l as [|c l IH]; [done|]. simpl. by rewrite IH. Qed.

(** An array of one-character strings alone decompresses to the characters
    in the same order: a byte string passed byte by byte is a valid
    encoding of itself. *)
Theorem lzwDecompress_literals (bytes : phrase) :
  lzwDecompress (map Lit bytes) = Returns bytes.
Proof.
  destruct bytes as [|c bytes]; [done|].
  unfold lzwDecompress. cbn [map tail].
  destruct (d_run_literals bytes (d_init (Lit c :: map Lit bytes)))
    as (st' & Hrun & Hout); [apply d_init_inv|].
  rewrite Hrun, bind_Returns, Hout. f_equal.
  unfold join. rewrite map_app, concat_app, map_map. cbn [join_val ToString_val].
  by rewrite concat_literals.
Qed.

Lemma index0_outcome v :
  (∃ p, index0 v = Returns p) ∨ (index0 v = Throws TypeError ∧ v = Sym Undef).
Proof.
  destruct v as [[| | |]|[|]]; simpl; eauto.
Qed.

Lemma d_data_outcome st currcode :
  (∃ data, d_data st currcode = Returns data) ∨
  d_data st currcode = Throws BadlyCompressed ∨
  (d_data st currcode = Throws TypeError ∧
   d_prevcode st = Sym Undef ∧ loose_eq currcode (d_dictLen st) = true).
Proof.
  unfold d_data.
  assert (Hmiss :
    (∃ data, (if loose_eq currcode (d_dictLen st)
              then p0 ← index0 (d_prevcode st);
                   Returns (ToString_val (d_prevcode st) ++ p0)
              else Throws BadlyCompressed) = Returns data) ∨
    (if loose_eq currcode (d_dictLen st)
     then p0 ← index0 (d_prevcode st);
          Returns (ToString_val (d_prevcode st) ++ p0)
     else Throws BadlyCompressed) = Throws BadlyCompressed ∨
    ((if loose_eq currcode (d_dictLen st)
      then p0 ← index0 (d_prevcode st);
           Returns (ToString_val (d_prevcode st) ++ p0)
      else Throws BadlyCompressed) = Throws TypeError ∧
     d_prevcode st = Sym Undef ∧ loose_eq currcode (d_dictLen st) = true)).
  { destruct (loose_eq currcode (d_dictLen st)); [|by right; left].
    destruct (index0_outcome (d_prevcode st)) as [[p ->]|[-> ?]]; [left|right; right].
    - by eexists.
    - done. }
  destruct (d_dict st !! ToString currcode) as [[|c data]|]; [done| |done].
  left. by eexists.
Qed.

Lemma d_run_outcome codes : ∀ st,
  d_run st codes ≠ Throws RangeError ∧ d_run st codes ≠ Loops.
Proof.
  induction codes as [|currcode codes IH]; intros st; [done|].
  cbn [d_run]. unfold d_step.
  destruct (d_data_outcome st currcode) as [[data ->]|[->|[-> _]]]; [|done..].
  rewrite !bind_Returns. apply IH.
Qed.

Lemma d_run_prevcode codes : ∀ st st',
  d_run st codes = Returns st' → codes ≠ [] → ∃ data, d_prevcode st' = Str data.
Proof.
  induction codes as [|currcode codes IH] using rev_ind; intros st st' Hrun Hne;
    [done|].
  rewrite d_run_app in Hrun.
  destruct (d_run st codes) as [st1| |] eqn:Hrun1; [|done..].
  rewrite bind_Returns in Hrun. cbn [d_run] in Hrun.
  destruct (d_step st1 currcode) as [st2| |] eqn:Hstep; [|done..].
  rewrite bind_Returns in Hrun. injection Hrun as <-.
  destruct (d_step_output _ _ _ Hstep) as (data & _ & _ & Hprev). eauto.
Qed.

Lemma lzwDecompress_TypeError (encodingArray : list symbol) :
  lzwDecompress encodingArray = Throws TypeError →
  ∃ rest, encodingArray = Undef :: Num 256 :: rest.
Proof.
  unfold lzwDecompress. intros Hthrow.
  assert (Hrun : d_run (d_init encodingArray) (tail encodingArray)
                 = Throws TypeError).
  { destruct (d_run (d_init encodingArray) (tail encodingArray));
      simpl in *; congruence. }
  apply d_run_Throws in Hrun as (pre & currcode & post & st & Htail & Hpre & Hstep).
  apply d_step_Throws in Hstep.
  destruct (d_data_outcome st currcode) as [[data Hd]|[Hd|(_ & Hprev & Heq)]];
    [congruence..|].
  destruct pre as [|c pre].
  - injection Hpre as <-.
    destruct encodingArray as [|first rest]; [done|].
    simpl in Htail, Hprev, Heq. subst rest.
    injection Hprev as ->.
    apply loose_eq_spec in Heq; [|done]. subst currcode. by exists post.
  - destruct (d_run_prevcode _ _ _ Hpre) as [data Hdata]; [done|].
    congruence.
Qed.

Lemma lzwDecompress_ends (encodingArray : list symbol) :
  lzwDecompress encodingArray ≠ Throws RangeError ∧
  lzwDecompress encodingArray ≠ Loops.
Proof.
  unfold lzwDecompress.
  pose proof (d_run_outcome (tail encodingArray) (d_init encodingArray))
    as [Hrange Hloops].
  split; destruct (d_run (d_init encodingArray) (tail encodingArray));
    simpl in *; congruence.
Qed.

(** The only errors of [lzwDecompress] before it converts the text are
    ["badly compressed."] and one [TypeError]: when the array starts with
    [undefined] followed by 256, where [prevcode[0]] reads a property of
    [undefined]. The loop itself always ends. *)
Theorem lzwDecompress_outcomes (encodingArray : list symbol) :
  (lzwDecompress encodingArray = Throws TypeError ↔
   ∃ rest, encodingArray = Undef :: Num 256 :: rest) ∧
  lzwDecompress encodingArray ≠ Throws RangeError ∧
  lzwDecompress encodingArray ≠ Loops.
Proof.
  split; [|apply lzwDecompress_ends]. split; [apply lzwDecompress_TypeError|].
  intros [rest ->]. unfold lzwDecompress. cbn [tail d_run].
  assert (Hstep : d_step (d_init (Undef :: Num 256 :: rest)) (Num 256)
                  = Throws TypeError) by by vm_compute.
  by rewrite Hstep.
Qed.

(** Reading more codes only adds to the text: when [lzwDecompress] returns
    on an array, it returns on every initial part of it that is not empty,
    and the text of the part starts the text of the whole. *)
Theorem lzwDecompress_initial_part (codes more : list symbol) (text : phrase) :
  codes ≠ [] →
  lzwDecompress (codes ++ more) = Returns text →
  ∃ part rest, lzwDecompress codes = Returns part ∧ text = part ++ rest.
Proof.
  intros Hne. destruct codes as [|first codes]; [done|].
  unfold lzwDecompress. cbn [app tail].
  change (d_init (first :: codes ++ more)) with (d_init (first :: codes)).
  rewrite d_run_app.
  destruct (d_run (d_init (first :: codes)) codes) as [st| |]; [|done..].
  rewrite !bind_Returns. intros Hrun. exists (join (d_output st)).
  assert (Hgrow : ∀ l st0 st1,
    d_run st0 l = Returns st1 → ∃ out, d_output st1 = d_output st0 ++ out).
  { clear. induction l as [|c l IH]; intros st0 st1 Hrun.
    - injection Hrun as <-. exists []. by rewrite app_nil_r.
    - cbn [d_run] in Hrun.
      destruct (d_step st0 c) as [st2| |] eqn:Hstep; [|done..].
      rewrite bind_Returns in Hrun.
      destruct (IH _ _ Hrun) as [out Hout].
      destruct (d_step_output _ _ _ Hstep) as (data & _ & Hd & _).
      exists (Str data :: out). by rewrite Hout, Hd, <- app_assoc. }
  destruct (d_run st more) as [st'| |] eqn:Hmore; [|done..].
  rewrite bind_Returns in Hrun. injection Hrun as <-.
  destruct (Hgrow _ _ _ Hmore) as [out ->].
  exists (join out). split; [done|].
  unfold join. by rewrite map_app, concat_app.
Qed.

Lemma lzwDecompress_initial_part_witness :
  ∃ part rest,
    lzwDecompress [Lit "a"; Lit "b"; Num 256] = Returns part ∧
    str "ababc" = part ++ rest.
Proof.
  apply (lzwDecompress_initial_part [Lit "a"; Lit "b"; Num 256] [Lit "c"]).
  - done.
  - by vm_compute.
Defined.

(** ** More about the dictionary *)

(** [dict[k]] on the object that [_buildDictionary] returns: a
    one-character key holds itself, a property name of [Object.prototype]
    holds the inherited member, and any other key is [undefined]; with that,
    the count 256 that comes with it is the number of own entries. *)
Theorem buildDictionary_lookup (k : phrase) :
  get (_buildDictionary Lit).1 k
    = match k with
      | [c] => Lit c
      | _ => if decide (k ∈ proto_names) then Obj k else Undef
      end ∧
  (truthy (get (_buildDictionary Lit).1 k) = true
     ↔ length k = 1%nat ∨ k ∈ proto_names) ∧
  Z.of_nat (size (_buildDictionary Lit).1) = (_buildDictionary Lit).2.
Proof.
  assert (Hget : get (_buildDictionary Lit).1 k
    = match k with
      | [c] => Lit c
      | _ => if decide (k ∈ proto_names) then Obj k else Undef
      end).
  { unfold get. rewrite lookup_buildDictionary. by destruct k as [|c [|c' k]]. }
  split_and!; [done| |by rewrite size_buildDictionary].
  rewrite Hget. destruct k as [|c [|c' k]].
  - assert (Hnil : [] ∉ proto_names)
      by (apply (bool_decide_unpack _); by vm_compute).
    case_decide; [done|]. cbn [truthy length]. split; [done|].
    by intros [?|?].
  - cbn [truthy length]. split; [by left|done].
  - case_decide; cbn [truthy length]; split; try done.
    + by right.
    + by intros [?|?].
Qed.

Lemma c_reset_fields st :
  c_output (c_reset st) = c_output st ∧ c_s (c_reset st) = c_s st ∧
  c_dictLen (c_reset st)
  = if DICT_SIZE <=? c_dictLen st then 256 else c_dictLen st.
Proof. unfold c_reset. by destruct (DICT_SIZE <=? _). Qed.

Lemma c_run_dictLen input :
  c_dictLen (c_run c_init input)
  = 256 + Z.of_nat (length (c_output (c_run c_init input))) mod 256.
Proof.
  induction input as [|ch input IH] using rev_ind; [done|].
  rewrite c_run_snoc. set (st := c_run c_init input) in *.
  pose proof (c_inv_len st (c_run_inv _ _ c_init_inv)) as Hlen.
  unfold c_step. destruct (truthy _); [done|].
  destruct (c_reset_fields (c_emit st ch)) as (-> & _ & ->).
  cbn [c_emit c_output c_dictLen]. rewrite length_app. cbn [length].
  unfold DICT_SIZE in *. rewrite IH in Hlen |- *.
  replace (Z.of_nat (length (c_output st) + 1))
    with (Z.of_nat (length (c_output st)) + 1) by lia.
  destruct (Z.leb_spec 512 (256 + Z.of_nat (length (c_output st)) mod 256 + 1));
    Z.div_mod_to_equations; lia.
Qed.

(** The dictionary that [lzwCompress] returns beside the codes has
    [256 + (n - 1) mod 256] entries when there are [n] codes: every code but
    the last added an entry, and every 256th insertion reset the dictionary
    to its 256 one-byte entries. *)
Theorem lzwCompress_dictionary_size (inputData : phrase) :
  inputData ≠ [] →
  Z.of_nat (size (lzwCompress inputData).2)
  = 256 + (Z.of_nat (length (lzwCompress inputData).1) - 1) mod 256.
Proof.
  intros Hne. destruct (c_run_held inputData) as [Hinv [_ Hs]].
  unfold lzwCompress, c_flush. cbn [fst snd].
  rewrite (c_inv_size _ Hinv), c_run_dictLen.
  destruct (c_s (c_run c_init inputData)) as [|c s].
  - destruct Hs as [Hlen _]. by destruct inputData.
  - rewrite length_app. cbn [length]. do 2 f_equal. lia.
Qed.

Lemma lzwCompress_dictionary_size_witness :
  Z.of_nat (size (lzwCompress (str "abababab")).2)
  = 256 + (Z.of_nat (length (lzwCompress (str "abababab")).1) - 1) mod 256.
Proof.
  apply (lzwCompress_dictionary_size (str "abababab")). done.
Defined.

(** ** More about the facade, continued *)

Lemma unit_text_code_of_number w v :
  0 ≤ v → unit_text w (code_of_number v) = unit_text w (Num v).
Proof.
  intros Hv. unfold code_of_number. destruct (Z.ltb_spec 255 v); [done|].
  unfold unit_text, binArr_text.
  rewrite N_ascii_embedding by lia. by rewrite Z2N.id.
Qed.

Lemma convert_code_of_number (values : list Z) w t d :
  Forall (λ v, 0 ≤ v) values →
  convertEncodingArrayUnitLength (map code_of_number values) w t d
  = convertEncodingArrayUnitLength (map Num values) w t d.
Proof.
  intros Hvalues. unfold convertEncodingArrayUnitLength.
  replace (binaryFormArr w (map code_of_number values))
    with (binaryFormArr w (map Num values)); [done|].
  induction Hvalues as [|v values Hv _ IH]; [done|].
  cbn [map binaryFormArr]. by rewrite IH, unit_text_code_of_number.
Qed.

(** A byte array whose length is a multiple of 9 holds whole codes only:
    packing what was unpacked from it gives the bytes back. *)
Theorem pack_after_unpack (byteArray : list Z) :
  Forall (λ b, 0 ≤ b < 256) byteArray →
  (length byteArray mod 9 = 0)%nat →
  (codes ← getEncodingArrayFromByteArray byteArray;
   getByteArrayFromEncodingArray codes) = Returns byteArray.
Proof.
  intros Hbytes Hmod.
  unfold getEncodingArrayFromByteArray, getByteArrayFromEncodingArray.
  rewrite BITS_PER_ENCODING_eq.
  assert (Hmod8 : ((8 * length (map Num byteArray)) mod 9 = 0)%nat).
  { rewrite length_map. apply Nat.Div0.mod_divides in Hmod as [q ->].
    apply Nat.Div0.mod_divides. exists (8 * q)%nat. lia. }
  destruct (convert_exact 8 9 (map Num byteArray) true) as [Hrun _];
    [lia|lia|by rewrite Forall_map|done|].
  change (Z.of_nat 8) with 8 in Hrun. change (Z.of_nat 9) with 9 in Hrun.
  rewrite Hrun, !bind_Returns.
  rewrite convert_code_of_number.
  2:{ rewrite Forall_map. apply Forall_true. intros c. apply of_bits_bounds. }
  set (units := map (to_bits 8) byteArray).
  assert (Hbits : code_bits 8 (map Num byteArray) = concat units).
  { unfold code_bits, units. by rewrite map_map. }
  assert (Hpad : padding 9 (length (concat units)) = 0%nat).
  { rewrite <- Hbits, code_bits_length. unfold padding. by rewrite Hmod8. }
  pose proof (convert_back 8 9 units false) as Hback.
  rewrite Hpad, app_nil_r, <- Hbits in Hback.
  change (Z.of_nat 8) with 8 in Hback. change (Z.of_nat 9) with 9 in Hback.
  rewrite Hback.
  - f_equal. unfold units. rewrite map_map.
    rewrite <- (map_id byteArray) at 2. apply map_ext_in.
    intros b Hb%list_elem_of_In. rewrite Forall_forall in Hbytes.
    apply (of_bits_to_bits 8). specialize (Hbytes b Hb). simpl. lia.
  - lia.
  - lia.
  - unfold units. rewrite Forall_map. apply Forall_true. intros b. cbv beta.
    split; [apply to_bits_length|apply to_bits_is_bit].
  - by right.
Qed.

Lemma pack_after_unpack_witness :
  (codes ← getEncodingArrayFromByteArray [48; 192; 0; 255; 7; 8; 9; 10; 11];
   getByteArrayFromEncodingArray codes)
  = Returns [48; 192; 0; 255; 7; 8; 9; 10; 11].
Proof.
  apply (pack_after_unpack [48; 192; 0; 255; 7; 8; 9; 10; 11]).
  - repeat constructor; lia.
  - done.
Defined.

Lemma unit_text_emitted v : emitted v → ∃ text, unit_text 9 v = Returns text.
Proof.
  intros [Hcode|(name & _ & ->)]; [|by eexists].
  eexists. apply (unit_text_fits 9); [apply fits_is_code; [lia|done]|].
  destruct v as [|c|n|]; simpl in *; try done; [|lia].
  pose proof (N_of_ascii_bound c). lia.
Qed.

Lemma binaryFormArr_emitted l :
  Forall emitted l → ∃ units, binaryFormArr 9 l = Returns units.
Proof.
  induction 1 as [|v l Hv _ [units IH]]; [by eexists|].
  destruct (unit_text_emitted v Hv) as [text Htext].
  exists (text :: units). cbn [binaryFormArr]. by rewrite Htext, IH.
Qed.

(** Whatever the input bytes, the chain of [lzwCompress],
    [getByteArrayFromEncodingArray], [getEncodingArrayFromByteArray] and
    [lzwDecompress] up to its [join] either returns a text or throws
    ["badly compressed."]: it does not loop and throws no other error. *)
Theorem roundtrip_outcomes (inputData : phrase) :
  (∃ text, roundtrip inputData = Returns text) ∨
  roundtrip inputData = Throws BadlyCompressed.
Proof.
  unfold roundtrip.
  assert (Hemitted : Forall emitted (lzwCompress inputData).1).
  { destruct (c_run_held inputData) as [_ [Hout Hs]].
    unfold lzwCompress, c_flush. cbn [fst].
    destruct (c_s (c_run c_init inputData)); [done|].
    apply Forall_app. split; [done|]. constructor; [by destruct Hs|done]. }
  destruct (binaryFormArr_emitted _ Hemitted) as [units Hunits].
  assert (Hpack : ∃ bytes,
    getByteArrayFromEncodingArray (lzwCompress inputData).1 = Returns bytes).
  { unfold getByteArrayFromEncodingArray, convertEncodingArrayUnitLength.
    rewrite BITS_PER_ENCODING_eq, Hunits, bind_Returns.
    destruct (concat units); by eexists. }
  destruct Hpack as [bytes Hpack]. rewrite Hpack, bind_Returns.
  assert (Hbytes : Forall (λ b, 0 ≤ b < 256) bytes).
  { unfold getByteArrayFromEncodingArray in Hpack.
    by apply (convert_output_range _ _ 8 _ _ ltac:(lia) Hpack). }
  destruct (unpack_values bytes Hbytes) as (values & Hunpack & _ & Hvalues).
  unfold getEncodingArrayFromByteArray.
  rewrite BITS_PER_ENCODING_eq, Hunpack, !bind_Returns.
  assert (Hcodes : Forall (is_code 9) (map code_of_number values)).
  { rewrite Forall_map. eapply Forall_impl; [exact Hvalues|].
    intros v Hv. by apply code_of_number_is_code. }
  destruct (lzwDecompress (map code_of_number values)) as [text|[]|] eqn:Hdec.
  - left. by eexists.
  - by right.
  - apply lzwDecompress_TypeError in Hdec as [rest Heq].
    rewrite Heq in Hcodes. by apply Forall_cons in Hcodes as [? _].
  - by destruct (lzwDecompress_ends (map code_of_number values)).
  - by destruct (lzwDecompress_ends (map code_of_number values)).
Qed.

(** On an input in which no stretch spells a property name of
    [Object.prototype], what [demoForNodeJs] prints as the size after
    compression, the length of the packed codes, is at most [9 * n / 8]
    rounded up for [n] input bytes: the packed result is never longer than
    the input by more than an eighth and one byte. *)
Theorem compressed_size_bound (inputData : phrase) :
  proto_free inputData →
  ∃ compressResult,
    getByteArrayFromEncodingArray (lzwCompress inputData).1
      = Returns compressResult ∧
    (length compressResult ≤ (9 * length inputData + 7) / 8)%nat.
Proof.
  intros Hfree. destruct (lzw_decode inputData Hfree) as (Hcodes & _).
  assert (Hfit : Forall (fits (Z.of_nat 9)) (lzwCompress inputData).1).
  { eapply Forall_impl; [exact Hcodes|]. intros k. apply fits_is_code. lia. }
  pose proof (convert_fits 9 8 _ false ltac:(lia) ltac:(lia) Hfit) as Hrun.
  eexists. unfold getByteArrayFromEncodingArray.
  rewrite BITS_PER_ENCODING_eq. split; [exact Hrun|].
  rewrite length_map, (regroup_length 9 8 _ false) by lia.
  assert (Hlen : (length (lzwCompress inputData).1 ≤ length inputData)%nat).
  { destruct (c_run_held inputData) as [_ [_ Hs]].
    unfold lzwCompress, c_flush. cbn [fst].
    destruct (c_s (c_run c_init inputData)) as [|c s].
    - destruct Hs as [_ ->]. simpl. lia.
    - destruct Hs as [_ Hlt]. rewrite length_app. simpl. lia. }
  apply Nat.Div0.div_le_mono. lia.
Qed.

Lemma compressed_size_bound_witness :
  ∃ compressResult,
    getByteArrayFromEncodingArray (lzwCompress (str "abcabc")).1
      = Returns compressResult ∧
    (length compressResult ≤ (9 * length (str "abcabc") + 7) / 8)%nat.
Proof.
  apply (compressed_size_bound (str "abcabc")).
  apply proto_free_short. simpl. lia.
Defined.

(** ** The rhythm of the resets *)

Lemma cadence_next n dictLen :
  dictLen = 256 + n mod 256 →
  (if DICT_SIZE <=? dictLen + 1 then 256 else dictLen + 1) = cadence n.
Proof.
  intros ->. unfold cadence, DICT_SIZE.
  destruct (Z.leb_spec 512 (256 + n mod 256 + 1)); Z.div_mod_to_equations; lia.
Qed.

Lemma c_trace_length input :
  length (c_trace c_init input) = length (c_output (c_run c_init input)).
Proof.
  induction input as [|ch input IH] using rev_ind; [done|].
  rewrite c_trace_snoc, c_run_snoc, length_app, IH. unfold c_step.
  destruct (truthy _); [simpl; lia|].
  destruct (c_reset_fields (c_emit (c_run c_init input) ch)) as (-> & _).
  cbn [c_emit c_output]. by rewrite length_app.
Qed.

Lemma c_trace_cadence input :
  map snd (c_trace c_init input)
  = map cadence (seqZ 0 (Z.of_nat (length (c_trace c_init input)))).
Proof.
  induction input as [|ch input IH] using rev_ind; [done|].
  rewrite c_trace_snoc.
  destruct (truthy _) eqn:Htruthy; [by rewrite app_nil_r|].
  rewrite length_app, map_app, IH. cbn [length map].
  replace (length (c_trace c_init input) + 1)%nat
    with (S (length (c_trace c_init input))) by lia.
  rewrite seqZ_S, map_app. cbn [map]. do 2 f_equal.
  rewrite c_run_snoc. unfold c_step. rewrite Htruthy.
  destruct (c_reset_fields (c_emit (c_run c_init input) ch)) as (_ & _ & ->).
  cbn [c_emit c_dictLen snd]. rewrite c_trace_length.
  apply cadence_next, c_run_dictLen.
Qed.

Lemma d_reset_fields st :
  d_output (d_reset st) = d_output st ∧ d_prevcode (d_reset st) = d_prevcode st ∧
  d_dictLen (d_reset st)
  = if DICT_SIZE <=? d_dictLen st then 256 else d_dictLen st.
Proof. unfold d_reset. by destruct (DICT_SIZE <=? _). Qed.

Lemma d_run_dictLen encodingArray codes st :
  d_run (d_init encodingArray) codes = Returns st →
  d_dictLen st = 256 + Z.of_nat (length codes) mod 256 ∧
  length (d_trace (d_init encodingArray) codes) = length codes.
Proof.
  revert st. induction codes as [|c codes IH] using rev_ind; intros st.
  { by intros [= <-]. }
  rewrite d_trace_snoc, d_run_app.
  destruct (d_run (d_init encodingArray) codes) as [st1| |] eqn:Hrun; [|done..].
  rewrite bind_Returns. cbn [d_run].
  destruct (d_step st1 c) as [st2| |] eqn:Hstep; [|done..].
  rewrite bind_Returns. intros [= <-].
  destruct (IH st1 eq_refl) as [Hlen Htrace].
  apply d_step_Returns in Hstep as (data & _ & ->).
  rewrite !length_app, Htrace. split; [|done].
  destruct (d_reset_fields (d_insert st1 data)) as (_ & _ & ->).
  cbn [d_insert d_dictLen length].
  rewrite (cadence_next (Z.of_nat (length codes))) by done.
  unfold cadence. do 2 f_equal. lia.
Qed.

Lemma d_trace_cadence encodingArray codes :
  map snd (d_trace (d_init encodingArray) codes)
  = map cadence (seqZ 0 (Z.of_nat (length (d_trace (d_init encodingArray) codes)))).
Proof.
  induction codes as [|c codes IH] using rev_ind; [done|].
  rewrite d_trace_snoc.
  destruct (d_run (d_init encodingArray) (codes ++ [c])) as [st'| |] eqn:Hrun';
    [|by rewrite app_nil_r..].
  destruct (d_run (d_init encodingArray) codes) as [st| |] eqn:Hrun;
    [|by rewrite app_nil_r..].
  destruct (d_run_dictLen _ _ _ Hrun) as [_ Htrace].
  destruct (d_run_dictLen _ _ _ Hrun') as [Hlen _].
  rewrite length_app, map_app, IH, Htrace. cbn [length map].
  replace (length codes + 1)%nat with (S (length codes)) by lia.
  rewrite seqZ_S, map_app. cbn [map snd]. do 2 f_equal.
  rewrite Hlen, length_app. unfold cadence. cbn [length]. do 2 f_equal. lia.
Qed.

(** Whatever the data, [dictLen] after the insertion number [i] (from 1) is
    [256 + i mod 256], in [lzwCompress] and in [lzwDecompress] alike: the
    dictionary is reset with every 256th insertion. *)
Theorem dictLen_cadence (inputData : phrase) (encodingArray : list symbol) :
  map snd (c_trace c_init inputData)
  = map (λ i, 256 + (i + 1) mod 256)
      (seqZ 0 (Z.of_nat (length (c_trace c_init inputData)))) ∧
  map snd (d_trace (d_init encodingArray) (tail encodingArray))
  = map (λ i, 256 + (i + 1) mod 256)
      (seqZ 0 (Z.of_nat (length (d_trace (d_init encodingArray)
                                   (tail encodingArray))))).
Proof. split; [apply c_trace_cadence|apply d_trace_cadence]. Qed.

(** ** The UTF-8 conversions *)

Lemma uriUnescaped_ascii C :
  C ∈ uriUnescaped → 0 ≤ C < 128 ∧ C ≠ unit_of "%".
Proof.
  assert (Hall : Forall (λ C, 0 ≤ C < 128 ∧ C ≠ unit_of "%") uriUnescaped)
    by (apply (bool_decide_unpack _); by vm_compute).
  rewrite Forall_forall in Hall. apply Hall.
Qed.

Lemma escapeUnescaped_ascii C :
  C ∈ escapeUnescaped → 0 ≤ C < 128 ∧ C ≠ unit_of "%".
Proof.
  assert (Hall : Forall (λ C, 0 ≤ C < 128 ∧ C ≠ unit_of "%") escapeUnescaped)
    by (apply (bool_decide_unpack _); by vm_compute).
  rewrite Forall_forall in Hall. apply Hall.
Qed.

(** The two digits of an octet read back as the octet, and the first is
    not the letter of [%uXXXX]. *)
Lemma parse_hex_octet B :
  0 ≤ B < 256 →
  parse_hex (hex_octet B) = Some B ∧ hex_digit (B / 16) ≠ unit_of "u".
Proof.
  intros HB.
  assert (Hall : Forall (λ B, parse_hex (hex_octet B) = Some B
                              ∧ hex_digit (B / 16) ≠ unit_of "u") (seqZ 0 256))
    by (apply (bool_decide_unpack _); by vm_compute).
  rewrite Forall_forall in Hall. apply Hall, elem_of_seqZ. lia.
Qed.

Lemma unescape_cons C s1 :
  unescape (C :: s1) =
  let plain := C :: unescape s1 in
  if negb (C =? unit_of "%") then plain
  else
    match s1 with
    | a :: b :: s3 =>
        let two :=
          match parse_hex [a; b] with
          | Some n => n :: unescape s3
          | None => plain
          end in
        match s3 with
        | d :: e :: f :: s6 =>
            if a =? unit_of "u" then
              match parse_hex [b; d; e; f] with
              | Some n => n :: unescape s6
              | None => plain
              end
            else two
        | _ => two
        end
    | _ => plain
    end.
Proof. done. Qed.

Lemma unescape_plain C rest :
  C ≠ unit_of "%" → unescape (C :: rest) = C :: unescape rest.
Proof.
  intros HC. rewrite unescape_cons. cbv zeta.
  by destruct (Z.eqb_spec C (unit_of "%")).
Qed.

Lemma unescape_percent B rest :
  0 ≤ B < 256 → unescape (percent_octet B ++ rest) = B :: unescape rest.
Proof.
  intros HB. destruct (parse_hex_octet B HB) as [Hparse Hu].
  unfold percent_octet, hex_octet in *. cbn [app].
  rewrite unescape_cons. cbv zeta.
  rewrite Z.eqb_refl. cbn [negb]. rewrite Hparse.
  destruct (Z.eqb_spec (hex_digit (B / 16)) (unit_of "u")); [done|].
  by destruct rest as [|d [|e [|f s6]]].
Qed.

Lemma unescape_percent_octets Octets rest :
  Forall (λ B, 0 ≤ B < 256) Octets →
  unescape (flat_map percent_octet Octets ++ rest) = Octets ++ unescape rest.
Proof.
  induction 1 as [|B Octets HB _ IH]; [done|].
  cbn [flat_map]. rewrite <- app_assoc, unescape_percent by done.
  by rewrite IH.
Qed.

Lemma utf8_octets_range cp :
  0 ≤ cp < 0x110000 → Forall (λ B, 0 ≤ B < 256) (utf8_octets cp).
Proof.
  intros Hcp. unfold utf8_octets.
  repeat case_match; repeat constructor; Z.div_mod_to_equations; lia.
Qed.

Lemma jsstring_pair_ind (P : jsstring → Prop) :
  P [] →
  (∀ u rest, P rest → (∀ v rest', rest = v :: rest' → P rest') → P (u :: rest)) →
  ∀ s, P s.
Proof.
  intros Hnil Hcons s.
  assert (H : P s ∧ P (tail s)); [|by destruct H].
  induction s as [|u s [IH1 IH2]]; [done|].
  split; [|done]. apply Hcons; [done|]. by intros v rest' ->.
Qed.

Ltac compare_units :=
  unfold is_leading_surrogate, is_trailing_surrogate, is_continuation in *;
  repeat match goal with
         | |- context [?a <=? ?b] => destruct (Z.leb_spec a b)
         | |- context [?a <? ?b] => destruct (Z.ltb_spec a b)
         | H : context [?a <=? ?b] |- _ => destruct (Z.leb_spec a b)
         | H : context [?a <? ?b] |- _ => destruct (Z.ltb_spec a b)
         end;
  simpl in *; try done; try lia.

Ltac option_simpl :=
  cbn [fmap option_fmap option_map mbind option_bind mret option_ret] in *.

Lemma utf8_cons cp cps : utf8 (cp :: cps) = utf8_octets cp ++ utf8 cps.
Proof. done. Qed.

Lemma utf8_octets_ascii cp : cp < 0x80 → utf8_octets cp = [cp].
Proof. intros. unfold utf8_octets. compare_units. Qed.

Lemma pair_code_point lead trail :
  is_leading_surrogate lead = true → is_trailing_surrogate trail = true →
  0x10000 ≤ UTF16SurrogatePairToCodePoint lead trail < 0x110000.
Proof. unfold UTF16SurrogatePairToCodePoint. compare_units. Qed.

(** What [_stringToUtf8] computes: the UTF-8 octets of the code points of
    the string, and the URIError when a surrogate is not half of a pair. *)
Lemma stringToUtf8_utf8 (text : jsstring) :
  Forall (λ u, 0 ≤ u < 65536) text →
  _stringToUtf8 text = utf8 <$> code_points text.
Proof.
  unfold _stringToUtf8, encodeURIComponent.
  induction text as [|u rest IH1 IH2] using jsstring_pair_ind; [done|].
  intros [Hu Hrest]%Forall_cons. specialize (IH1 Hrest).
  cbn [Encode code_points]. case_bool_decide as Hin.
  - apply uriUnescaped_ascii in Hin as [Hascii Hpercent].
    assert (is_trailing_surrogate u = false) as -> by compare_units.
    assert (is_leading_surrogate u = false) as -> by compare_units.
    destruct (Encode uriUnescaped rest) as [R|], (code_points rest) as [cps|];
      option_simpl; try done.
    injection IH1 as IH1.
    by rewrite unescape_plain, utf8_cons, utf8_octets_ascii, IH1 by lia.
  - destruct (is_trailing_surrogate u) eqn:Htrail; [done|].
    destruct (is_leading_surrogate u) eqn:Hlead.
    + destruct rest as [|v rest']; [done|].
      destruct (is_trailing_surrogate v) eqn:Hv; [|done].
      apply Forall_cons in Hrest as [_ Hrest'].
      specialize (IH2 v rest' eq_refl Hrest').
      pose proof (pair_code_point u v Hlead Hv) as Hcp.
      destruct (Encode uriUnescaped rest') as [R|], (code_points rest') as [cps|];
        option_simpl; try done.
      injection IH2 as IH2.
      rewrite unescape_percent_octets by (apply utf8_octets_range; lia).
      by rewrite utf8_cons, IH2.
    + destruct (Encode uriUnescaped rest) as [R|], (code_points rest) as [cps|];
        option_simpl; try done.
      injection IH1 as IH1.
      rewrite unescape_percent_octets by (apply utf8_octets_range; lia).
      by rewrite utf8_cons, IH1.
Qed.

Lemma ParseHexOctet_length s B rest :
  ParseHexOctet s = Some (B, rest) → length s = S (S (length rest)).
Proof.
  destruct s as [|a [|b s]]; try done. unfold ParseHexOctet.
  destruct (parse_hex [a; b]); [|done]. option_simpl. by intros [= _ <-].
Qed.

Lemma ParseHexOctet_percent B rest :
  0 ≤ B < 256 → ParseHexOctet (hex_octet B ++ rest) = Some (B, rest).
Proof.
  intros HB. destruct (parse_hex_octet B HB) as [Hparse _].
  unfold hex_octet in *. cbn [app ParseHexOctet]. by rewrite Hparse.
Qed.

Lemma continuation_length j : ∀ s Octets rest,
  continuation j s = Some (Octets, rest) →
  (length rest ≤ length s)%nat ∧ length Octets = j.
Proof.
  induction j as [|j IH]; intros s Octets rest.
  - by intros [= <- <-].
  - cbn [continuation]. destruct s as [|C s]; [done|].
    destruct (C =? unit_of "%"); [|done].
    destruct (ParseHexOctet s) as [[B r]|] eqn:Hparse; [|done].
    apply ParseHexOctet_length in Hparse. option_simpl.
    destruct (continuation j r) as [[o r']|] eqn:Hcont; [|done].
    apply IH in Hcont as [Hlen Ho]. option_simpl.
    intros [= <- <-]. cbn [length]. rewrite Hparse. split; lia.
Qed.

(** The fuel does not matter once it covers the string. *)
Lemma Decode_fuel f1 : ∀ f2 s,
  (length s ≤ f1)%nat → (length s ≤ f2)%nat → Decode f1 s = Decode f2 s.
Proof.
  induction f1 as [|f1 IH]; intros f2 s H1 H2.
  { destruct s; [|simpl in H1; lia]. by destruct f2. }
  destruct s as [|C s]; [by destruct f2|].
  destruct f2 as [|f2]; [simpl in H2; lia|].
  cbn [length] in H1, H2. cbn [Decode].
  destruct (negb (C =? unit_of "%")).
  { by rewrite (IH f2 s) by lia. }
  destruct (ParseHexOctet s) as [[B r]|] eqn:Hparse; [|done].
  apply ParseHexOctet_length in Hparse. option_simpl. cbv zeta.
  destruct (leading_ones B =? 0)%nat.
  { by rewrite (IH f2 r) by lia. }
  destruct ((leading_ones B =? 1)%nat || (4 <? leading_ones B)%nat); [done|].
  destruct (continuation (leading_ones B - 1) r) as [[o r']|] eqn:Hcont; [|done].
  apply continuation_length in Hcont as [Hlen _]. option_simpl.
  destruct (utf8_code_point (B :: o)); [|done]. option_simpl.
  by rewrite (IH f2 r') by lia.
Qed.

Lemma decodeURIComponent_plain C rest :
  C ≠ unit_of "%" →
  decodeURIComponent (C :: rest) = (λ R, C :: R) <$> decodeURIComponent rest.
Proof.
  intros HC. unfold decodeURIComponent. cbn [length Decode].
  destruct (Z.eqb_spec C (unit_of "%")); [done|]. cbn [negb].
  by destruct (Decode (length rest) rest).
Qed.

Lemma decodeURIComponent_percent B rest :
  0 ≤ B < 256 →
  decodeURIComponent (percent_octet B ++ rest) =
  let n := leading_ones B in
  if (n =? 0)%nat then (λ R, B :: R) <$> decodeURIComponent rest
  else if (n =? 1)%nat || (4 <? n)%nat then None
  else
    '(Octets, rest) ← continuation (n - 1) rest;
    V ← utf8_code_point (B :: Octets);
    R ← decodeURIComponent rest;
    Some (UTF16EncodeCodePoint V ++ R).
Proof.
  intros HB. unfold decodeURIComponent, percent_octet.
  cbn [app length Decode]. rewrite Z.eqb_refl. cbn [negb].
  rewrite ParseHexOctet_percent by done. option_simpl. cbv zeta.
  rewrite length_app. cbn [length hex_octet].
  destruct (leading_ones B =? 0)%nat.
  { rewrite (Decode_fuel _ (length rest)) by lia.
    by destruct (Decode (length rest) rest). }
  destruct ((leading_ones B =? 1)%nat || (4 <? leading_ones B)%nat); [done|].
  destruct (continuation (leading_ones B - 1) rest) as [[o r']|] eqn:Hcont; [|done].
  apply continuation_length in Hcont as [Hlen _]. option_simpl.
  destruct (utf8_code_point (B :: o)); [|done]. option_simpl.
  by rewrite (Decode_fuel _ (length r')) by lia.
Qed.

Lemma continuation_percent j B rest :
  0 ≤ B < 256 →
  continuation (S j) (percent_octet B ++ rest) =
  '(Octets, rest) ← continuation j rest; Some (B :: Octets, rest).
Proof.
  intros HB. unfold percent_octet. cbn [app continuation].
  rewrite Z.eqb_refl, ParseHexOctet_percent by done. by option_simpl.
Qed.

Lemma continuation_percent_octets Octets rest :
  Forall (λ B, 0 ≤ B < 256) Octets →
  continuation (length Octets) (flat_map percent_octet Octets ++ rest)
  = Some (Octets, rest).
Proof.
  induction 1 as [|B Octets HB _ IH]; [done|].
  cbn [flat_map length]. rewrite <- app_assoc, continuation_percent by done.
  by rewrite IH.
Qed.

(** [escape] on a byte: itself or its two digits. *)
Lemma escape_unit_byte B :
  0 ≤ B < 256 →
  escape_unit B = if bool_decide (B ∈ escapeUnescaped) then [B] else percent_octet B.
Proof.
  intros HB. unfold escape_unit. case_bool_decide; [done|].
  by destruct (Z.ltb_spec B 256); [|lia].
Qed.

Lemma escape_unit_high B :
  0x80 ≤ B < 256 → escape_unit B = percent_octet B.
Proof.
  intros HB. rewrite escape_unit_byte by lia. case_bool_decide as Hin; [|done].
  apply escapeUnescaped_ascii in Hin. lia.
Qed.

Lemma escape_cons u rest : escape (u :: rest) = escape_unit u ++ escape rest.
Proof. done. Qed.

Lemma escape_app s1 s2 : escape (s1 ++ s2) = escape s1 ++ escape s2.
Proof. apply flat_map_app. Qed.

Lemma escape_high Octets :
  Forall (λ B, 0x80 ≤ B < 256) Octets →
  escape Octets = flat_map percent_octet Octets.
Proof.
  induction 1 as [|B Octets HB _ IH]; [done|].
  by rewrite escape_cons, escape_unit_high, IH.
Qed.

Lemma utf8ToString_ascii B rest :
  0 ≤ B < 0x80 →
  _utf8ToString (B :: rest) = (λ R, B :: R) <$> _utf8ToString rest.
Proof.
  intros HB. unfold _utf8ToString. rewrite escape_cons, escape_unit_byte by lia.
  case_bool_decide as Hin.
  - apply escapeUnescaped_ascii in Hin as [_ Hpercent].
    by apply decodeURIComponent_plain.
  - rewrite decodeURIComponent_percent by lia. cbv zeta.
    unfold leading_ones. by destruct (Z.ltb_spec B 0x80); [|lia].
Qed.

Ltac decide_units :=
  repeat (match goal with
          | |- context [?a <=? ?b] => destruct (Z.leb_spec a b)
          | |- context [?a <? ?b] => destruct (Z.ltb_spec a b)
          end;
          cbn [andb orb negb];
          try (exfalso; Z.div_mod_to_equations; lia)).

Lemma utf8_octets_decode cp :
  scalar_value cp → 0x80 ≤ cp →
  ∃ B Octets,
    utf8_octets cp = B :: Octets ∧
    Forall (λ B, 0x80 ≤ B < 256) (B :: Octets) ∧
    leading_ones B = S (length Octets) ∧
    (1 ≤ length Octets ≤ 3)%nat ∧
    utf8_code_point (B :: Octets) = Some cp.
Proof.
  intros [Hcp Hsurr] Hhigh. unfold utf8_octets.
  destruct (Z.ltb_spec cp 0x80); [lia|].
  destruct (Z.ltb_spec cp 0x800); [|destruct (Z.ltb_spec cp 0x10000)].
  all: eexists _, _; split; [done|]; split_and!;
    [repeat constructor; Z.div_mod_to_equations; lia
    |unfold leading_ones; decide_units; done
    |simpl; lia
    |simpl; lia
    |unfold utf8_code_point, is_continuation; cbv zeta; decide_units;
     f_equal; Z.div_mod_to_equations; lia].
Qed.

Lemma utf8ToString_octets cp rest :
  scalar_value cp →
  _utf8ToString (utf8_octets cp ++ rest)
  = (λ R, UTF16EncodeCodePoint cp ++ R) <$> _utf8ToString rest.
Proof.
  intros Hcp. destruct (decide (cp < 0x80)) as [Hlow|Hhigh].
  - rewrite utf8_octets_ascii by done. cbn [app].
    rewrite utf8ToString_ascii by (destruct Hcp; lia).
    unfold UTF16EncodeCodePoint. by destruct (Z.leb_spec cp 0xFFFF); [|lia].
  - destruct (utf8_octets_decode cp Hcp ltac:(lia))
      as (B & Octets & -> & Hrange & Hones & Hlen & Hdecode).
    unfold _utf8ToString. rewrite escape_app, (escape_high (B :: Octets)) by done.
    cbn [flat_map]. rewrite <- !app_assoc.
    apply Forall_cons in Hrange as [HB HOctets].
    rewrite decodeURIComponent_percent by lia. cbv zeta. rewrite Hones.
    replace (S (length Octets) =? 0)%nat with false by done.
    replace ((S (length Octets) =? 1)%nat || (4 <? S (length Octets))%nat)
      with false.
    2:{ symmetry. apply orb_false_iff. split.
        - apply Nat.eqb_neq. lia.
        - apply Nat.ltb_ge. lia. }
    replace (S (length Octets) - 1)%nat with (length Octets) by lia.
    rewrite continuation_percent_octets.
    2:{ eapply Forall_impl; [exact HOctets|]. intros b Hb. simpl in Hb. lia. }
    option_simpl. rewrite Hdecode. option_simpl.
    by destruct (decodeURIComponent (escape rest)).
Qed.

Lemma utf8ToString_utf8 cps :
  Forall scalar_value cps →
  _utf8ToString (utf8 cps) = Some (flat_map UTF16EncodeCodePoint cps).
Proof.
  induction 1 as [|cp cps Hcp _ IH]; [done|].
  rewrite utf8_cons, utf8ToString_octets, IH by done. done.
Qed.

Lemma pair_encode lead trail :
  is_leading_surrogate lead = true → is_trailing_surrogate trail = true →
  UTF16EncodeCodePoint (UTF16SurrogatePairToCodePoint lead trail) = [lead; trail].
Proof.
  intros Hlead Htrail.
  unfold UTF16EncodeCodePoint, UTF16SurrogatePairToCodePoint.
  unfold is_leading_surrogate, is_trailing_surrogate in *.
  apply andb_prop in Hlead as [?%Z.leb_le ?%Z.leb_le].
  apply andb_prop in Htrail as [?%Z.leb_le ?%Z.leb_le].
  destruct (Z.leb_spec ((lead - 55296) * 1024 + (trail - 56320) + 65536) 65535);
    [lia|].
  f_equal; [|f_equal]; Z.div_mod_to_equations; lia.
Qed.

(** The code points of a string are scalar values, and they spell the
    string. *)
Lemma code_points_units (text : jsstring) : ∀ cps,
  Forall (λ u, 0 ≤ u < 65536) text →
  code_points text = Some cps →
  Forall scalar_value cps ∧ flat_map UTF16EncodeCodePoint cps = text.
Proof.
  induction text as [|u rest IH1 IH2] using jsstring_pair_ind; intros cps.
  { intros _ [= <-]. by split. }
  intros [Hu Hrest]%Forall_cons. cbn [code_points].
  destruct (is_trailing_surrogate u) eqn:Htrail; [done|].
  destruct (is_leading_surrogate u) eqn:Hlead.
  - destruct rest as [|v rest']; [done|].
    destruct (is_trailing_surrogate v) eqn:Hv; [|done].
    apply Forall_cons in Hrest as [_ Hrest'].
    destruct (code_points rest') as [cps'|] eqn:Hcps; [|done].
    option_simpl. intros [= <-].
    destruct (IH2 v rest' eq_refl cps' Hrest' Hcps) as [Hscalar Hspell].
    pose proof (pair_code_point u v Hlead Hv).
    split.
    + constructor; [|done]. split; lia.
    + cbn [flat_map]. by rewrite pair_encode, Hspell.
  - destruct (code_points rest) as [cps'|] eqn:Hcps; [|done].
    option_simpl. intros [= <-].
    destruct (IH1 cps' Hrest eq_refl) as [Hscalar Hspell].
    split.
    + constructor; [|done].
      unfold is_trailing_surrogate, is_leading_surrogate in *.
      split; [lia|]. intros Hs.
      destruct (decide (u < 0xDC00)).
      * apply andb_false_iff in Hlead as [?%Z.leb_gt|?%Z.leb_gt]; lia.
      * apply andb_false_iff in Htrail as [?%Z.leb_gt|?%Z.leb_gt]; lia.
    + cbn [flat_map]. rewrite Hspell. unfold UTF16EncodeCodePoint.
      by destruct (Z.leb_spec u 0xFFFF); [|lia].
Qed.

Lemma utf8ToString_stringToUtf8 (text bytes : jsstring) :
  Forall (λ u, 0 ≤ u < 65536) text →
  _stringToUtf8 text = Some bytes → _utf8ToString bytes = Some text.
Proof.
  intros Hrange. rewrite stringToUtf8_utf8 by done.
  destruct (code_points text) as [cps|] eqn:Hcps; [|done].
  intros [= <-].
  destruct (code_points_units text cps Hrange Hcps) as [Hscalar Hspell].
  by rewrite utf8ToString_utf8, Hspell.
Qed.

(** *** From the bytes back to the string *)

Lemma ParseHexOctet_u s : ParseHexOctet (unit_of "u" :: s) = None.
Proof. by destruct s as [|b s]. Qed.

Lemma escape_unit_wide u :
  256 ≤ u →
  escape_unit u
  = unit_of "%" :: unit_of "u" :: hex_octet (u / 256) ++ hex_octet (u mod 256).
Proof.
  intros Hu. unfold escape_unit. case_bool_decide as Hin.
  - apply escapeUnescaped_ascii in Hin. lia.
  - by destruct (Z.ltb_spec u 256); [lia|].
Qed.

(** A code unit from 256 up is escaped as [%uXXXX], which [Decode] does not
    read. *)
Lemma utf8ToString_wide u rest : 256 ≤ u → _utf8ToString (u :: rest) = None.
Proof.
  intros Hu. unfold _utf8ToString, decodeURIComponent.
  rewrite escape_cons, escape_unit_wide by done.
  cbn [app length Decode]. rewrite Z.eqb_refl. cbn [negb].
  by rewrite ParseHexOctet_u.
Qed.

Lemma continuation_escape j : ∀ rest Octets r1,
  Forall (λ u, 0 ≤ u < 65536) rest →
  continuation j (escape rest) = Some (Octets, r1) →
  ∃ tail, rest = Octets ++ tail ∧ r1 = escape tail ∧
          length Octets = j ∧ Forall (λ B, 0 ≤ B < 256) Octets.
Proof.
  induction j as [|j IH]; intros rest Octets r1 Hrange.
  { intros [= <- <-]. by exists rest. }
  destruct rest as [|c rest]; [done|].
  apply Forall_cons in Hrange as [Hc Hrest]. rewrite escape_cons.
  destruct (decide (c < 256)) as [Hbyte|Hwide].
  - rewrite escape_unit_byte by lia. case_bool_decide as Hin.
    + apply escapeUnescaped_ascii in Hin as [_ Hpercent].
      cbn [app continuation]. by destruct (Z.eqb_spec c (unit_of "%")).
    + rewrite continuation_percent by lia.
      destruct (continuation j (escape rest)) as [[o r]|] eqn:Hcont; [|done].
      option_simpl. intros [= <- <-].
      destruct (IH _ _ _ Hrest Hcont) as (tail & -> & -> & <- & Ho).
      exists tail. split_and!; try done. constructor; [lia|done].
  - rewrite escape_unit_wide by lia. cbn [app continuation].
    rewrite Z.eqb_refl. by rewrite ParseHexOctet_u.
Qed.

Ltac decide_units_in H :=
  repeat (match type of H with
          | context [?a <=? ?b] => destruct (Z.leb_spec a b)
          | context [?a <? ?b] => destruct (Z.ltb_spec a b)
          end;
          cbn [andb orb negb] in H;
          try discriminate H).

(** Octets that [Decode] takes for a code point are the UTF-8 octets of
    that code point. *)
Lemma utf8_code_point_octets B Octets V :
  0x80 ≤ B < 256 → Forall (λ B, 0 ≤ B < 256) Octets →
  leading_ones B = S (length Octets) →
  utf8_code_point (B :: Octets) = Some V →
  scalar_value V ∧ 0x80 ≤ V ∧ utf8_octets V = B :: Octets.
Proof.
  intros HB HOctets Hones Hdecode.
  destruct Octets as [|b1 [|b2 [|b3 [|b4 Octets]]]]; try done.
  - apply Forall_cons in HOctets as [H1 _].
    unfold leading_ones in Hones. cbn [length] in Hones.
    decide_units_in Hones.
    unfold utf8_code_point, is_continuation in Hdecode. cbv zeta in Hdecode.
    decide_units_in Hdecode. injection Hdecode as <-.
    unfold scalar_value, utf8_octets. split_and!; try lia.
    decide_units. repeat f_equal; Z.div_mod_to_equations; lia.
  - apply Forall_cons in HOctets as [H1 [H2 _]%Forall_cons].
    unfold leading_ones in Hones. cbn [length] in Hones.
    decide_units_in Hones.
    unfold utf8_code_point, is_continuation in Hdecode. cbv zeta in Hdecode.
    decide_units_in Hdecode.
    + injection Hdecode as <-.
      unfold scalar_value, utf8_octets. split_and!; try lia.
      decide_units. repeat f_equal; Z.div_mod_to_equations; lia.
    + injection Hdecode as <-.
      unfold scalar_value, utf8_octets. split_and!; try lia.
      decide_units. repeat f_equal; Z.div_mod_to_equations; lia.
  - apply Forall_cons in HOctets as [H1 [H2 [H3 _]%Forall_cons]%Forall_cons].
    unfold leading_ones in Hones. cbn [length] in Hones.
    decide_units_in Hones.
    unfold utf8_code_point, is_continuation in Hdecode. cbv zeta in Hdecode.
    decide_units_in Hdecode. injection Hdecode as <-.
    unfold scalar_value, utf8_octets. split_and!; try lia.
    decide_units. repeat f_equal; Z.div_mod_to_equations; lia.
Qed.

Lemma leading_ones_high B : 0x80 ≤ B → leading_ones B ≠ 0%nat.
Proof. intros HB. unfold leading_ones. decide_units; done. Qed.

(** What [_utf8ToString] accepts is the UTF-8 encoding of scalar values, and
    it returns their UTF-16 encoding. *)
Lemma utf8ToString_inv (bytes : jsstring) : ∀ text,
  Forall (λ u, 0 ≤ u < 65536) bytes →
  _utf8ToString bytes = Some text →
  ∃ cps, Forall scalar_value cps ∧ bytes = utf8 cps ∧
         text = flat_map UTF16EncodeCodePoint cps.
Proof.
  remember (length bytes) as n eqn:Hn. revert bytes Hn.
  induction n as [n IH] using lt_wf_ind. intros bytes -> text Hrange.
  destruct bytes as [|b rest].
  { intros [= <-]. by exists []. }
  apply Forall_cons in Hrange as [Hb Hrest].
  destruct (decide (b < 0x80)) as [Hascii|Hhigh].
  { rewrite utf8ToString_ascii by lia.
    destruct (_utf8ToString rest) as [R|] eqn:HR; [|done].
    intros [= <-].
    destruct (IH (length rest) ltac:(simpl; lia) rest eq_refl R Hrest HR)
      as (cps & Hscalar & -> & ->).
    exists (b :: cps). split_and!.
    - constructor; [|done]. split; lia.
    - by rewrite utf8_cons, utf8_octets_ascii.
    - cbn [flat_map]. unfold UTF16EncodeCodePoint.
      by destruct (Z.leb_spec b 0xFFFF); [|lia]. }
  destruct (decide (b < 256)) as [Hbyte|Hwide];
    [|by rewrite utf8ToString_wide by lia].
  unfold _utf8ToString. rewrite escape_cons, escape_unit_high by lia.
  rewrite decodeURIComponent_percent by lia. cbv zeta.
  pose proof (leading_ones_high b ltac:(lia)) as Hones.
  destruct (Nat.eqb_spec (leading_ones b) 0); [done|].
  destruct ((leading_ones b =? 1)%nat || (4 <? leading_ones b)%nat) eqn:Hn14;
    [done|].
  destruct (continuation (leading_ones b - 1) (escape rest)) as [[Octets r1]|]
    eqn:Hcont; [|done].
  option_simpl.
  destruct (continuation_escape _ _ _ _ Hrest Hcont)
    as (tail & -> & -> & Hlen & HOctets).
  destruct (utf8_code_point (b :: Octets)) as [V|] eqn:HV; [|done].
  option_simpl.
  destruct (decodeURIComponent (escape tail)) as [R|] eqn:HR; [|done].
  option_simpl. intros [= <-].
  apply Forall_app in Hrest as [_ Htail].
  destruct (IH (length tail) ltac:(simpl; rewrite length_app; lia) tail eq_refl
              R Htail HR) as (cps & Hscalar & -> & ->).
  destruct (utf8_code_point_octets b Octets V) as (HVs & _ & Hoctets);
    [lia|done|lia|done|].
  exists (V :: cps). split_and!.
  - by constructor.
  - by rewrite utf8_cons, Hoctets.
  - done.
Qed.

Lemma code_points_encode cps :
  Forall scalar_value cps →
  code_points (flat_map UTF16EncodeCodePoint cps) = Some cps ∧
  Forall (λ u, 0 ≤ u < 65536) (flat_map UTF16EncodeCodePoint cps).
Proof.
  induction 1 as [|cp cps [Hcp Hsurr] _ [IH1 IH2]]; [done|].
  cbn [flat_map]. unfold UTF16EncodeCodePoint at 1 3.
  destruct (Z.leb_spec cp 0xFFFF).
  - cbn [app code_points]. split; [|constructor; [lia|done]].
    assert (is_trailing_surrogate cp = false) as ->
      by (unfold is_trailing_surrogate; decide_units; lia).
    assert (is_leading_surrogate cp = false) as ->
      by (unfold is_leading_surrogate; decide_units; lia).
    by rewrite IH1.
  - set (lead := (cp - 0x10000) / 0x400 + 0xD800).
    set (trail := (cp - 0x10000) mod 0x400 + 0xDC00).
    assert (Hlead : 0xD800 ≤ lead ≤ 0xDBFF)
      by (unfold lead; Z.div_mod_to_equations; lia).
    assert (Htrail : 0xDC00 ≤ trail ≤ 0xDFFF)
      by (unfold trail; Z.div_mod_to_equations; lia).
    cbn [app code_points]. split; [|repeat (constructor; [lia|]); done].
    assert (is_trailing_surrogate lead = false) as ->
      by (unfold is_trailing_surrogate; decide_units; lia).
    assert (is_leading_surrogate lead = true) as ->
      by (unfold is_leading_surrogate; decide_units; lia).
    assert (is_trailing_surrogate trail = true) as ->
      by (unfold is_trailing_surrogate; decide_units; lia).
    rewrite IH1. option_simpl. do 2 f_equal.
    unfold UTF16SurrogatePairToCodePoint, lead, trail.
    Z.div_mod_to_equations. lia.
Qed.

Lemma stringToUtf8_utf8ToString (bytes text : jsstring) :
  Forall (λ u, 0 ≤ u < 65536) bytes →
  _utf8ToString bytes = Some text → _stringToUtf8 text = Some bytes.
Proof.
  intros Hrange Hdecode.
  destruct (utf8ToString_inv bytes text Hrange Hdecode)
    as (cps & Hscalar & -> & ->).
  destruct (code_points_encode cps Hscalar) as [Hcps Hunits].
  by rewrite stringToUtf8_utf8, Hcps.
Qed.

(** *** Where the ASCII characters of the encoding come from *)

Lemma utf8_octets_head cp :
  scalar_value cp →
  ∃ B Octets, utf8_octets cp = B :: Octets ∧
    (cp < 0x80 ∧ B = cp ∧ Octets = []
     ∨ 0x80 ≤ cp ∧ 0xC2 ≤ B ≤ 0xF4 ∧ Forall (λ B, 0x80 ≤ B < 0xC0) Octets).
Proof.
  intros [Hcp Hsurr]. unfold utf8_octets.
  destruct (Z.ltb_spec cp 0x80); [by eexists _, _; split; [|left]|].
  destruct (Z.ltb_spec cp 0x800); [|destruct (Z.ltb_spec cp 0x10000)].
  all: eexists _, _; split; [done|right]; split_and!;
    [done
    |Z.div_mod_to_equations; lia
    |Z.div_mod_to_equations; lia
    |repeat constructor; Z.div_mod_to_equations; lia].
Qed.

(** ASCII octets at the start of an encoding are code points by
    themselves. *)
Lemma utf8_ascii_prefix nm : ∀ cps l3,
  Forall scalar_value cps → Forall (λ u, u < 0x80) nm →
  utf8 cps = nm ++ l3 → ∃ c3, cps = nm ++ c3 ∧ utf8 c3 = l3.
Proof.
  induction nm as [|a nm IH]; intros cps l3 Hscalar Hnm Heq.
  { by exists cps. }
  apply Forall_cons in Hnm as [Ha Hnm].
  destruct Hscalar as [|cp cps Hcp Hscalar]; [done|].
  rewrite utf8_cons in Heq.
  destruct (utf8_octets_head cp Hcp)
    as (B & Octets & Hoct & [(Hlow & -> & ->)|(Hhigh & HB & _)]);
    rewrite Hoct in Heq; injection Heq as -> Heq; [|lia].
  destruct (IH cps l3 Hscalar Hnm Heq) as (c3 & -> & <-).
  by exists c3.
Qed.

(** A stretch of ASCII octets anywhere in an encoding is a stretch of code
    points. *)
Lemma utf8_ascii_stretch cps : ∀ l1 nm l3,
  Forall scalar_value cps → Forall (λ u, u < 0x80) nm → nm ≠ [] →
  utf8 cps = l1 ++ nm ++ l3 → ∃ c1 c3, cps = c1 ++ nm ++ c3.
Proof.
  induction cps as [|cp cps IH]; intros l1 nm l3 Hscalar Hnm Hne Heq.
  { destruct l1, nm; done. }
  apply Forall_cons in Hscalar as [Hcp Hscalar].
  destruct l1 as [|x l1].
  { destruct (utf8_ascii_prefix nm (cp :: cps) l3) as (c3 & Hc3 & _);
      [by constructor|done|done|].
    by exists [], c3. }
  rewrite utf8_cons in Heq.
  destruct (utf8_octets_head cp Hcp)
    as (B & Octets & Hoct & [(Hlow & -> & ->)|(Hhigh & HB & HOctets)]);
    rewrite Hoct in Heq.
  { injection Heq as -> Heq.
    destruct (IH l1 nm l3 Hscalar Hnm Hne Heq) as (c1 & c3 & ->).
    by exists (x :: c1), c3. }
  injection Heq as -> Heq.
  apply app_eq_inv in Heq as [(k & -> & Hk)|(k & -> & Hk)].
  - destruct k as [|y k].
    + rewrite app_nil_l in Hk.
      destruct (utf8_ascii_prefix nm cps l3) as (c3 & -> & _); [done..|].
      by exists [cp], c3.
    + destruct nm as [|a nm]; [done|]. injection Hk as -> Hk.
      apply Forall_cons in Hnm as [Ha _].
      apply Forall_app in HOctets as [_ [Hy _]%Forall_cons]. lia.
  - destruct (IH k nm l3 Hscalar Hnm Hne Hk) as (c1 & c3 & ->).
    by exists (cp :: c1), c3.
Qed.

(** *** Bytes as characters *)

Lemma unit_of_char_of B : 0 ≤ B < 256 → unit_of (char_of B) = B.
Proof.
  intros HB. unfold unit_of, char_of.
  rewrite N_ascii_embedding by lia. lia.
Qed.

Lemma map_unit_of_char_of bytes :
  Forall (λ B, 0 ≤ B < 256) bytes → map unit_of (map char_of bytes) = bytes.
Proof.
  induction 1 as [|B bytes HB _ IH]; [done|].
  cbn [map]. by rewrite unit_of_char_of, IH.
Qed.

Lemma utf8_range cps :
  Forall scalar_value cps → Forall (λ B, 0 ≤ B < 256) (utf8 cps).
Proof.
  induction 1 as [|cp cps [Hcp _] _ IH]; [done|].
  rewrite utf8_cons. apply Forall_app. split; [by apply utf8_octets_range|done].
Qed.

Lemma proto_names_ascii name :
  name ∈ proto_names →
  Forall (λ u, u < 0x80) (map unit_of name) ∧ map unit_of name ≠ [].
Proof.
  assert (Hall : Forall (λ name, Forall (λ u, u < 0x80) (map unit_of name)
                                 ∧ map unit_of name ≠ []) proto_names)
    by (apply (bool_decide_unpack _); by vm_compute).
  rewrite Forall_forall in Hall. apply Hall.
Qed.

Lemma utf16_ascii nm :
  Forall (λ u, u < 0x80) nm → flat_map UTF16EncodeCodePoint nm = nm.
Proof.
  induction 1 as [|u nm Hu _ IH]; [done|].
  cbn [flat_map]. rewrite IH. unfold UTF16EncodeCodePoint.
  by destruct (Z.leb_spec u 0xFFFF); [|lia].
Qed.

(** A property name in the bytes is a property name in the text. *)
Lemma proto_free_utf8 text cps :
  Forall (λ u, 0 ≤ u < 65536) text → code_points text = Some cps →
  proto_free_text text → proto_free (map char_of (utf8 cps)).
Proof.
  intros Hrange Hcps Hfree pre name post Heq Hin.
  destruct (code_points_units text cps Hrange Hcps) as [Hscalar Hspell].
  apply (f_equal (map unit_of)) in Heq.
  rewrite map_unit_of_char_of, !map_app in Heq by by apply utf8_range.
  destruct (proto_names_ascii name Hin) as [Hascii Hne].
  destruct (utf8_ascii_stretch cps _ _ _ Hscalar Hascii Hne Heq) as (c1 & c3 & ->).
  rewrite !flat_map_app, (utf16_ascii (map unit_of name)) in Hspell by done.
  by apply (Hfree _ name _ (eq_sym Hspell)).
Qed.

Lemma proto_free_text_short text : (length text < 7)%nat → proto_free_text text.
Proof.
  intros Hlen pre name post -> Hin%list_elem_of_In.
  assert (Hall : forallb (λ name : phrase, 7 <=? length name)%nat proto_names = true)
    by by vm_compute.
  rewrite forallb_forall in Hall. apply Hall, Nat.leb_le in Hin.
  rewrite !length_app, length_map in Hlen. lia.
Qed.

(** *** The conversions and the chain on a text *)

(** [_stringToUtf8] returns the UTF-8 octets of the code points of the
    string, one code unit for each octet; it throws the URIError exactly
    when a surrogate is not half of a pair. *)
Theorem stringToUtf8_encodes (text : jsstring) :
  Forall (λ u, 0 ≤ u < 65536) text →
  _stringToUtf8 text = utf8 <$> code_points text ∧
  (_stringToUtf8 text = None ↔ code_points text = None).
Proof.
  intros Hrange. rewrite stringToUtf8_utf8 by done. split; [done|].
  by destruct (code_points text).
Qed.

Lemma stringToUtf8_encodes_witness :
  _stringToUtf8 [104; 233; 0x6DF1; 0xD83D; 0xDE00]
    = utf8 <$> code_points [104; 233; 0x6DF1; 0xD83D; 0xDE00] ∧
  (_stringToUtf8 [104; 233; 0x6DF1; 0xD83D; 0xDE00] = None
     ↔ code_points [104; 233; 0x6DF1; 0xD83D; 0xDE00] = None).
Proof.
  apply (stringToUtf8_encodes [104; 233; 0x6DF1; 0xD83D; 0xDE00]).
  repeat constructor; lia.
Defined.

Lemma utf8_octets_length cp :
  scalar_value cp →
  (length (UTF16EncodeCodePoint cp) ≤ length (utf8_octets cp)
   ≤ 3 * length (UTF16EncodeCodePoint cp))%nat.
Proof.
  intros [Hcp _]. unfold UTF16EncodeCodePoint, utf8_octets.
  decide_units; simpl; lia.
Qed.

(** What [_stringToUtf8] returns holds bytes only, so that the loop of
    [lzwCompress] over it reads one byte at a time; it is at least as long
    as the string and at most three times as long. *)
Theorem stringToUtf8_bytes (text bytes : jsstring) :
  Forall (λ u, 0 ≤ u < 65536) text →
  _stringToUtf8 text = Some bytes →
  Forall (λ B, 0 ≤ B < 256) bytes ∧
  (length text ≤ length bytes ≤ 3 * length text)%nat.
Proof.
  intros Hrange. rewrite stringToUtf8_utf8 by done.
  destruct (code_points text) as [cps|] eqn:Hcps; [|done]. intros [= <-].
  destruct (code_points_units text cps Hrange Hcps) as [Hscalar <-].
  clear Hcps Hrange. induction Hscalar as [|cp cps Hcp _ [IH1 IH2]]; [by split|].
  rewrite utf8_cons. cbn [flat_map]. rewrite !length_app.
  pose proof (utf8_octets_length cp Hcp). split; [|lia].
  apply Forall_app. split; [|done]. apply utf8_octets_range. by destruct Hcp.
Qed.

Lemma stringToUtf8_bytes_witness :
  Forall (λ B, 0 ≤ B < 256) [104; 195; 169; 230; 183; 177] ∧
  (length [104; 233; 0x6DF1]%Z ≤ length [104; 195; 169; 230; 183; 177]%Z
   ≤ 3 * length [104; 233; 0x6DF1]%Z)%nat.
Proof.
  apply (stringToUtf8_bytes [104; 233; 0x6DF1] [104; 195; 169; 230; 183; 177]).
  - repeat constructor; lia.
  - by vm_compute.
Defined.

(** The two conversions are inverse to each other: [_utf8ToString] returns
    [text] on [bytes] exactly when [_stringToUtf8] returns [bytes] on
    [text]. So [_utf8ToString] throws on every string that is not the UTF-8
    encoding of a string. *)
Theorem utf8_conversions_inverse (text bytes : jsstring) :
  Forall (λ u, 0 ≤ u < 65536) text →
  Forall (λ u, 0 ≤ u < 65536) bytes →
  _stringToUtf8 text = Some bytes ↔ _utf8ToString bytes = Some text.
Proof.
  intros Htext Hbytes. split.
  - by apply utf8ToString_stringToUtf8.
  - by apply stringToUtf8_utf8ToString.
Qed.

Lemma utf8_conversions_inverse_witness :
  _stringToUtf8 [104; 233; 0xD83D; 0xDE00] = Some [104; 195; 169; 240; 159; 152; 128]
  ↔ _utf8ToString [104; 195; 169; 240; 159; 152; 128] = Some [104; 233; 0xD83D; 0xDE00].
Proof.
  apply (utf8_conversions_inverse [104; 233; 0xD83D; 0xDE00]
           [104; 195; 169; 240; 159; 152; 128]).
  - repeat constructor; lia.
  - repeat constructor; lia.
Defined.

(** A string of ASCII characters is its own UTF-8 encoding: both
    conversions return it as it is. *)
Theorem utf8_conversions_ascii (text : jsstring) :
  Forall (λ u, 0 ≤ u < 0x80) text →
  _stringToUtf8 text = Some text ∧ _utf8ToString text = Some text.
Proof.
  intros Hascii.
  assert (Hdecode : _utf8ToString text = Some text).
  { induction Hascii as [|u text Hu _ IH]; [done|].
    by rewrite utf8ToString_ascii, IH by done. }
  split; [|done]. apply stringToUtf8_utf8ToString; [|done].
  eapply Forall_impl; [exact Hascii|]. intros u Hu. simpl in Hu. lia.
Qed.

Lemma utf8_conversions_ascii_witness :
  _stringToUtf8 (code_units "50% of a+b") = Some (code_units "50% of a+b") ∧
  _utf8ToString (code_units "50% of a+b") = Some (code_units "50% of a+b").
Proof.
  apply (utf8_conversions_ascii (code_units "50% of a+b")).
  repeat constructor; by vm_compute.
Defined.

(** [_utf8ToString] throws the URIError on a string that, after ASCII
    characters, goes on with a code unit that starts no UTF-8 encoding: a
    continuation octet, one of 0xC0 and 0xC1, or anything from 0xF5 up
    (which covers every code unit above 255). *)
Theorem utf8ToString_rejects (pre post : jsstring) (b : Z) :
  Forall (λ u, 0 ≤ u < 0x80) pre →
  Forall (λ u, 0 ≤ u < 65536) post →
  0x80 ≤ b < 0xC2 ∨ 0xF5 ≤ b < 65536 →
  _utf8ToString (pre ++ b :: post) = None.
Proof.
  intros Hpre Hpost Hb.
  destruct (_utf8ToString (pre ++ b :: post)) as [text|] eqn:Hdecode; [|done].
  exfalso. apply utf8ToString_inv in Hdecode as (cps & Hscalar & Heq & _).
  2:{ apply Forall_app. split.
      - eapply Forall_impl; [exact Hpre|]. intros u Hu. simpl in Hu. lia.
      - constructor; [lia|done]. }
  destruct (utf8_ascii_prefix pre cps (b :: post)) as (c3 & -> & Hc3);
    [done| |done|].
  { eapply Forall_impl; [exact Hpre|]. intros u Hu. simpl in Hu. lia. }
  apply Forall_app in Hscalar as [_ Hscalar].
  destruct Hscalar as [|cp c3 Hcp _]; [done|].
  rewrite utf8_cons in Hc3.
  destruct (utf8_octets_head cp Hcp)
    as (B & Octets & Hoct & [(Hlow & -> & ->)|(Hhigh & HB & _)]);
    rewrite Hoct in Hc3; injection Hc3 as -> _; lia.
Qed.

Lemma utf8ToString_rejects_witness :
  _utf8ToString (code_units "ab" ++ 0xA9 :: code_units "cd") = None.
Proof.
  apply (utf8ToString_rejects (code_units "ab") (code_units "cd") 0xA9).
  - repeat constructor; by vm_compute.
  - repeat constructor; by vm_compute.
  - lia.
Defined.

(** The chain of [demoForNodeJs] returns the text it was given, for every
    text without a lone surrogate in which no stretch spells a property name
    of [Object.prototype]. *)
Theorem roundtrip_text_proto_free (TEXT : jsstring) :
  Forall (λ u, 0 ≤ u < 65536) TEXT →
  is_Some (code_points TEXT) →
  proto_free_text TEXT →
  roundtrip_text TEXT = Returns (Some TEXT).
Proof.
  intros Hrange [cps Hcps] Hfree.
  destruct (code_points_units TEXT cps Hrange Hcps) as [Hscalar Hspell].
  pose proof (proto_free_utf8 TEXT cps Hrange Hcps Hfree) as Hbytes.
  unfold roundtrip_text, lzwCompress_text.
  rewrite stringToUtf8_utf8, Hcps by done. option_simpl.
  destruct (lzw_decode _ Hbytes) as (Hcodes & Hdec & _).
  destruct (lzwCompress (map char_of (utf8 cps))) as [codes dict].
  cbn [fst] in Hcodes, Hdec.
  destruct (pack_unpack _ Hcodes) as (bytes & Hpack & Hunpack).
  rewrite Hpack, bind_Returns, Hunpack, bind_Returns.
  unfold lzwDecompress_text. rewrite Hdec, bind_Returns.
  rewrite map_unit_of_char_of by by apply utf8_range.
  by rewrite utf8ToString_utf8, Hspell.
Qed.

Lemma roundtrip_text_proto_free_witness :
  roundtrip_text [104; 233; 0x6DF1] = Returns (Some [104; 233; 0x6DF1]).
Proof.
  apply (roundtrip_text_proto_free [104; 233; 0x6DF1]).
  - repeat constructor; lia.
  - vm_compute. by eexists.
  - apply proto_free_text_short. simpl. lia.
Defined.
